(** * RemoteAuth: remote-backed session strategy of whatsapp-web.js

    A shallow embedding of [src/authStrategies/RemoteAuth.js].  The class
    keeps a browser profile directory backed up in a caller-supplied store:
    it restores the directory before the browser starts, and stages, zips
    and uploads a subset of it once the client is ready and then
    periodically.

    The methods are asynchronous but strictly sequential (every call is
    awaited), so they are modelled in a state-and-error monad over a [World]
    holding the disk, the remote store, the interval timers, the hosting
    client's puppeteer options and a log of the calls made to the outside.
    Calls that can fail for reasons outside the program (I/O errors, a
    rejecting store, a corrupt archive) consult a fault oracle.

    Two things escape the sequential reading and are modelled as such: a
    promise that never settles is an outcome of its own ([Pending]), and the
    files that [unzipper] is still writing when its promise resolves are
    kept in the world as writes in flight. *)

From Stdlib Require Import String Ascii List ZArith Bool Arith Lia.
Import ListNotations.
Open Scope string_scope.
Open Scope list_scope.
Set Warnings "-register-all".

(** ** Paths

    [this.dataPath] is the result of [path.resolve], an absolute normalised
    path; everything the class appends to it is a single name that the
    constructor has validated.  A path is therefore the list of its
    components, [path.join p name] is [p ++ [name]]. *)

Definition path := list string.

Definition path_join (p : path) (name : string) : path := p ++ [name].

Definition path_eqb (p q : path) : bool :=
  if list_eq_dec string_dec p q then true else false.

(** Template-literal coercion [`${x}`] of a string that may be [undefined]. *)
Definition js_str (x : option string) : string :=
  match x with Some s => s | None => "undefined" end.

(** JavaScript truthiness of a string that may be [undefined]. *)
Definition truthy (x : option string) : bool :=
  match x with
  | Some s => negb (String.eqb s "")
  | None => false
  end.

(** ** The disk

    A directory tree.  The bytes of a zip archive are not modelled: a file
    written by archiver is represented by the listing it encodes ([Zip]),
    any other file by its bytes ([File]).  Directories are association
    lists from names to nodes; the first binding of a name counts. *)

Inductive node : Type :=
| File (data : string)
| Zip (entries : list (string * node))
| Dir (entries : list (string * node)).

Definition entries := list (string * node).

Fixpoint alist_get (k : string) (l : entries) : option node :=
  match l with
  | [] => None
  | (k', v) :: l' => if String.eqb k k' then Some v else alist_get k l'
  end.

(** Rebinds [k], in place when it is bound already, at the end otherwise. *)
Fixpoint alist_set (k : string) (v : node) (l : entries) : entries :=
  match l with
  | [] => [(k, v)]
  | (k', v') :: l' =>
      if String.eqb k k' then (k, v) :: l' else (k', v') :: alist_set k v l'
  end.

Fixpoint alist_del (k : string) (l : entries) : entries :=
  match l with
  | [] => []
  | (k', v') :: l' =>
      if String.eqb k k' then alist_del k l' else (k', v') :: alist_del k l'
  end.

Fixpoint fs_get (p : path) (n : node) : option node :=
  match p with
  | [] => Some n
  | k :: p' =>
      match n with
      | Dir es =>
          match alist_get k es with
          | Some c => fs_get p' c
          | None => None
          end
      | _ => None
      end
  end.

(** Writes [v] at [p]; the parent of [p] has to be an existing directory. *)
Fixpoint fs_put (p : path) (v : node) (n : node) : option node :=
  match p with
  | [] => Some v
  | k :: p' =>
      match n with
      | Dir es =>
          match p', alist_get k es with
          | [], _ => Some (Dir (alist_set k v es))
          | _, Some c =>
              match fs_put p' v c with
              | Some c' => Some (Dir (alist_set k c' es))
              | None => None
              end
          | _, None => None
          end
      | _ => None
      end
  end.

(** [mkdir -p]: creates the missing directories along [p]; fails when a
    component is a file. *)
Fixpoint fs_mkdirp (p : path) (n : node) : option node :=
  match n with
  | Dir es =>
      match p with
      | [] => Some n
      | k :: p' =>
          let c := match alist_get k es with Some c => c | None => Dir [] end in
          match fs_mkdirp p' c with
          | Some c' => Some (Dir (alist_set k c' es))
          | None => None
          end
      end
  | _ => None
  end.

(** [rm -rf]: removes the node at [p] and everything below it; nothing
    happens when [p] does not exist. *)
Fixpoint fs_remove (p : path) (n : node) : node :=
  match p with
  | [] => n
  | k :: p' =>
      match n with
      | Dir es =>
          match p' with
          | [] => Dir (alist_del k es)
          | _ =>
              match alist_get k es with
              | Some c => Dir (alist_set k (fs_remove p' c) es)
              | None => n
              end
          end
      | _ => n
      end
  end.

(** Recursive copy onto an existing node: directories are merged entry by
    entry, a file replaces a file, and a directory and a file do not mix. *)
Fixpoint merge (new old : node) {struct new} : option node :=
  match new with
  | Dir ns =>
      match old with
      | Dir os =>
          option_map Dir
            ((fix go (l acc : entries) {struct l} : option entries :=
                match l with
                | [] => Some acc
                | (k, c) :: l' =>
                    match alist_get k acc with
                    | Some o =>
                        match merge c o with
                        | Some m => go l' (alist_set k m acc)
                        | None => None
                        end
                    | None => go l' (alist_set k c acc)
                    end
                end) ns os)
      | _ => None
      end
  | f => match old with Dir _ => None | _ => Some f end
  end.

(** Places a copy of [v] at [p]: missing parents are created and [v] is
    merged into whatever is at [p] already. *)
Definition fs_install (p : path) (v : node) (root : node) : option node :=
  match fs_mkdirp (removelast p) root with
  | Some r1 =>
      match fs_get p r1 with
      | Some old =>
          match merge v old with
          | Some m => fs_put p m r1
          | None => None
          end
      | None => fs_put p v r1
      end
  | None => None
  end.

(** A file and its path, moved below [p]. *)
Definition under (p : path) (qf : path * node) : path * node :=
  (p ++ fst qf, snd qf).

(** The files of a tree with their paths, in listing order.  An archive
    inside the tree is a file like any other. *)
Fixpoint files_of (n : node) : list (path * node) :=
  match n with
  | Dir es =>
      (fix go (l : entries) : list (path * node) :=
         match l with
         | [] => []
         | (k, c) :: l' => map (under [k]) (files_of c) ++ go l'
         end) es
  | f => [([], f)]
  end.

(** Writes files one after the other, each with the directories that lead
    to it, stopping at the first one that cannot be written (what was
    written before stays). *)
Fixpoint fs_write_all (ws : list (path * node)) (root : node) : bool * node :=
  match ws with
  | [] => (true, root)
  | (q, f) :: ws' =>
      match fs_install q f root with
      | Some r1 => fs_write_all ws' r1
      | None => (false, root)
      end
  end.

(** What writing the files of a tree recreates of it: the files, and the
    directories that lead to a file.  A directory without any file below it
    is not recreated. *)
Fixpoint extracted (n : node) : option node :=
  match n with
  | Dir es =>
      match
        (fix go (l : entries) : entries :=
           match l with
           | [] => []
           | (k, c) :: l' =>
               match extracted c with
               | Some c' => (k, c') :: go l'
               | None => go l'
               end
           end) es
      with
      | [] => None
      | l => Some (Dir l)
      end
  | f => Some f
  end.

(** The listing that [extracted] gives to a directory of these entries. *)
Fixpoint extracted_entries (l : entries) : entries :=
  match l with
  | [] => []
  | (k, c) :: l' =>
      match extracted c with
      | Some c' => (k, c') :: extracted_entries l'
      | None => extracted_entries l'
      end
  end.

(** No directory of the tree lists a name twice, as on a real disk. *)
Fixpoint distinct_names (l : list string) : bool :=
  match l with
  | [] => true
  | k :: l' => negb (existsb (String.eqb k) l') && distinct_names l'
  end.

Fixpoint well_named (n : node) : bool :=
  match n with
  | Dir es =>
      distinct_names (map fst es) &&
      (fix go (l : entries) : bool :=
         match l with
         | [] => true
         | (_, c) :: l' => well_named c && go l'
         end) es
  | _ => true
  end.

(** ** Calls to the outside world *)

Inductive event : Type :=
| StoreSessionExists (session : option string)
| StoreSave (session : path)
| StoreExtract (session : option string) (dest : path)
| StoreDelete (session : option string)
| Emit (name : string)
| Delay (ms : Z)
| SetInterval (handle : nat) (ms : Z)
| ClearInterval (handle : option nat)
| FsRm (target : path) (maxRetries : nat)
| FsUnlink (target : path)
| FsMkdir (target : path)
| FsCp (src dest : path)
| FsCreateWriteStream (target : path)
| ArchiveDirectory (src dest : path)
| UnzipExtract (src dest : path).

Inductive error : Type :=
| MissingDependencies
| InvalidClientId
| InvalidBackupSyncIntervalMs
| StoreRequired
| IncompatibleUserDataDir
| TypeError
| NoEntry (target : path)
| StoreFailure (call : event)
| FsFailure (call : event)
| ArchiveFailure (call : event).

(** Modelled from the spec: [Events.REMOTE_SESSION_SAVED] of
    [util/Constants], which is not among the sources; it names the "first
    backup completed" notification.  Only its identity matters. *)
Definition REMOTE_SESSION_SAVED : string := "remote_session_saved".

(** [flushed] and [inflight] belong to the extraction of archives:
    [unzipper.Extract] signals [finish] when it has consumed the archive,
    which is before it has written the last files.  [flushed] is the number
    of files that are on disk at that moment (it depends on the scheduling
    of the writes, not on the program), and [inflight] holds the writes that
    are still to come, in order. *)
Record World : Type := mkWorld {
  disk : node;
  remote : entries;
  timers : list (nat * Z);
  next_timer : nat;
  puppeteer_userDataDir : option path;
  trace : list event;
  flushed : nat;
  inflight : list (path * node)
}.

Definition set_disk (d : node) (w : World) : World :=
  mkWorld d (remote w) (timers w) (next_timer w) (puppeteer_userDataDir w) (trace w)
    (flushed w) (inflight w).

Definition set_remote (r : entries) (w : World) : World :=
  mkWorld (disk w) r (timers w) (next_timer w) (puppeteer_userDataDir w) (trace w)
    (flushed w) (inflight w).

Definition set_timers (t : list (nat * Z)) (n : nat) (w : World) : World :=
  mkWorld (disk w) (remote w) t n (puppeteer_userDataDir w) (trace w)
    (flushed w) (inflight w).

Definition set_puppeteer (u : option path) (w : World) : World :=
  mkWorld (disk w) (remote w) (timers w) (next_timer w) u (trace w)
    (flushed w) (inflight w).

Definition add_trace (e : event) (w : World) : World :=
  mkWorld (disk w) (remote w) (timers w) (next_timer w) (puppeteer_userDataDir w)
    (trace w ++ [e]) (flushed w) (inflight w).

Definition set_inflight (ws : list (path * node)) (w : World) : World :=
  mkWorld (disk w) (remote w) (timers w) (next_timer w) (puppeteer_userDataDir w)
    (trace w) (flushed w) ws.

(** The world once the writes in flight have been carried out. *)
Definition settle (w : World) : World :=
  set_inflight [] (set_disk (snd (fs_write_all (inflight w) (disk w))) w).

(** ** The monad of asynchronous methods *)

(** A promise is fulfilled ([Ok]), rejected ([Throw]) or never settles
    ([Pending]).  Nothing that waits for a pending promise ever runs: not
    the code after its [await], and no [catch] or [finally] around it. *)
Inductive outcome (A : Type) : Type :=
| Ok (a : A)
| Throw (e : error)
| Pending.
Arguments Ok {A} a.
Arguments Throw {A} e.
Arguments Pending {A}.

Definition M (A : Type) : Type := World -> outcome A * World.

Definition ret {A} (a : A) : M A := fun w => (Ok a, w).

Definition throw {A} (e : error) : M A := fun w => (Throw e, w).

Definition bind {A B} (m : M A) (k : A -> M B) : M B :=
  fun w =>
    match m w with
    | (Ok a, w') => k a w'
    | (Throw e, w') => (Throw e, w')
    | (Pending, w') => (Pending, w')
    end.

Notation "x <- m ;; k" := (bind m (fun x => k))
  (at level 61, m at next level, right associativity).
Notation "m ;;; k" := (bind m (fun _ => k))
  (at level 61, right associativity).

(** [try { body } catch { handler }] *)
Definition try_catch {A} (body handler : M A) : M A :=
  fun w =>
    match body w with
    | (Ok a, w') => (Ok a, w')
    | (Throw _, w') => handler w'
    | (Pending, w') => (Pending, w')
    end.

(** [try { body } finally { cleanup }]: the cleanup runs once the body has
    settled; the body's completion stands unless the cleanup itself
    throws. *)
Definition try_finally {A} (body : M A) (cleanup : M unit) : M A :=
  fun w =>
    match body w with
    | (Pending, w1) => (Pending, w1)
    | (r, w1) =>
        match cleanup w1 with
        | (Ok _, w2) => (r, w2)
        | (Throw e, w2) => (Throw e, w2)
        | (Pending, w2) => (Pending, w2)
        end
    end.

(** [promise.catch(() => {})] *)
Definition absorb (m : M unit) : M unit := try_catch m (ret tt).

(** [Promise.allSettled]: every promise is run, none of them rejects the
    whole.  The two promises it is used on touch different paths and always
    settle, so they are run in the order in which they are started. *)
Fixpoint allSettled (ms : list (M unit)) : M unit :=
  match ms with
  | [] => ret tt
  | m :: ms' => absorb m ;;; allSettled ms'
  end.

Fixpoint for_of {A} (l : list A) (body : A -> M unit) : M unit :=
  match l with
  | [] => ret tt
  | a :: l' => body a ;;; for_of l' body
  end.

(** Using a value that is [undefined] where a string is required. *)
Definition need {A} (x : option A) : M A :=
  match x with Some a => ret a | None => throw TypeError end.

Definition log (e : event) : M unit := fun w => (Ok tt, add_trace e w).

(** ** Primitives

    [faults call] is the number of attempts of [call] that fail before one
    would succeed: a call that is not retried fails when the number is not
    zero, [fs.promises.rm] fails when it exceeds [maxRetries]. *)

Section Primitives.

Variable faults : event -> nat.

Definition fails (call : event) : bool := negb (Nat.eqb (faults call) 0).

(** [fs.promises.access]: touches nothing. *)
Definition fs_access (p : option path) : M unit :=
  p' <- need p ;;
  fun w =>
    match fs_get p' (disk w) with
    | Some _ => (Ok tt, w)
    | None => (Throw (NoEntry p'), w)
    end.

(** [fs.promises.rm(p, { recursive: true, force: true, maxRetries })] *)
Definition fs_rm (p : option path) (maxRetries : nat) : M unit :=
  p' <- need p ;;
  log (FsRm p' maxRetries) ;;;
  if Nat.ltb maxRetries (faults (FsRm p' maxRetries))
  then throw (FsFailure (FsRm p' maxRetries))
  else fun w => (Ok tt, set_disk (fs_remove p' (disk w)) w).

(** [fs.promises.unlink(p)] *)
Definition fs_unlink (p : path) : M unit :=
  log (FsUnlink p) ;;;
  if fails (FsUnlink p) then throw (FsFailure (FsUnlink p))
  else fun w =>
    match fs_get p (disk w) with
    | Some (File _) | Some (Zip _) => (Ok tt, set_disk (fs_remove p (disk w)) w)
    | Some (Dir _) | None => (Throw (FsFailure (FsUnlink p)), w)
    end.

(** [mkdir(p, { recursive: true })], as a promise or synchronous. *)
Definition fs_mkdir (p : option path) : M unit :=
  p' <- need p ;;
  log (FsMkdir p') ;;;
  if fails (FsMkdir p') then throw (FsFailure (FsMkdir p'))
  else fun w =>
    match fs_mkdirp p' (disk w) with
    | Some d => (Ok tt, set_disk d w)
    | None => (Throw (FsFailure (FsMkdir p')), w)
    end.

(** [fs.promises.cp(src, dest, { recursive: true })] *)
Definition fs_cp (src dest : path) : M unit :=
  log (FsCp src dest) ;;;
  if fails (FsCp src dest) then throw (FsFailure (FsCp src dest))
  else fun w =>
    match fs_get src (disk w) with
    | Some n =>
        match fs_install dest n (disk w) with
        | Some d => (Ok tt, set_disk d w)
        | None => (Throw (FsFailure (FsCp src dest)), w)
        end
    | None => (Throw (FsFailure (FsCp src dest)), w)
    end.

(** [fs.createWriteStream(p)]: creates or truncates the file.  It does not
    throw.  A stream that cannot be opened emits its [error] event a little
    later, while [compressSession] is still waiting for
    [copyByRequiredDirs] and has not attached any listener to the stream:
    the event reaches no handler of the method.  The result says whether
    the stream was opened. *)
Definition fs_createWriteStream (p : path) : M bool :=
  log (FsCreateWriteStream p) ;;;
  if fails (FsCreateWriteStream p) then ret false
  else fun w =>
    match fs_get p (disk w) with
    | Some (Dir _) => (Ok false, w)
    | _ =>
        match fs_put p (File "") (disk w) with
        | Some d => (Ok true, set_disk d w)
        | None => (Ok false, w)
        end
    end.

(** The promise that [compressSession] returns:
    [archiver('zip').directory(src, false).pipe(stream)] and [finalize()],
    with [reject] on the [error] of the archiver or of the stream and
    [resolve] on the stream's [close].  On an opened stream the file becomes
    the archive of everything below [src].  A stream that could not be
    opened has emitted its [error] and its [close] before the listeners were
    attached, so neither [resolve] nor [reject] is ever called: the promise
    never settles (and the unhandled [error] may end the host process;
    either way nothing that waits for the promise runs). *)
Definition archive_directory (src : path) (stream : bool) (dest : path) : M path :=
  log (ArchiveDirectory src dest) ;;;
  if negb stream then fun w => (Pending, w)
  else if fails (ArchiveDirectory src dest)
  then throw (ArchiveFailure (ArchiveDirectory src dest))
  else fun w =>
    match fs_get src (disk w) with
    | Some (Dir es) =>
        match fs_put dest (Zip es) (disk w) with
        | Some d => (Ok dest, set_disk d w)
        | None => (Throw (ArchiveFailure (ArchiveDirectory src dest)), w)
        end
    | _ => (Throw (ArchiveFailure (ArchiveDirectory src dest)), w)
    end.

(** The writes that [unzipper.Extract({ path: dest })] performs for an
    archive: one per file, at the file's path below [dest].  Directory
    entries are skipped; a directory comes into being only as the parent of
    a file that is written. *)
Definition extract_writes (dest : path) (es : entries) : list (path * node) :=
  map (under dest) (files_of (Dir es)).

(** [fs.createReadStream(src).pipe(unzipper.Extract({ path: dest }))] up to
    [finish] or [error].  A file that is not an archive is rejected; a fault
    [S k] breaks the extraction off after [k] files, and what was written
    until then stays on disk.  Otherwise the promise resolves on [finish]:
    the first [flushed] files are on disk, the others are in flight.  (An
    error of a write in flight reaches no one; it is not modelled.) *)
Definition unzip_extract (src : path) (dest : option path) : M unit :=
  dest' <- need dest ;;
  log (UnzipExtract src dest') ;;;
  fun w =>
    match fs_get src (disk w) with
    | Some (Zip es) =>
        let ws := extract_writes dest' es in
        match faults (UnzipExtract src dest') with
        | O =>
            match fs_write_all (firstn (flushed w) ws) (disk w) with
            | (true, d) =>
                (Ok tt, set_inflight (inflight w ++ skipn (flushed w) ws) (set_disk d w))
            | (false, d) =>
                (Throw (ArchiveFailure (UnzipExtract src dest')), set_disk d w)
            end
        | S k =>
            (Throw (ArchiveFailure (UnzipExtract src dest')),
             set_disk (snd (fs_write_all (firstn k ws) (disk w))) w)
        end
    | _ => (Throw (ArchiveFailure (UnzipExtract src dest')), w)
    end.

(** *** The remote store

    The store is supplied by the caller; its code is not among the sources.
    Its state is a table from record names to archives.  [sessionExists],
    [extract] and [delete] are given the session name and work on the
    record of that name; [extract] writes the archive to the path it is
    given.  [save] is given the session path [dataPath/sessionName], neither
    the session name nor the archive path: the model takes it to upload the
    file [session + '.zip'], the one archive the cycle has written, and
    leaves the name under which the archive is filed to the store
    ([record_name]).  Every operation may reject. *)

Record Store : Type := mkStore {
  record_name : path -> string
}.

Definition key_of (session : option string) (r : entries) : option node :=
  match session with
  | Some s => alist_get s r
  | None => None
  end.

Definition store_sessionExists (session : option string) : M bool :=
  log (StoreSessionExists session) ;;;
  if fails (StoreSessionExists session)
  then throw (StoreFailure (StoreSessionExists session))
  else fun w =>
    match key_of session (remote w) with
    | Some _ => (Ok true, w)
    | None => (Ok false, w)
    end.

Definition store_save (st : Store) (session : path) : M unit :=
  log (StoreSave session) ;;;
  if fails (StoreSave session) then throw (StoreFailure (StoreSave session))
  else fun w =>
    match fs_get (path_join (removelast session) (last session "" ++ ".zip"))
            (disk w) with
    | Some (Dir _) | None => (Throw (StoreFailure (StoreSave session)), w)
    | Some blob =>
        (Ok tt, set_remote (alist_set (record_name st session) blob (remote w)) w)
    end.

Definition store_extract (session : option string) (dest : path) : M unit :=
  log (StoreExtract session dest) ;;;
  if fails (StoreExtract session dest)
  then throw (StoreFailure (StoreExtract session dest))
  else fun w =>
    match key_of session (remote w) with
    | Some blob =>
        match fs_put dest blob (disk w) with
        | Some d => (Ok tt, set_disk d w)
        | None => (Throw (StoreFailure (StoreExtract session dest)), w)
        end
    | None => (Throw (StoreFailure (StoreExtract session dest)), w)
    end.

Definition store_delete (session : option string) : M unit :=
  log (StoreDelete session) ;;;
  if fails (StoreDelete session) then throw (StoreFailure (StoreDelete session))
  else fun w =>
    match session with
    | Some s => (Ok tt, set_remote (alist_del s (remote w)) w)
    | None => (Ok tt, w)
    end.

(** *** The hosting client and the timers *)

(** Modelled from the spec: [this.client] is installed by
    [BaseAuthStrategy], which is not among the sources.  Of the client only
    its [emit] and its [options.puppeteer.userDataDir] are used; an emitted
    notification is a call in the log. *)
Definition client_emit (name : string) : M unit := log (Emit name).

(** [setInterval]: a new handle every time. *)
Definition setInterval (ms : Z) : M nat :=
  fun w =>
    let h := next_timer w in
    (Ok h, add_trace (SetInterval h ms)
             (set_timers (timers w ++ [(h, ms)]) (S h) w)).

(** [clearInterval]: cancels the timer with this handle, if there is one. *)
Definition clearInterval (handle : option nat) : M unit :=
  fun w =>
    let keep (t : nat * Z) :=
      match handle with
      | Some h => negb (Nat.eqb (fst t) h)
      | None => true
      end in
    (Ok tt, add_trace (ClearInterval handle)
              (set_timers (filter keep (timers w)) (next_timer w) w)).

End Primitives.

(** ** The class *)

(** The optional dependencies: [true] for a loaded module, [false] for
    [undefined]. *)
Record Deps : Type := mkDeps {
  fs : bool;
  unzipper : bool;
  archiver : bool
}.

(** The [try { require ... } catch { ... }] block at the top of the module:
    the three modules are required in turn, and the first one that is not
    installed sends control to the handler, which resets all three. *)
Definition require_optional (installed : string -> bool) : Deps :=
  if installed "fs-extra" then
    if installed "unzipper" then
      if installed "archiver" then mkDeps true true true
      else mkDeps false false false
    else mkDeps false false false
  else mkDeps false false false.

Record Options : Type := mkOptions {
  opt_clientId : option string;
  opt_dataPath : option path;
  opt_store : option Store;
  opt_backupSyncIntervalMs : option Z;
  opt_rmMaxRetries : option nat
}.

Record RemoteAuth : Type := mkRemoteAuth {
  store : Store;
  clientId : option string;
  backupSyncIntervalMs : Z;
  dataPath : path;
  tempDir : path;
  requiredDirs : list string;
  rmMaxRetries : nat;
  userDataDir : option path;
  sessionName : option string;
  backupSync : option nat
}.

Definition set_session (dir : path) (name : string) (self : RemoteAuth) : RemoteAuth :=
  mkRemoteAuth (store self) (clientId self) (backupSyncIntervalMs self)
    (dataPath self) (tempDir self) (requiredDirs self) (rmMaxRetries self)
    (Some dir) (Some name) (backupSync self).

Definition with_backupSync (b : option nat) (self : RemoteAuth) : RemoteAuth :=
  mkRemoteAuth (store self) (clientId self) (backupSyncIntervalMs self)
    (dataPath self) (tempDir self) (requiredDirs self) (rmMaxRetries self)
    (userDataDir self) (sessionName self) b.

Definition set_backupSync (h : nat) (self : RemoteAuth) : RemoteAuth :=
  with_backupSync (Some h) self.

(** [sessionDirName] of [beforeBrowserInitialized] *)
Definition sessionDirName (self : RemoteAuth) : string :=
  if truthy (clientId self)
  then ("RemoteAuth-" ++ js_str (clientId self))%string
  else "RemoteAuth".

(** *** [idRegex = /^[-_\w]+$/i] *)

Definition in_range (lo hi c : ascii) : bool :=
  (nat_of_ascii lo <=? nat_of_ascii c)%nat && (nat_of_ascii c <=? nat_of_ascii hi)%nat.

Definition is_letter (c : ascii) : bool :=
  in_range "a" "z" c || in_range "A" "Z" c.

Definition is_digit (c : ascii) : bool := in_range "0" "9" c.

(** [\w] *)
Definition word_char (c : ascii) : bool :=
  is_letter c || is_digit c || Ascii.eqb c "_".

(** [[-_\w]] *)
Definition id_class (c : ascii) : bool :=
  Ascii.eqb c "-" || Ascii.eqb c "_" || word_char c.

Fixpoint all_chars (f : ascii -> bool) (s : string) : bool :=
  match s with
  | EmptyString => true
  | String c s' => f c && all_chars f s'
  end.

(** [idRegex.test(s)]: the whole string, one character of the class or
    more. *)
Definition idRegex_test (s : string) : bool :=
  match s with
  | EmptyString => false
  | String c s' => id_class c && all_chars id_class s'
  end.

(** *** [constructor]

    [cwd] is the working directory [path.resolve] resolves the default data
    path against; a data path that is supplied is taken as resolved. *)
Definition constructor (deps : Deps) (cwd : path) (o : Options) : outcome RemoteAuth :=
  if negb (fs deps) && negb (unzipper deps) && negb (archiver deps)
  then Throw MissingDependencies
  else
    if truthy (opt_clientId o) && negb (idRegex_test (js_str (opt_clientId o)))
    then Throw InvalidClientId
    else
      match opt_backupSyncIntervalMs o with
      | None => Throw InvalidBackupSyncIntervalMs
      | Some ms =>
          if (ms =? 0)%Z || (ms <? 60000)%Z
          then Throw InvalidBackupSyncIntervalMs
          else
            match opt_store o with
            | None => Throw StoreRequired
            | Some st =>
                let data :=
                  match opt_dataPath o with
                  | Some p => p
                  | None => path_join cwd ".wwebjs_auth"
                  end in
                Ok (mkRemoteAuth st (opt_clientId o) ms data
                      (path_join data
                         ("wwebjs_temp_session_" ++ js_str (opt_clientId o))%string)
                      ["Default"; "IndexedDB"; "Local Storage"]
                      (match opt_rmMaxRetries o with Some r => r | None => 4%nat end)
                      None None None)
            end
      end.

(** [options] of [storeRemoteSession] *)
Record SaveOptions : Type := mkSaveOptions { emit : bool }.

Section Methods.

Variable faults : event -> nat.

Definition isValidPath (p : option path) : M bool :=
  try_catch (fs_access p ;;; ret true) (ret false).

Definition delay (ms : Z) : M unit := log (Delay ms).

(** The body of the loop of [copyByRequiredDirs]. *)
Definition copy_required (self : RemoteAuth) (dir : string) : M unit :=
  base <- need (userDataDir self) ;;
  let srcDir := path_join base dir in
  let destDir := path_join (tempDir self) dir in
  exists_ <- isValidPath (Some srcDir) ;;
  if exists_ then fs_cp faults srcDir destDir else ret tt.

Definition copyByRequiredDirs (self : RemoteAuth) : M unit :=
  fs_mkdir faults (Some (tempDir self)) ;;;
  for_of (requiredDirs self) (copy_required self).

Definition compressSession (self : RemoteAuth) : M path :=
  let outputPath :=
    path_join (dataPath self) (js_str (sessionName self) ++ ".zip")%string in
  stream <- fs_createWriteStream faults outputPath ;;
  copyByRequiredDirs self ;;;
  archive_directory faults (tempDir self) stream outputPath.

Definition unCompressSession (self : RemoteAuth) (compressedSessionPath : path) : M unit :=
  unzip_extract faults compressedSessionPath (userDataDir self) ;;;
  fs_unlink faults compressedSessionPath.

(** The [finally] block of [storeRemoteSession]. *)
Definition finally_cleanup (self : RemoteAuth) (compressedSessionPath : option path) : M unit :=
  allSettled
    [ match compressedSessionPath with
      | Some p => absorb (fs_unlink faults p)
      | None => ret tt
      end;
      absorb (fs_rm faults (Some (tempDir self)) (rmMaxRetries self)) ].

(** The [try] block of [storeRemoteSession] after [compressSession] has
    resolved. *)
Definition save_and_notify (self : RemoteAuth) (options : option SaveOptions) : M unit :=
  session <- need (sessionName self) ;;
  store_save faults (store self) (path_join (dataPath self) session) ;;;
  if match options with Some o => emit o | None => false end
  then client_emit REMOTE_SESSION_SAVED
  else ret tt.

(** [compressedSessionPath] is assigned when [compressSession] resolves and
    stays [undefined] when it rejects; the [finally] block reads it. *)
Definition storeRemoteSession (self : RemoteAuth) (options : option SaveOptions) : M unit :=
  pathExists <- isValidPath (userDataDir self) ;;
  if negb pathExists then ret tt
  else
    fun w =>
      match compressSession self w with
      | (Ok compressedSessionPath, w1) =>
          try_finally (save_and_notify self options)
            (finally_cleanup self (Some compressedSessionPath)) w1
      | (Throw e, w1) =>
          try_finally (throw e) (finally_cleanup self None) w1
      | (Pending, w1) => (Pending, w1)
      end.

Definition extractRemoteSession (self : RemoteAuth) : M unit :=
  pathExists <- isValidPath (userDataDir self) ;;
  let compressedSessionPath :=
    path_join (dataPath self) (js_str (sessionName self) ++ ".zip")%string in
  sessionExists <- store_sessionExists faults (sessionName self) ;;
  (if pathExists
   then absorb (fs_rm faults (userDataDir self) (rmMaxRetries self))
   else ret tt) ;;;
  if sessionExists
  then
    store_extract faults (sessionName self) compressedSessionPath ;;;
    unCompressSession self compressedSessionPath
  else fs_mkdir faults (userDataDir self).

Definition deleteRemoteSession (self : RemoteAuth) : M unit :=
  sessionExists <- store_sessionExists faults (sessionName self) ;;
  if sessionExists then store_delete faults (sessionName self) else ret tt.

(** The methods that assign to [this] return the updated object. *)
Definition beforeBrowserInitialized (self : RemoteAuth) : M RemoteAuth :=
  fun w =>
    let puppeteerOpts := puppeteer_userDataDir w in
    let dirPath := path_join (dataPath self) (sessionDirName self) in
    if match puppeteerOpts with
       | Some p => negb (path_eqb p dirPath)
       | None => false
       end
    then (Throw IncompatibleUserDataDir, w)
    else
      let self' := set_session dirPath (sessionDirName self) self in
      (extractRemoteSession self' ;;;
       fun w' => (Ok self', set_puppeteer (Some dirPath) w')) w.

Definition destroy (self : RemoteAuth) : M unit :=
  clearInterval (backupSync self).

Definition disconnect (self : RemoteAuth) : M unit :=
  deleteRemoteSession self ;;;
  pathExists <- isValidPath (userDataDir self) ;;
  (if pathExists
   then absorb (fs_rm faults (userDataDir self) (rmMaxRetries self))
   else ret tt) ;;;
  clearInterval (backupSync self).

Definition logout (self : RemoteAuth) : M unit := disconnect self.

Definition afterAuthReady (self : RemoteAuth) : M RemoteAuth :=
  sessionExists <- store_sessionExists faults (sessionName self) ;;
  (if negb sessionExists
   then delay 60000 ;;; storeRemoteSession self (Some (mkSaveOptions true))
   else ret tt) ;;;
  h <- setInterval (backupSyncIntervalMs self) ;;
  ret (set_backupSync h self).

(** One firing of the interval callback: [self.storeRemoteSession()] when
    the timer is still active. *)
Definition tick (self : RemoteAuth) (handle : nat) : M unit :=
  fun w =>
    if existsb (fun t => Nat.eqb (fst t) handle) (timers w)
    then storeRemoteSession self None w
    else (Ok tt, w).

End Methods.

(** * Vocabulary of the properties *)

(** ** What a computation may touch

    [grows P w w']: from [w] to [w'] the timers and the client's options are
    untouched and the log has grown by calls that satisfy [P].  Everything
    except [setInterval], [clearInterval] and the end of
    [beforeBrowserInitialized] stays within this relation. *)

Definition grows (P : event -> bool) (w w' : World) : Prop :=
  timers w' = timers w /\
  next_timer w' = next_timer w /\
  puppeteer_userDataDir w' = puppeteer_userDataDir w /\
  exists evs, trace w' = trace w ++ evs /\ forallb P evs = true.

Definition confined {A} (P : event -> bool) (m : M A) : Prop :=
  forall w, grows P w (snd (m w)).

(** [settles m]: the promise of [m] is fulfilled or rejected, from every
    world. *)
Definition settles {A} (m : M A) : Prop :=
  forall w, fst (m w) <> Pending.

(** ** Kinds of calls *)

(** Staging and compression. *)
Definition is_packing (e : event) : bool :=
  match e with
  | FsCreateWriteStream _ | FsMkdir _ | FsCp _ _ | ArchiveDirectory _ _ => true
  | _ => false
  end.

(** Deletion of a file or of a directory tree. *)
Definition is_cleanup (e : event) : bool :=
  match e with
  | FsUnlink _ | FsRm _ _ => true
  | _ => false
  end.

Definition is_unlink (e : event) : bool :=
  match e with FsUnlink _ => true | _ => false end.

Definition is_rm (e : event) : bool :=
  match e with FsRm _ _ => true | _ => false end.

Definition is_save (e : event) : bool :=
  match e with StoreSave _ => true | _ => false end.

Definition is_query (e : event) : bool :=
  match e with StoreSessionExists _ => true | _ => false end.

(** Everything one backup cycle may call. *)
Definition is_cycle (e : event) : bool :=
  is_packing e || is_cleanup e || is_save e ||
  match e with Emit _ => true | _ => false end.

(** Everything a recovery may call. *)
Definition is_recovery (e : event) : bool :=
  match e with
  | StoreSessionExists _ | StoreExtract _ _ | FsRm _ _ | FsMkdir _
  | UnzipExtract _ _ | FsUnlink _ => true
  | _ => false
  end.

(** Position of the first call of a kind in a log. *)
Fixpoint first_index (P : event -> bool) (l : list event) : option nat :=
  match l with
  | [] => None
  | e :: l' =>
      if P e then Some 0%nat
      else match first_index P l' with Some i => Some (S i) | None => None end
  end.

(** ** The character set of identifiers, as documented

    "Only alphanumeric characters, underscores and hyphens are allowed." *)
Definition allowed_char (c : ascii) : bool :=
  is_letter c || is_digit c || Ascii.eqb c "_" || Ascii.eqb c "-".

(** ** Sample configurations and worlds *)

Definition all_installed : string -> bool := fun _ => true.

Definition without_unzipper : string -> bool :=
  fun m => negb (String.eqb m "unzipper").

Definition no_faults : event -> nat := fun _ => 0%nat.

(** A store that files what [save] is given under the last component of
    the session path, so that the other three operations, which are given
    the session name, find it. *)
Definition RemoteStore : Store := mkStore (fun session => last session "").

Definition bot1_options : Options :=
  mkOptions (Some "bot1") (Some ["srv"; "auth"]) (Some RemoteStore) (Some 60000%Z) None.

(** The object [new RemoteAuth(bot1_options)] builds. *)
Definition bot1 : RemoteAuth :=
  mkRemoteAuth RemoteStore (Some "bot1") 60000 ["srv"; "auth"]
    ["srv"; "auth"; "wwebjs_temp_session_bot1"]
    ["Default"; "IndexedDB"; "Local Storage"] 4 None None None.

(** The same object once [beforeBrowserInitialized] has named the session. *)
Definition bot1_ready : RemoteAuth :=
  set_session ["srv"; "auth"; "RemoteAuth-bot1"] "RemoteAuth-bot1" bot1.

Definition profile : node :=
  Dir [("Default", Dir [("Cookies", File "c")]);
       ("Cache", Dir [("data_0", File "x")]);
       ("IndexedDB", Dir [("db", File "i")]);
       ("Local Storage", Dir [("leveldb", File "l")])].

(** Nothing in flight, and an extraction that signals [finish] before it
    has written any file. *)
Definition world_of (d : node) (r : entries) : World :=
  mkWorld d r [] 0 None [] 0 [].

(** A data directory that holds a live session. *)
Definition live_disk : node :=
  Dir [("srv", Dir [("auth", Dir [("RemoteAuth-bot1", profile)])])].

(** A data directory without a session. *)
Definition bare_disk : node :=
  Dir [("srv", Dir [("auth", Dir [])])].

(** A live session next to a staging directory that an earlier cycle left
    behind. *)
Definition stale_disk : node :=
  Dir [("srv",
        Dir [("auth",
              Dir [("RemoteAuth-bot1", profile);
                   ("wwebjs_temp_session_bot1", Dir [("stale", File "old")])])])].

Definition stale_world : World := world_of stale_disk [].

(** A live session and an empty store. *)
Definition live_world : World := world_of live_disk [].

(** No session on disk and an empty store. *)
Definition bare_world : World := world_of bare_disk [].

(** No session on disk and a record in the store that is not an archive. *)
Definition corrupt_world : World :=
  world_of bare_disk [("RemoteAuth-bot1", File "garbage")].

(** No session on disk and a record in the store. *)
Definition saved_world : World :=
  world_of bare_disk [("RemoteAuth-bot1", Zip [])].

(** The store rejects every save. *)
Definition save_rejected : event -> nat :=
  fun e => match e with StoreSave _ => 1%nat | _ => 0%nat end.

(** Every removal of a directory tree fails twice before it succeeds. *)
Definition rm_busy_twice : event -> nat :=
  fun e => match e with FsRm _ _ => 2%nat | _ => 0%nat end.

(** The write stream of the archive cannot be opened. *)
Definition stream_fails : event -> nat :=
  fun e => match e with FsCreateWriteStream _ => 1%nat | _ => 0%nat end.

(** Copying into the staging directory fails. *)
Definition cp_fails : event -> nat :=
  fun e => match e with FsCp _ _ => 1%nat | _ => 0%nat end.

(** ** Statements of the specification that the code does not meet, as they
    are worded *)

(** "The store's save is invoked with the archive path that compress
    returned." *)
Definition save_receives_archive (faults : event -> nat) (self : RemoteAuth)
    (w : World) : Prop :=
  match compressSession faults self w with
  | (Ok zp, _) =>
      In (StoreSave zp) (trace (snd (storeRemoteSession faults self None w)))
  | _ => True
  end.

(** Whether the session directory exists, as [storeRemoteSession] finds
    out first. *)
Definition session_dir_exists (self : RemoteAuth) (w : World) : bool :=
  match userDataDir self with
  | Some p => match fs_get p (disk w) with Some _ => true | None => false end
  | None => false
  end.

(** "Deletion of the archive file and removal of the staging directory are
    both attempted." *)
Definition cleanup_attempted (faults : event -> nat) (self : RemoteAuth)
    (w : World) : Prop :=
  existsb is_unlink (trace (snd (storeRemoteSession faults self None w))) = true /\
  existsb is_rm (trace (snd (storeRemoteSession faults self None w))) = true.

(** "The periodic backup scheduler is started with the configured
    interval." *)
Definition scheduler_started (faults : event -> nat) (self : RemoteAuth)
    (w : World) : Prop :=
  exists h,
    In (h, backupSyncIntervalMs self) (timers (snd (afterAuthReady faults self w))).

(** "Calling the scheduler-start step a second time leaves exactly one
    recurring timer active and the schedule state unchanged." *)
Definition start_is_idempotent (faults : event -> nat) (self : RemoteAuth)
    (w : World) : Prop :=
  forall s1 w1 s2 w2,
    afterAuthReady faults self w = (Ok s1, w1) ->
    afterAuthReady faults s1 w1 = (Ok s2, w2) ->
    length (timers w2) = 1%nat /\
    timers w2 = timers w1 /\
    backupSync s2 = backupSync s1.

(** "An archive file never outlives the operation that created it", for
    the archive that recovery fetches. *)
Definition archive_gone_after_recovery (faults : event -> nat) (self : RemoteAuth)
    (w : World) : Prop :=
  fs_get (path_join (dataPath self) (js_str (sessionName self) ++ ".zip")%string)
    (disk (snd (extractRemoteSession faults self w))) = None.

(** "Any stale local session directory is force-removed before the store is
    queried for an existing record." *)
Definition removal_precedes_query (faults : event -> nat) (self : RemoteAuth)
    (w : World) : Prop :=
  match first_index is_rm (trace (snd (beforeBrowserInitialized faults self w))),
        first_index is_query (trace (snd (beforeBrowserInitialized faults self w)))
  with
  | Some i, Some j => (i < j)%nat
  | _, _ => False
  end.

(** An object as the constructor followed by [beforeBrowserInitialized]
    leaves it, whether or not [afterAuthReady] has stored a timer handle in
    it since. *)
Definition initialized (self : RemoteAuth) : Prop :=
  exists deps cwd o self0,
    constructor deps cwd o = Ok self0 /\
    self = with_backupSync (backupSync self)
             (set_session (path_join (dataPath self0) (sessionDirName self0))
                (sessionDirName self0) self0).

(** "Staging, compressing, then decompressing into an empty target directory
    reproduces the contents of the three required subdirectories and nothing
    else."  The target is the session directory itself, removed after the
    archive was written, as recovery does, and it is looked at once the
    extraction has written its last file. *)
Definition roundtrip_exact (faults : event -> nat) (self : RemoteAuth)
    (w : World) : Prop :=
  forall dir zp w1 w3 k,
    userDataDir self = Some dir ->
    compressSession faults self w = (Ok zp, w1) ->
    unCompressSession faults self zp (set_disk (fs_remove dir (disk w1)) w1)
      = (Ok tt, w3) ->
    fs_get (path_join dir k) (disk (settle w3)) =
      if existsb (String.eqb k) (requiredDirs self)
      then fs_get (path_join dir k) (disk w)
      else None.

(** The world right after [setInterval(ms)]. *)
Definition start_timer (ms : Z) (w : World) : World :=
  add_trace (SetInterval (next_timer w) ms)
    (set_timers (timers w ++ [(next_timer w, ms)]) (S (next_timer w)) w).

(** ** Vocabulary of the further properties *)

(** The three paths an instance works on below its data directory: the
    session directory, the staging directory and the archive. *)
Definition owned_paths (self : RemoteAuth) : list path :=
  [ path_join (dataPath self) (sessionDirName self);
    tempDir self;
    path_join (dataPath self) (sessionDirName self ++ ".zip")%string ].

(** The store rejects every delete. *)
Definition delete_rejected : event -> nat :=
  fun e => match e with StoreDelete _ => 1%nat | _ => 0%nat end.

(** The store rejects every existence query. *)
Definition query_rejected : event -> nat :=
  fun e => match e with StoreSessionExists _ => 1%nat | _ => 0%nat end.

(** The required subdirectories that a session directory listing has, in
    the order in which [copyByRequiredDirs] visits them. *)
Fixpoint staged_of (required : list string) (listing : entries) : entries :=
  match required with
  | [] => []
  | k :: required' =>
      match alist_get k listing with
      | Some n => (k, n) :: staged_of required' listing
      | None => staged_of required' listing
      end
  end.

(** [keeps R m]: whatever [m] returns or throws, the world it leaves is
    related by [R] to the world it started in. *)
Definition keeps {A} (R : World -> World -> Prop) (m : M A) : Prop :=
  forall w, R w (snd (m w)).

(** The node at [q] is the same in both worlds. *)
Definition same_at (q : path) (w w' : World) : Prop :=
  fs_get q (disk w') = fs_get q (disk w).


Definition same_remote (w w' : World) : Prop := remote w' = remote w.

(** A session directory in which the browser has not yet created all of
    the required subdirectories, and an empty store. *)
Definition young_disk : node :=
  Dir [("srv",
        Dir [("auth",
              Dir [("RemoteAuth-bot1",
                    Dir [("Cache", Dir [("data_0", File "x")]);
                         ("Default", Dir [("Cookies", File "c")])])])])].

Definition young_world : World := world_of young_disk [].

(** What a backup cycle may call when it is not asked to notify. *)
Definition is_silent_cycle (e : event) : bool :=
  is_packing e || is_cleanup e || is_save e.

(** Removal of a directory tree keeps failing, beyond every retry of the
    sample session. *)
Definition rm_always_busy : event -> nat :=
  fun e => match e with FsRm _ _ => 5%nat | _ => 0%nat end.
(** * Properties *)

(** ** Association lists and the disk *)

Lemma alist_get_set_same (k : string) (v : node) (l : entries) :
  alist_get k (alist_set k v l) = Some v.
Proof.
  induction l as [|[k' v'] l IH]; simpl.
  - now rewrite String.eqb_refl.
  - destruct (String.eqb k k') eqn:E; simpl.
    + now rewrite String.eqb_refl.
    + now rewrite E.
Qed.

Lemma alist_get_set_other (k k' : string) (v : node) (l : entries) :
  k <> k' -> alist_get k (alist_set k' v l) = alist_get k l.
Proof.
  intros Hne. induction l as [|[k2 v2] l IH]; simpl.
  - destruct (String.eqb_spec k k'); [contradiction|reflexivity].
  - destruct (String.eqb_spec k' k2) as [->|Hk]; simpl.
    + destruct (String.eqb_spec k k2); [contradiction|reflexivity].
    + destruct (String.eqb_spec k k2); [reflexivity|exact IH].
Qed.

Lemma alist_get_del_same (k : string) (l : entries) :
  alist_get k (alist_del k l) = None.
Proof.
  induction l as [|[k' v'] l IH]; simpl; [reflexivity|].
  destruct (String.eqb k k') eqn:E; simpl; [exact IH|].
  now rewrite E.
Qed.

Lemma alist_get_del_other (k k' : string) (l : entries) :
  k <> k' -> alist_get k (alist_del k' l) = alist_get k l.
Proof.
  intros Hne. induction l as [|[k2 v2] l IH]; simpl; [reflexivity|].
  destruct (String.eqb_spec k' k2) as [->|Hk]; simpl.
  - destruct (String.eqb_spec k k2); [contradiction|exact IH].
  - destruct (String.eqb_spec k k2); [reflexivity|exact IH].
Qed.

Lemma fs_get_app (p q : path) (d : node) :
  fs_get (p ++ q) d =
  match fs_get p d with Some c => fs_get q c | None => None end.
Proof.
  revert d. induction p as [|k p IH]; intros d; simpl; [reflexivity|].
  destruct d as [| |es]; try reflexivity.
  destruct (alist_get k es); [apply IH|reflexivity].
Qed.

Lemma fs_get_put_same (p : path) (v d d' : node) :
  fs_put p v d = Some d' -> fs_get p d' = Some v.
Proof.
  revert d d'. induction p as [|k p IH]; intros d d'; simpl.
  - now intros [= ->].
  - destruct d as [| |es]; try discriminate.
    destruct p as [|k2 p].
    + intros [= <-]. simpl. now rewrite alist_get_set_same.
    + destruct (alist_get k es) as [c|] eqn:Ec; try discriminate.
      destruct (fs_put (k2 :: p) v c) as [c'|] eqn:Ep; try discriminate.
      intros [= <-]. cbn [fs_get]. rewrite alist_get_set_same.
      exact (IH _ _ Ep).
Qed.

Lemma fs_get_remove_same (p : path) (d : node) :
  p <> [] -> fs_get p (fs_remove p d) = None.
Proof.
  revert d. induction p as [|k p IH]; intros d Hp; [contradiction|].
  destruct d as [| |es]; try reflexivity.
  destruct p as [|k2 p].
  - simpl. now rewrite alist_get_del_same.
  - cbn [fs_remove]. destruct (alist_get k es) as [c|] eqn:Ec.
    + cbn [fs_get]. rewrite alist_get_set_same. apply IH. discriminate.
    + cbn [fs_get]. now rewrite Ec.
Qed.

(** Removing never makes a path appear. *)
Lemma fs_get_remove_none (q p : path) (d : node) :
  fs_get q d = None -> fs_get q (fs_remove p d) = None.
Proof.
  revert q d. induction p as [|k p IH]; intros q d Hq; [exact Hq|].
  destruct d as [| |es]; try exact Hq.
  destruct q as [|kq q]; [discriminate|].
  destruct p as [|k2 p].
  - simpl in *. destruct (string_dec kq k) as [->|Hne].
    + now rewrite alist_get_del_same.
    + now rewrite alist_get_del_other.
  - cbn [fs_remove]. destruct (alist_get k es) as [c|] eqn:Ec; [|exact Hq].
    cbn [fs_get] in *. destruct (string_dec kq k) as [->|Hne].
    + rewrite alist_get_set_same. rewrite Ec in Hq. now apply IH.
    + now rewrite alist_get_set_other.
Qed.

Lemma path_join_nonempty (p : path) (name : string) : path_join p name <> [].
Proof. unfold path_join. now destruct p. Qed.

Lemma fs_mkdirp_cons (k : string) (p : path) (es : entries) :
  fs_mkdirp (k :: p) (Dir es) =
    match fs_mkdirp p (match alist_get k es with Some c => c | None => Dir [] end) with
    | Some c' => Some (Dir (alist_set k c' es))
    | None => None
    end.
Proof. reflexivity. Qed.

Lemma fs_remove_cons (k k2 : string) (p : path) (es : entries) :
  fs_remove (k :: k2 :: p) (Dir es) =
    match alist_get k es with
    | Some c => Dir (alist_set k (fs_remove (k2 :: p) c) es)
    | None => Dir es
    end.
Proof. reflexivity. Qed.

Lemma path_join_inj (p : path) (a b : string) :
  path_join p a = path_join p b -> a = b.
Proof.
  unfold path_join. intros H. apply app_inv_head in H. now inversion H.
Qed.

Lemma append_suffix_neq (s : string) (c : ascii) (r : string) :
  s <> (s ++ String c r)%string.
Proof.
  induction s as [|a s IH]; simpl; [discriminate|].
  intros [= H]. now apply IH.
Qed.

(** ** Operations below a directory act on that directory *)

Lemma app_cons_nonempty {A} (l q : list A) : q <> [] -> l ++ q <> [].
Proof. destruct l; [auto|discriminate]. Qed.

Lemma fs_put_cons (k k2 : string) (p : path) (v : node) (es : entries) :
  fs_put (k :: k2 :: p) v (Dir es) =
    match alist_get k es with
    | Some c =>
        match fs_put (k2 :: p) v c with
        | Some c' => Some (Dir (alist_set k c' es))
        | None => None
        end
    | None => None
    end.
Proof. reflexivity. Qed.

Lemma fs_put_focus (dp q : path) (v d D D' : node) :
  q <> [] ->
  fs_get dp d = Some D ->
  fs_put q v D = Some D' ->
  exists d', fs_put (dp ++ q) v d = Some d' /\ fs_get dp d' = Some D'.
Proof.
  intros Hq. revert d. induction dp as [|k dp IH]; intros d Hg Hp.
  - simpl in *. inversion Hg. subst D. now exists D'.
  - simpl in Hg. destruct d as [| |es]; try discriminate.
    destruct (alist_get k es) as [c|] eqn:Hk; [|discriminate].
    destruct (IH c Hg Hp) as (c' & Hput & Hget).
    exists (Dir (alist_set k c' es)). split.
    + simpl app. destruct (dp ++ q) as [|k2 r] eqn:E.
      * exfalso. exact (app_cons_nonempty dp q Hq E).
      * rewrite fs_put_cons, Hk, Hput. reflexivity.
    + simpl. now rewrite alist_get_set_same.
Qed.

Lemma fs_mkdirp_focus (dp q : path) (d D D' : node) :
  fs_get dp d = Some D ->
  fs_mkdirp q D = Some D' ->
  exists d', fs_mkdirp (dp ++ q) d = Some d' /\ fs_get dp d' = Some D'.
Proof.
  revert d. induction dp as [|k dp IH]; intros d Hg Hm.
  - simpl in *. inversion Hg. subst D. now exists D'.
  - simpl in Hg. destruct d as [| |es]; try discriminate.
    destruct (alist_get k es) as [c|] eqn:Hk; [|discriminate].
    destruct (IH c Hg Hm) as (c' & Hmk & Hget).
    exists (Dir (alist_set k c' es)). split.
    + simpl app. rewrite fs_mkdirp_cons, Hk, Hmk. reflexivity.
    + simpl. now rewrite alist_get_set_same.
Qed.

Lemma fs_remove_focus (dp q : path) (d D : node) :
  q <> [] ->
  fs_get dp d = Some D ->
  fs_get dp (fs_remove (dp ++ q) d) = Some (fs_remove q D).
Proof.
  intros Hq. revert d. induction dp as [|k dp IH]; intros d Hg.
  - simpl in *. now inversion Hg.
  - simpl in Hg. destruct d as [| |es]; try discriminate.
    destruct (alist_get k es) as [c|] eqn:Hk; [|discriminate].
    simpl app. destruct (dp ++ q) as [|k2 r] eqn:E.
    + exfalso. exact (app_cons_nonempty dp q Hq E).
    + rewrite fs_remove_cons, Hk. cbn [fs_get]. rewrite alist_get_set_same.
      now apply IH.
Qed.

Lemma fs_install_focus (dp q : path) (v d D D' : node) :
  q <> [] ->
  fs_get dp d = Some D ->
  fs_install q v D = Some D' ->
  exists d', fs_install (dp ++ q) v d = Some d' /\ fs_get dp d' = Some D'.
Proof.
  intros Hq Hg. unfold fs_install.
  rewrite (removelast_app dp Hq).
  destruct (fs_mkdirp (removelast q) D) as [D1|] eqn:Hm; [|discriminate].
  destruct (fs_mkdirp_focus dp (removelast q) d D D1 Hg Hm) as (d1 & -> & Hg1).
  rewrite fs_get_app, Hg1.
  destruct (fs_get q D1) as [old|].
  - destruct (merge v old) as [m|]; [|discriminate].
    intros Hp. exact (fs_put_focus dp q m d1 D1 D' Hq Hg1 Hp).
  - intros Hp. exact (fs_put_focus dp q v d1 D1 D' Hq Hg1 Hp).
Qed.

(** *** Writing next to a path does not change what is at the path *)

Lemma fs_put_step (a : string) (tail : path) (v : node) (es : entries) :
  tail <> [] ->
  fs_put (a :: tail) v (Dir es) =
    match alist_get a es with
    | Some c =>
        match fs_put tail v c with
        | Some c' => Some (Dir (alist_set a c' es))
        | None => None
        end
    | None => None
    end.
Proof. destruct tail; [contradiction|intros _; apply fs_put_cons]. Qed.

Lemma fs_remove_step (a : string) (tail : path) (es : entries) :
  tail <> [] ->
  fs_remove (a :: tail) (Dir es) =
    match alist_get a es with
    | Some c => Dir (alist_set a (fs_remove tail c) es)
    | None => Dir es
    end.
Proof. destruct tail; [contradiction|intros _; apply fs_remove_cons]. Qed.

Lemma fs_get_nil_dir (q : path) : q <> [] -> fs_get q (Dir []) = None.
Proof. destruct q; [contradiction|reflexivity]. Qed.

Lemma fs_get_put_diverge (dp : path) (k k' : string) (r r' : path) (v d d' : node) :
  k' <> k ->
  fs_put (dp ++ k :: r) v d = Some d' ->
  fs_get (dp ++ k' :: r') d' = fs_get (dp ++ k' :: r') d.
Proof.
  intros Hk. revert d d'. induction dp as [|a dp IH]; intros d d' Hp.
  - cbn [app] in *. destruct d as [| |es]; try discriminate.
    assert (exists c, d' = Dir (alist_set k c es)) as (c & ->).
    { destruct r as [|k2 r].
      - cbn in Hp. inversion Hp. eauto.
      - rewrite fs_put_cons in Hp.
        destruct (alist_get k es) as [c0|]; [|discriminate].
        destruct (fs_put (k2 :: r) v c0); [|discriminate]. inversion Hp. eauto. }
    cbn [fs_get]. now rewrite alist_get_set_other.
  - cbn [app] in *. destruct d as [| |es]; try discriminate.
    rewrite fs_put_step in Hp by (apply app_cons_nonempty; discriminate).
    destruct (alist_get a es) as [c|] eqn:Ha; [|discriminate].
    destruct (fs_put (dp ++ k :: r) v c) as [c'|] eqn:Hc; [|discriminate].
    inversion Hp. subst d'. cbn [fs_get]. rewrite alist_get_set_same, Ha.
    exact (IH c c' Hc).
Qed.

Lemma fs_get_mkdirp_diverge (dp : path) (k k' : string) (r r' : path) (d d' : node) :
  k' <> k ->
  fs_mkdirp (dp ++ k :: r) d = Some d' ->
  fs_get (dp ++ k' :: r') d' = fs_get (dp ++ k' :: r') d.
Proof.
  intros Hk. revert d d'. induction dp as [|a dp IH]; intros d d' Hm.
  - cbn [app] in *. destruct d as [| |es]; try discriminate.
    rewrite fs_mkdirp_cons in Hm.
    destruct (fs_mkdirp r _) as [c'|]; [|discriminate].
    inversion Hm. subst d'. cbn [fs_get]. now rewrite alist_get_set_other.
  - cbn [app] in *. destruct d as [| |es]; try discriminate.
    rewrite fs_mkdirp_cons in Hm.
    destruct (fs_mkdirp (dp ++ k :: r) _) as [c'|] eqn:Hc; [|discriminate].
    inversion Hm. subst d'. cbn [fs_get]. rewrite alist_get_set_same.
    rewrite (IH _ _ Hc).
    destruct (alist_get a es); [reflexivity|].
    apply fs_get_nil_dir, app_cons_nonempty. discriminate.
Qed.

Lemma fs_get_remove_diverge (dp : path) (k k' : string) (r r' : path) (d : node) :
  k' <> k ->
  fs_get (dp ++ k' :: r') (fs_remove (dp ++ k :: r) d) = fs_get (dp ++ k' :: r') d.
Proof.
  intros Hk. revert d. induction dp as [|a dp IH]; intros d.
  - cbn [app]. destruct d as [| |es]; try reflexivity.
    destruct r as [|k2 r].
    + cbn. now rewrite alist_get_del_other.
    + rewrite fs_remove_cons. destruct (alist_get k es); [|reflexivity].
      cbn [fs_get]. now rewrite alist_get_set_other.
  - cbn [app]. destruct d as [| |es]; try reflexivity.
    rewrite fs_remove_step by (apply app_cons_nonempty; discriminate).
    destruct (alist_get a es) as [c|] eqn:Ha; [|reflexivity].
    cbn [fs_get]. rewrite alist_get_set_same, Ha. apply IH.
Qed.

Lemma fs_get_install_diverge (dp : path) (k k' : string) (r r' : path) (v d d' : node) :
  k' <> k ->
  r <> [] ->
  fs_install (dp ++ k :: r) v d = Some d' ->
  fs_get (dp ++ k' :: r') d' = fs_get (dp ++ k' :: r') d.
Proof.
  intros Hk Hr. unfold fs_install.
  assert (Hrl : removelast (dp ++ k :: r) = dp ++ k :: removelast r).
  { rewrite removelast_app by discriminate. f_equal.
    destruct r; [contradiction|reflexivity]. }
  rewrite Hrl.
  destruct (fs_mkdirp (dp ++ k :: removelast r) d) as [d1|] eqn:Hm; [|discriminate].
  rewrite <- (fs_get_mkdirp_diverge dp k k' (removelast r) r' d d1 Hk Hm).
  destruct (fs_get (dp ++ k :: r) d1) as [old|].
  - destruct (merge v old) as [m|]; [|discriminate].
    apply fs_get_put_diverge. exact Hk.
  - apply fs_get_put_diverge. exact Hk.
Qed.


Lemma In_firstn {A} (x : A) (n : nat) (l : list A) :
  In x (firstn n l) -> In x l.
Proof.
  revert l. induction n as [|n IH]; intros [|a l]; simpl; try tauto.
  intros [H|H]; [now left|right; now apply IH].
Qed.

Lemma In_skipn {A} (x : A) (n : nat) (l : list A) :
  In x (skipn n l) -> In x l.
Proof.
  revert l. induction n as [|n IH]; intros [|a l]; simpl; try tauto.
  intros H. right. now apply IH.
Qed.

(** ** Writing the files of a tree *)

Lemma node_tree_ind (P : node -> Prop) :
  (forall s, P (File s)) ->
  (forall es, P (Zip es)) ->
  (forall es, Forall (fun kc => P (snd kc)) es -> P (Dir es)) ->
  forall n, P n.
Proof.
  intros HF HZ HD. fix IH 1. intros [s|es|es].
  - apply HF.
  - apply HZ.
  - apply HD. induction es as [|[k c] es IHes]; constructor.
    + apply IH.
    + exact IHes.
Qed.

Lemma files_of_cons (k : string) (c : node) (es : entries) :
  files_of (Dir ((k, c) :: es)) = map (under [k]) (files_of c) ++ files_of (Dir es).
Proof. reflexivity. Qed.

Lemma extracted_Dir (es : entries) :
  extracted (Dir es) =
    match extracted_entries es with
    | [] => None
    | l => Some (Dir l)
    end.
Proof.
  cbn [extracted].
  assert (H : forall l : entries,
            (fix go (l : entries) : entries :=
               match l with
               | [] => []
               | (k, c) :: l' =>
                   match extracted c with
                   | Some c' => (k, c') :: go l'
                   | None => go l'
                   end
               end) l = extracted_entries l).
  { induction l as [|[k c] l IHl]; [reflexivity|].
    cbn [extracted_entries]. now rewrite <- IHl. }
  now rewrite H.
Qed.

Lemma well_named_cons (k : string) (c : node) (es : entries) :
  well_named (Dir ((k, c) :: es)) = true ->
  ~ In k (map fst es) /\ well_named c = true /\ well_named (Dir es) = true.
Proof.
  cbn [well_named map fst distinct_names].
  rewrite !andb_true_iff, negb_true_iff.
  intros ((Hk & Hd) & Hc & Hes). split; [|split; [exact Hc|now rewrite Hd]].
  intros Hin. apply not_true_iff_false in Hk. apply Hk.
  apply existsb_exists. exists k. split; [exact Hin|apply String.eqb_refl].
Qed.

(** Every file of a directory is at a path below it. *)
Lemma files_of_Dir_nonempty (es : entries) (q : path) (f : node) :
  In (q, f) (files_of (Dir es)) -> q <> [].
Proof.
  induction es as [|[k c] es IH]; [contradiction|].
  rewrite files_of_cons, in_app_iff, in_map_iff.
  intros [([q' f'] & [= <- _] & _) | H]; [discriminate|now apply IH].
Qed.

(** A directory without files is one that extraction does not recreate. *)
Lemma extracted_none_iff (n : node) :
  extracted n = None <-> files_of n = [].
Proof.
  induction n as [s|es|es IH] using node_tree_ind;
    try (split; discriminate).
  rewrite extracted_Dir.
  assert (H : extracted_entries es = [] <-> files_of (Dir es) = []).
  { induction es as [|[k c] es IHes]; [tauto|].
    inversion IH as [|? ? Hck IH']. subst. cbn [snd] in Hck.
    specialize (IHes IH').
    rewrite files_of_cons. cbn [extracted_entries]. split.
    - destruct (extracted c) as [c'|] eqn:Hc; [discriminate|].
      intros H. rewrite (proj1 Hck eq_refl). cbn [map app]. now apply IHes.
    - intros H. apply app_eq_nil in H as (Hc & Hes).
      apply map_eq_nil in Hc. rewrite (proj2 Hck Hc). now apply IHes. }
  destruct (extracted_entries es); [tauto|].
  split; [discriminate|]. intros Hf. apply H in Hf. discriminate Hf.
Qed.

Lemma alist_set_fresh (k : string) (v : node) (l : entries) :
  alist_get k l = None -> alist_set k v l = l ++ [(k, v)].
Proof.
  induction l as [|[k' v'] l IH]; simpl; [reflexivity|].
  destruct (String.eqb k k'); [discriminate|].
  intros H. now rewrite IH.
Qed.

Lemma alist_set_set (k : string) (v v' : node) (l : entries) :
  alist_set k v' (alist_set k v l) = alist_set k v' l.
Proof.
  induction l as [|[k' c] l IH]; simpl.
  - now rewrite String.eqb_refl.
  - destruct (String.eqb k k') eqn:E; simpl.
    + now rewrite String.eqb_refl.
    + now rewrite E, IH.
Qed.

Lemma alist_get_app_fresh (k : string) (l l' : entries) :
  alist_get k l = None -> alist_get k (l ++ l') = alist_get k l'.
Proof.
  induction l as [|[k' c] l IH]; simpl; [reflexivity|].
  destruct (String.eqb k k'); [discriminate|exact IH].
Qed.

Lemma fs_write_all_app (a b : list (path * node)) (root : node) :
  fs_write_all (a ++ b) root =
    match fs_write_all a root with
    | (true, r1) => fs_write_all b r1
    | (false, r1) => (false, r1)
    end.
Proof.
  revert root. induction a as [|[q f] a IH]; intros root; [reflexivity|].
  cbn [app fs_write_all]. destruct (fs_install q f root); [apply IH|reflexivity].
Qed.

(** A write below the entry [k] of a directory is a write into that entry,
    taken as an empty directory when it does not exist yet. *)
Lemma fs_install_below (k : string) (q : path) (f : node) (st : entries) :
  q <> [] ->
  fs_install (k :: q) f (Dir st) =
    match fs_install q f
            (match alist_get k st with Some c => c | None => Dir [] end) with
    | Some c' => Some (Dir (alist_set k c' st))
    | None => None
    end.
Proof.
  intros Hq. unfold fs_install.
  assert (Hrl : removelast (k :: q) = k :: removelast q)
    by (destruct q; [contradiction|reflexivity]).
  rewrite Hrl, fs_mkdirp_cons.
  set (c0 := match alist_get k st with Some c => c | None => Dir [] end).
  destruct (fs_mkdirp (removelast q) c0) as [c1|]; [|reflexivity].
  cbn [fs_get]. rewrite alist_get_set_same.
  assert (Hput : forall v,
            fs_put (k :: q) v (Dir (alist_set k c1 st)) =
            match fs_put q v c1 with
            | Some c' => Some (Dir (alist_set k c' st))
            | None => None
            end).
  { intros v. rewrite fs_put_step by exact Hq.
    rewrite alist_get_set_same.
    destruct (fs_put q v c1); [|reflexivity]. now rewrite alist_set_set. }
  destruct (fs_get q c1) as [old|].
  - destruct (merge f old); [apply Hput|reflexivity].
  - apply Hput.
Qed.

Lemma fs_write_all_below (k : string) (ws : list (path * node)) :
  (forall q f, In (q, f) ws -> q <> []) ->
  ws <> [] ->
  forall st c',
    fs_write_all ws (match alist_get k st with Some c => c | None => Dir [] end)
      = (true, c') ->
    fs_write_all (map (under [k]) ws) (Dir st) = (true, Dir (alist_set k c' st)).
Proof.
  induction ws as [|[q f] ws IH]; intros Hq Hne st c'; [now contradiction Hne|].
  cbn [map under fst snd app fs_write_all].
  rewrite (fs_install_below k q f st (Hq q f (or_introl eq_refl))).
  destruct (fs_install q f _) as [c1|]; [|discriminate].
  destruct ws as [|w ws'].
  - cbn [fs_write_all map]. now intros [= ->].
  - intros H.
    rewrite (IH (fun q0 f0 Hin => Hq q0 f0 (or_intror Hin)) ltac:(discriminate)
               (alist_set k c1 st) c').
    + now rewrite alist_set_set.
    + now rewrite alist_get_set_same.
Qed.

(** Writing the files of a directory tree into a directory that has none of
    its names adds to it what extraction recreates of the tree. *)
Lemma fs_write_all_files (n : node) :
  well_named n = true ->
  forall es, n = Dir es ->
  forall acc,
    (forall k, In k (map fst es) -> alist_get k acc = None) ->
    fs_write_all (files_of n) (Dir acc) = (true, Dir (acc ++ extracted_entries es)).
Proof.
  induction n as [s|zs|cs IH] using node_tree_ind; try discriminate.
  intros Hwf es [= <-].
  induction cs as [|[k c] cs IHcs]; intros acc Hfresh.
  - cbn. now rewrite app_nil_r.
  - apply well_named_cons in Hwf as (Hk & Hc & Hcs).
    inversion IH as [|? ? IHc IH']. subst. cbn [snd] in IHc.
    rewrite files_of_cons, fs_write_all_app.
    assert (Hkacc : alist_get k acc = None)
      by (apply Hfresh; now left).
    assert (Hstep : fs_write_all (map (under [k]) (files_of c)) (Dir acc) =
                    (true, Dir (acc ++ match extracted c with
                                       | Some c' => [(k, c')]
                                       | None => []
                                       end))).
    { destruct c as [s|zs|ds].
      - cbn. rewrite Hkacc. cbn. now rewrite (alist_set_fresh k _ acc Hkacc).
      - cbn. rewrite Hkacc. cbn. now rewrite (alist_set_fresh k _ acc Hkacc).
      - destruct (extracted (Dir ds)) as [c'|] eqn:Hx.
        + assert (Hne : files_of (Dir ds) <> []).
          { intros Hf. apply extracted_none_iff in Hf. congruence. }
          rewrite (fs_write_all_below k (files_of (Dir ds))
                     (files_of_Dir_nonempty ds) Hne acc
                     (Dir (extracted_entries ds))).
          * rewrite (alist_set_fresh k _ acc Hkacc).
            rewrite extracted_Dir in Hx.
            destruct (extracted_entries ds); [discriminate|].
            now inversion Hx.
          * rewrite Hkacc.
            exact (IHc Hc ds eq_refl [] (fun _ _ => eq_refl)).
        + rewrite (proj1 (extracted_none_iff (Dir ds)) Hx). cbn.
          now rewrite app_nil_r. }
    rewrite Hstep.
    rewrite (IHcs IH' Hcs).
    + cbn [extracted_entries]. destruct (extracted c) as [c'|].
      * now rewrite <- app_assoc.
      * now rewrite app_nil_r.
    + intros k' Hk'. rewrite alist_get_app_fresh.
      * destruct (extracted c) as [c'|]; [|reflexivity].
        cbn [alist_get]. destruct (String.eqb_spec k' k) as [->|]; [|reflexivity].
        contradiction.
      * apply Hfresh. now right.
Qed.

(** Writes below a directory act on that directory. *)
Lemma fs_write_all_focus (ws : list (path * node)) (dp : path) (d D D' : node) :
  (forall q f, In (q, f) ws -> q <> []) ->
  fs_get dp d = Some D ->
  fs_write_all ws D = (true, D') ->
  exists d', fs_write_all (map (under dp) ws) d = (true, d') /\ fs_get dp d' = Some D'.
Proof.
  revert d D. induction ws as [|[q f] ws IH]; intros d D Hq Hg Hu.
  - simpl in *. inversion Hu. subst D'. now exists d.
  - cbn [map under fst snd fs_write_all] in Hu |- *.
    destruct (fs_install q f D) as [D1|] eqn:Hi; [|discriminate].
    destruct (fs_install_focus dp q f d D D1 (Hq q f (or_introl eq_refl)) Hg Hi)
      as (d1 & Hi1 & Hg1).
    rewrite Hi1.
    exact (IH d1 D1 (fun q0 f0 Hin => Hq q0 f0 (or_intror Hin)) Hg1 Hu).
Qed.

(** Writes below one entry of a directory leave what is below another
    entry as it is, however far they get. *)
Lemma fs_write_all_diverge (dp : path) (k k' : string) (r' : path)
    (ws : list (path * node)) (d : node) :
  k' <> k ->
  (forall q f, In (q, f) ws -> q <> []) ->
  fs_get (dp ++ k' :: r')
    (snd (fs_write_all (map (under (dp ++ [k])) ws) d)) =
  fs_get (dp ++ k' :: r') d.
Proof.
  intros Hk. revert d. induction ws as [|[q f] ws IH]; intros d Hq; [reflexivity|].
  cbn [map under fst snd fs_write_all].
  destruct (fs_install ((dp ++ [k]) ++ q) f d) as [d1|] eqn:Hi; [|reflexivity].
  rewrite (IH d1 (fun q0 f0 Hin => Hq q0 f0 (or_intror Hin))).
  rewrite <- app_assoc in Hi. cbn [app] in Hi.
  exact (fs_get_install_diverge dp k k' q r' f d d1 Hk
           (Hq q f (or_introl eq_refl)) Hi).
Qed.

(** Writes into the entry [sn] of a directory, seen from the directory. *)
Lemma fs_write_all_entry (sn : string) (ws : list (path * node)) (E : entries)
    (c' : node) :
  (forall q f, In (q, f) ws -> q <> []) ->
  fs_write_all ws (match alist_get sn E with Some c => c | None => Dir [] end)
    = (true, c') ->
  exists E',
    fs_write_all (map (under [sn]) ws) (Dir E) = (true, Dir E') /\
    alist_get sn E' = match ws with [] => alist_get sn E | _ => Some c' end /\
    forall x, x <> sn -> alist_get x E' = alist_get x E.
Proof.
  intros Hq Hw. destruct ws as [|w ws].
  - exists E. auto.
  - exists (alist_set sn c' E).
    split; [apply fs_write_all_below; [exact Hq|discriminate|exact Hw]|].
    split; [apply alist_get_set_same|].
    intros x Hx. now apply alist_get_set_other.
Qed.

Lemma fs_write_all_split (a b : list (path * node)) (root r' : node) :
  fs_write_all (a ++ b) root = (true, r') ->
  exists r1, fs_write_all a root = (true, r1) /\ fs_write_all b r1 = (true, r').
Proof.
  rewrite fs_write_all_app.
  destruct (fs_write_all a root) as [[|] r1]; [|discriminate].
  intros H. now exists r1.
Qed.

Lemma under_under (p q : path) (ws : list (path * node)) :
  map (under p) (map (under q) ws) = map (under (p ++ q)) ws.
Proof.
  rewrite map_map. apply map_ext. intros [r f]. unfold under. cbn [fst snd].
  now rewrite app_assoc.
Qed.

Lemma under_nonempty (k : string) (ws : list (path * node)) (q : path) (f : node) :
  In (q, f) (map (under [k]) ws) -> q <> [].
Proof.
  rewrite in_map_iff. intros ([q' f'] & [= <- _] & _). discriminate.
Qed.

(** Every node of a well-named tree is well named. *)
Lemma well_named_entry (k : string) (c : node) (es : entries) :
  well_named (Dir es) = true -> alist_get k es = Some c -> well_named c = true.
Proof.
  induction es as [|[k' c'] es IH]; [discriminate|].
  intros Hwf. apply well_named_cons in Hwf as (_ & Hc & Hes).
  cbn [alist_get]. destruct (String.eqb k k'); [now intros [= <-]|now apply IH].
Qed.

Lemma well_named_get (p : path) (d n : node) :
  well_named d = true -> fs_get p d = Some n -> well_named n = true.
Proof.
  revert d. induction p as [|k p IH]; intros d Hwf; [now intros [= <-]|].
  cbn [fs_get]. destruct d as [| |es]; try discriminate.
  destruct (alist_get k es) as [c|] eqn:Hk; [|discriminate].
  apply IH. exact (well_named_entry k c es Hwf Hk).
Qed.

Lemma extracted_some (es : entries) :
  files_of (Dir es) <> [] ->
  extracted (Dir es) = Some (Dir (extracted_entries es)).
Proof.
  intros Hne. rewrite extracted_Dir.
  destruct (extracted_entries es) eqn:Hx; [|reflexivity].
  exfalso. apply Hne. apply extracted_none_iff.
  now rewrite extracted_Dir, Hx.
Qed.

Lemma option_node_eta (o : option node) :
  match o with Some c => Some c | None => None end = o.
Proof. now destruct o. Qed.
(** ** What a computation may touch *)

Lemma grows_refl P w : grows P w w.
Proof.
  repeat split. exists []. now rewrite app_nil_r.
Qed.

Lemma grows_trans P w1 w2 w3 :
  grows P w1 w2 -> grows P w2 w3 -> grows P w1 w3.
Proof.
  intros (Ht & Hn & Hp & e1 & He1 & Hf1) (Ht' & Hn' & Hp' & e2 & He2 & Hf2).
  repeat split; try congruence.
  exists (e1 ++ e2). rewrite He2, He1, app_assoc, forallb_app, Hf1, Hf2. now split.
Qed.

Lemma grows_weaken (P Q : event -> bool) w w' :
  (forall e, P e = true -> Q e = true) -> grows P w w' -> grows Q w w'.
Proof.
  intros HPQ (Ht & Hn & Hp & evs & He & Hf). repeat split; trivial.
  exists evs. split; [exact He|].
  rewrite forallb_forall in *. auto.
Qed.

Lemma grows_log P e w : P e = true -> grows P w (add_trace e w).
Proof.
  intros He. repeat split. exists [e]. simpl. now rewrite He.
Qed.

Section Confined.

Variable faults : event -> nat.
Variable P : event -> bool.

Lemma confined_ret {A} (a : A) : confined P (ret a).
Proof. intros w. apply grows_refl. Qed.

Lemma confined_throw {A} (e : error) : confined P (@throw A e).
Proof. intros w. apply grows_refl. Qed.

Lemma confined_need {A} (x : option A) : confined P (need x).
Proof. destruct x; intros w; apply grows_refl. Qed.

Lemma confined_log (e : event) : P e = true -> confined P (log e).
Proof. intros He w. now apply grows_log. Qed.

Lemma confined_bind {A B} (m : M A) (k : A -> M B) :
  confined P m -> (forall a, confined P (k a)) -> confined P (bind m k).
Proof.
  intros Hm Hk w. unfold bind. specialize (Hm w).
  destruct (m w) as [[a|e|] w1]; simpl in *; [|exact Hm|exact Hm].
  eapply grows_trans; [exact Hm|apply Hk].
Qed.

Lemma confined_try_catch {A} (body handler : M A) :
  confined P body -> confined P handler -> confined P (try_catch body handler).
Proof.
  intros Hb Hh w. unfold try_catch. specialize (Hb w).
  destruct (body w) as [[a|e|] w1]; simpl in *; [exact Hb| |exact Hb].
  eapply grows_trans; [exact Hb|apply Hh].
Qed.

Lemma confined_try_finally {A} (body : M A) (cleanup : M unit) :
  confined P body -> confined P cleanup -> confined P (try_finally body cleanup).
Proof.
  intros Hb Hc w. unfold try_finally. specialize (Hb w).
  destruct (body w) as [r w1]. specialize (Hc w1).
  destruct r as [a|e|]; [| |exact Hb];
    destruct (cleanup w1) as [[u|e'|] w2]; simpl in *;
    eapply grows_trans; eassumption.
Qed.

Lemma confined_absorb (m : M unit) : confined P m -> confined P (absorb m).
Proof. intros Hm. apply confined_try_catch; [exact Hm|apply confined_ret]. Qed.

Lemma confined_allSettled (ms : list (M unit)) :
  Forall (confined P) ms -> confined P (allSettled ms).
Proof.
  induction 1 as [|m ms Hm _ IH]; simpl; [apply confined_ret|].
  apply confined_bind; [now apply confined_absorb|intros _; exact IH].
Qed.

Lemma confined_for_of {A} (l : list A) (body : A -> M unit) :
  (forall a, confined P (body a)) -> confined P (for_of l body).
Proof.
  intros Hb. induction l as [|a l IH]; simpl; [apply confined_ret|].
  apply confined_bind; [apply Hb|intros _; exact IH].
Qed.

Lemma confined_if {A} (b : bool) (m1 m2 : M A) :
  confined P m1 -> confined P m2 -> confined P (if b then m1 else m2).
Proof. now destruct b. Qed.

(** A step that only rewrites the disk or the store. *)
Lemma confined_quiet {A} (f : World -> outcome A * World) :
  (forall w, trace (snd (f w)) = trace w /\
             timers (snd (f w)) = timers w /\
             next_timer (snd (f w)) = next_timer w /\
             puppeteer_userDataDir (snd (f w)) = puppeteer_userDataDir w) ->
  confined P f.
Proof.
  intros H w. destruct (H w) as (Ht & Hti & Hn & Hp).
  repeat split; trivial. exists []. now rewrite app_nil_r.
Qed.

Ltac quiet :=
  apply confined_quiet; intros w; cbv zeta;
  repeat match goal with
         | |- context [match ?x with _ => _ end] => destruct x
         end; simpl; auto.

Ltac logged :=
  apply confined_bind; [now apply confined_log|intros _].

Lemma confined_fs_access p : confined P (fs_access p).
Proof.
  apply confined_bind; [apply confined_need|intros a]. quiet.
Qed.

Lemma confined_isValidPath p : confined P (isValidPath p).
Proof.
  apply confined_try_catch; [|apply confined_ret].
  apply confined_bind; [apply confined_fs_access|intros _; apply confined_ret].
Qed.

Lemma confined_fs_rm p r :
  (forall t, P (FsRm t r) = true) -> confined P (fs_rm faults p r).
Proof.
  intros HP. apply confined_bind; [apply confined_need|intros a].
  logged. apply confined_if; [apply confined_throw|quiet].
Qed.

Lemma confined_fs_unlink p :
  P (FsUnlink p) = true -> confined P (fs_unlink faults p).
Proof.
  intros HP. logged. apply confined_if; [apply confined_throw|quiet].
Qed.

Lemma confined_fs_mkdir p :
  (forall t, P (FsMkdir t) = true) -> confined P (fs_mkdir faults p).
Proof.
  intros HP. apply confined_bind; [apply confined_need|intros a].
  logged. apply confined_if; [apply confined_throw|quiet].
Qed.

Lemma confined_fs_cp src dest :
  P (FsCp src dest) = true -> confined P (fs_cp faults src dest).
Proof.
  intros HP. logged. apply confined_if; [apply confined_throw|quiet].
Qed.

Lemma confined_fs_createWriteStream p :
  P (FsCreateWriteStream p) = true -> confined P (fs_createWriteStream faults p).
Proof.
  intros HP. logged. apply confined_if; [apply confined_ret|quiet].
Qed.

Lemma confined_archive_directory src stream dest :
  P (ArchiveDirectory src dest) = true ->
  confined P (archive_directory faults src stream dest).
Proof.
  intros HP. logged. apply confined_if; [quiet|].
  apply confined_if; [apply confined_throw|quiet].
Qed.

Lemma confined_unzip_extract src dest :
  (forall t, P (UnzipExtract src t) = true) ->
  confined P (unzip_extract faults src dest).
Proof.
  intros HP. apply confined_bind; [apply confined_need|intros a].
  logged. quiet.
Qed.

Lemma confined_store_sessionExists s :
  P (StoreSessionExists s) = true -> confined P (store_sessionExists faults s).
Proof.
  intros HP. logged. apply confined_if; [apply confined_throw|quiet].
Qed.

Lemma confined_store_save st s :
  P (StoreSave s) = true -> confined P (store_save faults st s).
Proof.
  intros HP. logged. apply confined_if; [apply confined_throw|quiet].
Qed.

Lemma confined_store_extract s dest :
  P (StoreExtract s dest) = true -> confined P (store_extract faults s dest).
Proof.
  intros HP. logged. apply confined_if; [apply confined_throw|quiet].
Qed.

End Confined.

(** ** Promises that settle

    Everything settles except the promise that [compressSession] builds on
    a stream that was not opened, and what waits for it. *)

Create HintDb settles.

Section Settling.

Variable faults : event -> nat.

Lemma settles_ret {A} (a : A) : settles (ret a).
Proof. intros w. discriminate. Qed.

Lemma settles_throw {A} (e : error) : settles (@throw A e).
Proof. intros w. discriminate. Qed.

Lemma settles_need {A} (x : option A) : settles (need x).
Proof. destruct x; intros w; discriminate. Qed.

Lemma settles_log (e : event) : settles (log e).
Proof. intros w. discriminate. Qed.

Lemma settles_bind {A B} (m : M A) (k : A -> M B) :
  settles m -> (forall a, settles (k a)) -> settles (bind m k).
Proof.
  intros Hm Hk w. unfold bind. specialize (Hm w).
  destruct (m w) as [[a|e|] w1]; cbn [fst] in *;
    [apply Hk|discriminate|contradiction].
Qed.

Lemma settles_try_catch {A} (body handler : M A) :
  settles body -> settles handler -> settles (try_catch body handler).
Proof.
  intros Hb Hh w. unfold try_catch. specialize (Hb w).
  destruct (body w) as [[a|e|] w1]; cbn [fst] in *;
    [discriminate|apply Hh|contradiction].
Qed.

Lemma settles_absorb (m : M unit) : settles m -> settles (absorb m).
Proof. intros Hm. apply settles_try_catch; [exact Hm|apply settles_ret]. Qed.

Lemma settles_if {A} (b : bool) (m1 m2 : M A) :
  settles m1 -> settles m2 -> settles (if b then m1 else m2).
Proof. now destruct b. Qed.

Lemma settles_for_of {A} (l : list A) (body : A -> M unit) :
  (forall a, settles (body a)) -> settles (for_of l body).
Proof.
  intros Hb. induction l as [|a l IH]; simpl; [apply settles_ret|].
  apply settles_bind; [apply Hb|intros _; exact IH].
Qed.

Lemma settles_try_finally {A} (body : M A) (cleanup : M unit) :
  settles body -> settles cleanup -> settles (try_finally body cleanup).
Proof.
  intros Hb Hc w. unfold try_finally. specialize (Hb w).
  destruct (body w) as [[a|e|] w1]; cbn [fst] in Hb; [| |contradiction];
    specialize (Hc w1); destruct (cleanup w1) as [[u|e'|] w2];
    cbn [fst] in *; try discriminate; contradiction.
Qed.

(** A step that never yields [Pending]. *)
Ltac settled :=
  intros w; cbv zeta;
  repeat match goal with
         | |- context [match ?x with _ => _ end] => destruct x
         end; discriminate.

Ltac settled_log :=
  apply settles_bind; [apply settles_log|intros _].

Lemma settles_fs_access p : settles (fs_access p).
Proof. apply settles_bind; [apply settles_need|intros a]. settled. Qed.

Lemma settles_isValidPath p : settles (isValidPath p).
Proof.
  apply settles_try_catch; [|apply settles_ret].
  apply settles_bind; [apply settles_fs_access|intros _; apply settles_ret].
Qed.

Lemma settles_fs_rm p r : settles (fs_rm faults p r).
Proof.
  apply settles_bind; [apply settles_need|intros a].
  settled_log. apply settles_if; [apply settles_throw|settled].
Qed.

Lemma settles_fs_unlink p : settles (fs_unlink faults p).
Proof. settled_log. apply settles_if; [apply settles_throw|settled]. Qed.

Lemma settles_fs_mkdir p : settles (fs_mkdir faults p).
Proof.
  apply settles_bind; [apply settles_need|intros a].
  settled_log. apply settles_if; [apply settles_throw|settled].
Qed.

Lemma settles_fs_cp src dest : settles (fs_cp faults src dest).
Proof. settled_log. apply settles_if; [apply settles_throw|settled]. Qed.

Lemma settles_fs_createWriteStream p : settles (fs_createWriteStream faults p).
Proof. settled_log. apply settles_if; [apply settles_ret|settled]. Qed.

Lemma settles_unzip_extract src dest : settles (unzip_extract faults src dest).
Proof.
  apply settles_bind; [apply settles_need|intros a]. settled_log. settled.
Qed.

Lemma settles_store_sessionExists s : settles (store_sessionExists faults s).
Proof. settled_log. apply settles_if; [apply settles_throw|settled]. Qed.

Lemma settles_store_save st s : settles (store_save faults st s).
Proof. settled_log. apply settles_if; [apply settles_throw|settled]. Qed.

Lemma settles_store_extract s dest : settles (store_extract faults s dest).
Proof. settled_log. apply settles_if; [apply settles_throw|settled]. Qed.

Lemma settles_store_delete s : settles (store_delete faults s).
Proof. settled_log. apply settles_if; [apply settles_throw|settled]. Qed.

Lemma settles_copyByRequiredDirs self : settles (copyByRequiredDirs faults self).
Proof.
  apply settles_bind; [apply settles_fs_mkdir|intros _].
  apply settles_for_of. intros dir. unfold copy_required.
  apply settles_bind; [apply settles_need|intros base].
  apply settles_bind; [apply settles_isValidPath|intros b].
  apply settles_if; [apply settles_fs_cp|apply settles_ret].
Qed.

Lemma settles_save_and_notify self options :
  settles (save_and_notify faults self options).
Proof.
  apply settles_bind; [apply settles_need|intros session].
  apply settles_bind; [apply settles_store_save|intros _].
  apply settles_if; [apply settles_log|apply settles_ret].
Qed.

Lemma settles_finally_cleanup self zp : settles (finally_cleanup faults self zp).
Proof.
  unfold finally_cleanup, allSettled.
  apply settles_bind.
  - apply settles_absorb. destruct zp; [|apply settles_ret].
    apply settles_absorb, settles_fs_unlink.
  - intros _. apply settles_bind; [|intros _; apply settles_ret].
    do 2 apply settles_absorb. apply settles_fs_rm.
Qed.

Lemma settles_unCompressSession self zp :
  settles (unCompressSession faults self zp).
Proof.
  apply settles_bind; [apply settles_unzip_extract|intros _].
  apply settles_fs_unlink.
Qed.

Lemma settles_extractRemoteSession self :
  settles (extractRemoteSession faults self).
Proof.
  apply settles_bind; [apply settles_isValidPath|intros b].
  apply settles_bind; [apply settles_store_sessionExists|intros b'].
  apply settles_bind.
  - apply settles_if; [|apply settles_ret].
    apply settles_absorb, settles_fs_rm.
  - intros _. apply settles_if.
    + apply settles_bind; [apply settles_store_extract|intros _].
      apply settles_unCompressSession.
    + apply settles_fs_mkdir.
Qed.

Lemma try_finally_world {A} (body : M A) (cleanup : M unit) (w : World) :
  fst (body w) <> Pending ->
  snd (try_finally body cleanup w) = snd (cleanup (snd (body w))).
Proof.
  unfold try_finally. destruct (body w) as [[a|e|] w1]; cbn [fst snd];
    intros H; [| |contradiction];
    now destruct (cleanup w1) as [[u|e'|] w2].
Qed.

Lemma absorb_run (m : M unit) (w : World) :
  settles m ->
  absorb m w = (Ok tt, snd (m w)).
Proof.
  intros Hm. specialize (Hm w).
  unfold absorb, try_catch, ret.
  destruct (m w) as [[[]|e|] w']; [reflexivity|reflexivity|].
  now contradiction Hm.
Qed.

End Settling.

#[export] Hint Resolve settles_ret settles_throw settles_need settles_log
  settles_absorb settles_fs_rm settles_fs_unlink settles_fs_mkdir settles_fs_cp
  settles_isValidPath settles_store_save settles_store_sessionExists
  settles_store_extract settles_store_delete settles_unzip_extract
  settles_save_and_notify settles_finally_cleanup settles_unCompressSession
  settles_extractRemoteSession settles_copyByRequiredDirs : settles.

(** ** What the methods may touch *)

Section MethodFrames.

Variable faults : event -> nat.

Lemma confined_copyByRequiredDirs self :
  confined is_packing (copyByRequiredDirs faults self).
Proof.
  apply confined_bind; [now apply confined_fs_mkdir|intros _].
  apply confined_for_of. intros dir. unfold copy_required.
  apply confined_bind; [apply confined_need|intros base].
  apply confined_bind; [apply confined_isValidPath|intros b].
  apply confined_if; [now apply confined_fs_cp|apply confined_ret].
Qed.

Lemma confined_compressSession self :
  confined is_packing (compressSession faults self).
Proof.
  apply confined_bind; [now apply confined_fs_createWriteStream|intros stream].
  apply confined_bind; [apply confined_copyByRequiredDirs|intros _].
  now apply confined_archive_directory.
Qed.

Lemma confined_finally_cleanup self zp :
  confined is_cleanup (finally_cleanup faults self zp).
Proof.
  apply confined_allSettled.
  apply Forall_cons; [|apply Forall_cons; [|apply Forall_nil]].
  - destruct zp; [|apply confined_ret].
    apply confined_absorb. now apply confined_fs_unlink.
  - apply confined_absorb. now apply confined_fs_rm.
Qed.

Lemma is_packing_cycle e : is_packing e = true -> is_cycle e = true.
Proof. unfold is_cycle. now intros ->. Qed.

Lemma is_cleanup_cycle e : is_cleanup e = true -> is_cycle e = true.
Proof. unfold is_cycle. intros ->. now rewrite orb_true_r. Qed.

Lemma confined_weaken {A} (P Q : event -> bool) (m : M A) :
  (forall e, P e = true -> Q e = true) -> confined P m -> confined Q m.
Proof. intros HPQ Hm w. eapply grows_weaken; [exact HPQ|apply Hm]. Qed.

Lemma confined_save_and_notify self options :
  confined is_cycle (save_and_notify faults self options).
Proof.
  apply confined_bind; [apply confined_need|intros session].
  apply confined_bind; [now apply confined_store_save|intros _].
  apply confined_if; [now apply confined_log|apply confined_ret].
Qed.

Lemma confined_storeRemoteSession self options :
  confined is_cycle (storeRemoteSession faults self options).
Proof.
  apply confined_bind; [apply confined_isValidPath|intros b].
  apply confined_if; [apply confined_ret|].
  intros w.
  pose proof (confined_compressSession self w) as Hc.
  destruct (compressSession faults self w) as [[zp|e|] w1]; simpl in Hc.
  - eapply grows_trans; [eapply grows_weaken; [apply is_packing_cycle|exact Hc]|].
    apply confined_try_finally.
    + apply confined_save_and_notify.
    + eapply confined_weaken; [apply is_cleanup_cycle|apply confined_finally_cleanup].
  - eapply grows_trans; [eapply grows_weaken; [apply is_packing_cycle|exact Hc]|].
    apply confined_try_finally; [apply confined_throw|].
    eapply confined_weaken; [apply is_cleanup_cycle|apply confined_finally_cleanup].
  - eapply grows_weaken; [apply is_packing_cycle|exact Hc].
Qed.

Lemma confined_unCompressSession self zp :
  confined is_recovery (unCompressSession faults self zp).
Proof.
  apply confined_bind; [now apply confined_unzip_extract|intros _].
  now apply confined_fs_unlink.
Qed.

Lemma confined_extractRemoteSession self :
  confined is_recovery (extractRemoteSession faults self).
Proof.
  apply confined_bind; [apply confined_isValidPath|intros b].
  apply confined_bind; [now apply confined_store_sessionExists|intros b'].
  apply confined_bind.
  - apply confined_if; [|apply confined_ret].
    apply confined_absorb. now apply confined_fs_rm.
  - intros _. apply confined_if.
    + apply confined_bind; [now apply confined_store_extract|intros _].
      apply confined_unCompressSession.
    + now apply confined_fs_mkdir.
Qed.

End MethodFrames.

(** ** Construction *)

Example bot1_constructed :
  constructor (require_optional all_installed) ["home"] bot1_options = Ok bot1.
Proof. reflexivity. Qed.

Lemma id_class_allowed (c : ascii) : id_class c = allowed_char c.
Proof.
  unfold id_class, allowed_char, word_char.
  destruct (is_letter c), (is_digit c), (Ascii.eqb c "_"), (Ascii.eqb c "-");
    reflexivity.
Qed.

Lemma all_chars_ext (f g : ascii -> bool) (s : string) :
  (forall c, f c = g c) -> all_chars f s = all_chars g s.
Proof.
  intros H. induction s as [|c s IH]; simpl; [reflexivity|].
  now rewrite H, IH.
Qed.

(** The identifier check of the constructor rejects exactly the strings
    that contain a character outside the set: the empty string is falsy and
    skips the test. *)
Lemma clientId_check (s : string) :
  truthy (Some s) && negb (idRegex_test (js_str (Some s))) =
  negb (all_chars allowed_char s).
Proof.
  rewrite <- (all_chars_ext id_class allowed_char s id_class_allowed).
  destruct s as [|c s]; reflexivity.
Qed.

Lemma require_optional_all (installed : string -> bool) :
  installed "fs-extra" = true ->
  installed "unzipper" = true ->
  installed "archiver" = true ->
  require_optional installed = mkDeps true true true.
Proof. unfold require_optional. now intros -> -> ->. Qed.

(** C5. With the optional dependencies installed, a store and an interval
    of at least 60000 ms, the constructor accepts every identifier string
    made only of letters, digits, underscores and hyphens, and it rejects
    every other identifier string with the invalid-clientId error, whatever
    the remaining options are. *)
Theorem constructor_clientId_charset :
  forall installed cwd o id,
    installed "fs-extra" = true ->
    installed "unzipper" = true ->
    installed "archiver" = true ->
    opt_clientId o = Some id ->
    (all_chars allowed_char id = true ->
     forall st ms,
       opt_store o = Some st ->
       opt_backupSyncIntervalMs o = Some ms ->
       (60000 <= ms)%Z ->
       exists self,
         constructor (require_optional installed) cwd o = Ok self /\
         clientId self = Some id) /\
    (all_chars allowed_char id = false ->
     constructor (require_optional installed) cwd o = Throw InvalidClientId).
Proof.
  intros installed cwd o id H1 H2 H3 Hid.
  rewrite (require_optional_all installed H1 H2 H3).
  unfold constructor. simpl. rewrite Hid.
  rewrite clientId_check. split.
  - intros Hok st ms Hst Hms Hle. rewrite Hok, Hms, Hst. simpl.
    destruct (Z.eqb_spec ms 0) as [->|_]; [lia|].
    destruct (Z.ltb_spec ms 60000) as [Hlt|_]; [lia|].
    simpl. eexists. split; reflexivity.
  - intros Hbad. now rewrite Hbad.
Qed.

Lemma constructor_clientId_charset_witness :
  (exists self,
     constructor (require_optional all_installed) ["home"] bot1_options = Ok self /\
     clientId self = Some "bot1") /\
  constructor (require_optional all_installed) ["home"]
    (mkOptions (Some "bot 1") None None None None) = Throw InvalidClientId.
Proof.
  split.
  - apply (proj1 (constructor_clientId_charset all_installed ["home"] bot1_options
                    "bot1" eq_refl eq_refl eq_refl eq_refl) eq_refl
             RemoteStore 60000%Z eq_refl eq_refl).
    lia.
  - apply (proj2 (constructor_clientId_charset all_installed ["home"]
                    (mkOptions (Some "bot 1") None None None None)
                    "bot 1" eq_refl eq_refl eq_refl eq_refl) eq_refl).
Defined.

(** C6. When any of the three optional modules is not installed, the
    constructor throws the missing-dependencies error for every set of
    options: the failure is raised at construction, before any other check
    and before any method can be called. *)
Theorem constructor_requires_dependencies :
  forall installed cwd o,
    installed "fs-extra" = false \/
    installed "unzipper" = false \/
    installed "archiver" = false ->
    constructor (require_optional installed) cwd o = Throw MissingDependencies.
Proof.
  intros installed cwd o H. unfold require_optional.
  destruct (installed "fs-extra"), (installed "unzipper"), (installed "archiver");
    try reflexivity.
  destruct H as [H|[H|H]]; discriminate.
Qed.

Lemma constructor_requires_dependencies_witness :
  constructor (require_optional without_unzipper) ["home"] bot1_options =
  Throw MissingDependencies.
Proof.
  apply (constructor_requires_dependencies without_unzipper ["home"] bot1_options).
  right; left; reflexivity.
Defined.

(** ** A backup cycle without a session directory *)

Lemma isValidPath_false (p : option path) (w : World) :
  (forall q, p = Some q -> fs_get q (disk w) = None) ->
  isValidPath p w = (Ok false, w).
Proof.
  intros H. unfold isValidPath, try_catch, fs_access, bind, need.
  destruct p as [q|]; simpl; [|reflexivity].
  now rewrite (H q eq_refl).
Qed.

Lemma isValidPath_true (p : path) (n : node) (w : World) :
  fs_get p (disk w) = Some n ->
  isValidPath (Some p) w = (Ok true, w).
Proof.
  intros H. unfold isValidPath, try_catch, fs_access, bind, need. simpl.
  now rewrite H.
Qed.

(** C10. A backup cycle started while the local session directory does not
    exist returns at once and leaves the world as it was: the disk (so no
    archive and no staging directory), the store and the log of calls (so no
    save) are unchanged. *)
Theorem storeRemoteSession_without_session_dir :
  forall faults self options w,
    (forall p, userDataDir self = Some p -> fs_get p (disk w) = None) ->
    storeRemoteSession faults self options w = (Ok tt, w).
Proof.
  intros faults self options w H.
  unfold storeRemoteSession, bind.
  now rewrite (isValidPath_false _ _ H).
Qed.

Lemma storeRemoteSession_without_session_dir_witness :
  storeRemoteSession no_faults bot1_ready None bare_world =
  (Ok tt, world_of bare_disk []).
Proof.
  apply (storeRemoteSession_without_session_dir no_faults bot1_ready None
           bare_world).
  intros p [= <-]. reflexivity.
Defined.

(** ** One backup cycle *)

Section Cycle.

Variable faults : event -> nat.

Lemma fs_unlink_trace p w :
  trace (snd (fs_unlink faults p w)) = trace w ++ [FsUnlink p].
Proof.
  unfold fs_unlink, bind, log, throw. simpl.
  destruct (fails faults (FsUnlink p)); [reflexivity|]. simpl.
  destruct (fs_get p (disk w)) as [[| |]|]; reflexivity.
Qed.

Lemma fs_rm_trace p r w :
  trace (snd (fs_rm faults (Some p) r w)) = trace w ++ [FsRm p r].
Proof.
  unfold fs_rm, bind, log, throw, need, ret. simpl.
  destruct (Nat.ltb r (faults (FsRm p r))); reflexivity.
Qed.

Lemma finally_cleanup_some self zp w :
  exists w',
    finally_cleanup faults self (Some zp) w = (Ok tt, w') /\
    trace w' =
      trace w ++ [FsUnlink zp; FsRm (tempDir self) (rmMaxRetries self)].
Proof.
  unfold finally_cleanup, allSettled, bind.
  rewrite !absorb_run by auto with settles. cbn [snd]. unfold ret.
  eexists. split; [reflexivity|].
  now rewrite fs_rm_trace, fs_unlink_trace, <- app_assoc.
Qed.

Lemma finally_cleanup_none self w :
  exists w',
    finally_cleanup faults self None w = (Ok tt, w') /\
    trace w' = trace w ++ [FsRm (tempDir self) (rmMaxRetries self)].
Proof.
  unfold finally_cleanup, allSettled, bind.
  rewrite !absorb_run by auto with settles. cbn [snd]. unfold ret.
  eexists. split; [reflexivity|].
  now rewrite fs_rm_trace.
Qed.

Lemma store_save_run st s w :
  exists r w',
    store_save faults st s w = (r, w') /\
    trace w' = trace w ++ [StoreSave s] /\
    disk w' = disk w /\
    (r = Ok tt \/ r = Throw (StoreFailure (StoreSave s))).
Proof.
  unfold store_save, bind, log, throw. cbv beta iota zeta.
  destruct (fails faults (StoreSave s)).
  - do 2 eexists. split; [reflexivity|]. simpl. auto.
  - cbn [disk add_trace].
    destruct (fs_get _ (disk w)) as [[| |]|];
      do 2 eexists; (split; [reflexivity|]); simpl; auto.
Qed.

(** The events of the [try] block after compression. *)
Lemma save_and_notify_run self options name w :
  sessionName self = Some name ->
  exists r w',
    save_and_notify faults self options w = (r, w') /\
    (r = Ok tt \/ r = Throw (StoreFailure (StoreSave (path_join (dataPath self) name)))) /\
    disk w' = disk w /\
    trace w' =
      trace w ++ StoreSave (path_join (dataPath self) name) ::
      (if match r with Ok _ => match options with Some o => emit o | None => false end
                  | _ => false end
       then [Emit REMOTE_SESSION_SAVED] else []).
Proof.
  intros Hn. unfold save_and_notify, bind, need. rewrite Hn.
  destruct (store_save_run (store self) (path_join (dataPath self) name) w)
    as (r & w1 & Hs & Ht & Hd & [->| ->]); unfold ret at 1; rewrite Hs.
  - destruct (match options with Some o => emit o | None => false end);
      do 2 eexists; (split; [reflexivity|]); simpl;
      rewrite ?Ht, <- ?app_assoc; auto.
  - do 2 eexists. split; [reflexivity|]. auto.
Qed.

Lemma storeRemoteSession_after_compress self options w p n zp w1 :
  userDataDir self = Some p ->
  fs_get p (disk w) = Some n ->
  compressSession faults self w = (Ok zp, w1) ->
  exists w',
    storeRemoteSession faults self options w =
      (fst (save_and_notify faults self options w1), w') /\
    trace w' =
      trace (snd (save_and_notify faults self options w1)) ++
      [FsUnlink zp; FsRm (tempDir self) (rmMaxRetries self)].
Proof.
  intros Hu Hp Hc. unfold storeRemoteSession, bind.
  rewrite Hu, (isValidPath_true _ _ _ Hp). simpl. rewrite Hc.
  unfold try_finally.
  pose proof (settles_save_and_notify faults self options w1) as Hs.
  destruct (save_and_notify faults self options w1) as [[u|e'|] w2];
    cbn [fst] in Hs; [| |contradiction]; simpl;
    destruct (finally_cleanup_some self zp w2) as (w' & -> & Ht);
    now exists w'.
Qed.

Lemma storeRemoteSession_compress_failed self options w p n e w1 :
  userDataDir self = Some p ->
  fs_get p (disk w) = Some n ->
  compressSession faults self w = (Throw e, w1) ->
  exists w',
    storeRemoteSession faults self options w = (Throw e, w') /\
    trace w' = trace w1 ++ [FsRm (tempDir self) (rmMaxRetries self)].
Proof.
  intros Hu Hp Hc. unfold storeRemoteSession, bind.
  rewrite Hu, (isValidPath_true _ _ _ Hp). simpl. rewrite Hc.
  unfold try_finally, throw.
  destruct (finally_cleanup_none self w1) as (w' & -> & Ht).
  now exists w'.
Qed.

(** [compressSession] resolves with the path of the archive it wrote. *)
Lemma compressSession_ok self w zp w1 :
  compressSession faults self w = (Ok zp, w1) ->
  zp = path_join (dataPath self) (js_str (sessionName self) ++ ".zip")%string /\
  exists es, fs_get zp (disk w1) = Some (Zip es).
Proof.
  unfold compressSession, archive_directory, bind, log, throw.
  destruct (fs_createWriteStream faults _ w) as [[stream|e|] w2];
    [|discriminate|discriminate].
  destruct (copyByRequiredDirs faults self w2) as [[u|e|] w3];
    [|discriminate|discriminate].
  cbv beta iota.
  destruct (negb stream); [discriminate|].
  destruct (fails faults _); [discriminate|].
  cbn [disk add_trace].
  match goal with
  | |- context [fs_get ?a ?b] => destruct (fs_get a b) as [[| |es]|]
  end; try discriminate.
  match goal with
  | |- context [fs_put ?a ?b ?c] => destruct (fs_put a b c) as [d|] eqn:Hput
  end; [|discriminate].
  intros [= <- <-]. split; [reflexivity|].
  exists es. exact (fs_get_put_same _ _ _ _ Hput).
Qed.

Lemma compressSession_path self w zp w1 :
  compressSession faults self w = (Ok zp, w1) ->
  zp = path_join (dataPath self) (js_str (sessionName self) ++ ".zip")%string.
Proof. intros H. exact (proj1 (compressSession_ok _ _ _ _ H)). Qed.

Lemma save_and_notify_disk self options w :
  disk (snd (save_and_notify faults self options w)) = disk w.
Proof.
  destruct (sessionName self) as [name|] eqn:Hn.
  - destruct (save_and_notify_run self options name w Hn)
      as (r & w' & -> & _ & Hd & _).
    exact Hd.
  - unfold save_and_notify, bind, need, throw. now rewrite Hn.
Qed.

Lemma fs_unlink_ok p w w' :
  p <> [] ->
  fs_unlink faults p w = (Ok tt, w') ->
  fs_get p (disk w') = None.
Proof.
  intros Hp. unfold fs_unlink, bind, log, throw.
  destruct (fails faults (FsUnlink p)); [discriminate|].
  cbn [disk add_trace].
  destruct (fs_get p (disk w)) as [[| |]|]; try discriminate;
    intros [= <-]; cbn [disk set_disk]; now apply fs_get_remove_same.
Qed.

Lemma fs_unlink_file p es w :
  fails faults (FsUnlink p) = false ->
  fs_get p (disk w) = Some (Zip es) ->
  exists w', fs_unlink faults p w = (Ok tt, w').
Proof.
  intros Hf Hg. unfold fs_unlink, bind, log, throw. rewrite Hf.
  cbn [disk add_trace]. rewrite Hg. eexists. reflexivity.
Qed.

Lemma fs_rm_keeps_absent q p r w :
  fs_get q (disk w) = None ->
  fs_get q (disk (snd (fs_rm faults p r w))) = None.
Proof.
  intros Hq. unfold fs_rm, bind, need, log, throw, ret.
  destruct p as [p|]; [|exact Hq]. cbv beta iota.
  destruct (Nat.ltb r _); [exact Hq|].
  cbn [snd disk set_disk add_trace]. now apply fs_get_remove_none.
Qed.

(** When the archive is there and its deletion does not fail, the
    [finally] block leaves no archive. *)
Lemma finally_cleanup_deletes self zp es w :
  zp <> [] ->
  fails faults (FsUnlink zp) = false ->
  fs_get zp (disk w) = Some (Zip es) ->
  fs_get zp (disk (snd (finally_cleanup faults self (Some zp) w))) = None.
Proof.
  intros Hz Hf Hg. unfold finally_cleanup, allSettled, bind.
  rewrite !absorb_run by auto with settles. cbn [snd]. unfold ret. cbn [snd].
  apply fs_rm_keeps_absent.
  destruct (fs_unlink_file zp es w Hf Hg) as (w' & Hu).
  rewrite Hu. cbn [snd]. exact (fs_unlink_ok zp w w' Hz Hu).
Qed.

End Cycle.

Lemma not_cleanup_of_packing (l : list event) :
  forallb is_packing l = true ->
  forallb (fun e => negb (is_cleanup e)) l = true.
Proof.
  rewrite !forallb_forall. intros H e He. specialize (H e He).
  now destruct e.
Qed.

(** C1, as worded, fails: in a cycle of the sample session the argument of
    the store's save is the session path, not the path of the archive that
    [compressSession] returned. *)
Lemma save_receives_session_not_archive :
  ~ save_receives_archive no_faults bot1_ready live_world.
Proof.
  unfold save_receives_archive. vm_compute.
  intros H. repeat (destruct H as [H|H]; [discriminate H|]). exact H.
Qed.

(** C1, amended. In every backup cycle whose staging and compression
    succeed, the store's save is called once compression has returned and
    before the archive or the staging directory is cleaned up: the calls
    made until [compressSession] returns are calls of staging and
    compression only, and the calls made after that are, in this order, the
    save, the notification if it was asked for and the save succeeded, the
    deletion of the archive and the removal of the staging directory.  The
    argument of the save is the session path [dataPath/sessionName]; the
    archive that [compressSession] returned is that path with the extension
    [.zip], a different path, which is passed to no save of the cycle. *)
Theorem storeRemoteSession_saves_before_cleanup :
  forall faults self options w p n name zp w1,
    userDataDir self = Some p ->
    fs_get p (disk w) = Some n ->
    sessionName self = Some name ->
    compressSession faults self w = (Ok zp, w1) ->
    zp = path_join (dataPath self) (name ++ ".zip")%string /\
    path_join (dataPath self) name <> zp /\
    exists packing notified,
      trace w1 = trace w ++ packing /\
      forallb is_packing packing = true /\
      (notified = [] \/ notified = [Emit REMOTE_SESSION_SAVED]) /\
      trace (snd (storeRemoteSession faults self options w)) =
        trace w1 ++
        StoreSave (path_join (dataPath self) name) :: notified ++
        [FsUnlink zp; FsRm (tempDir self) (rmMaxRetries self)] /\
      forall s,
        In (StoreSave s)
          (packing ++ StoreSave (path_join (dataPath self) name) :: notified ++
           [FsUnlink zp; FsRm (tempDir self) (rmMaxRetries self)]) ->
        s = path_join (dataPath self) name.
Proof.
  intros faults self options w p n name zp w1 Hu Hp Hn Hc.
  assert (Hz : zp = path_join (dataPath self) (name ++ ".zip")%string).
  { rewrite (compressSession_path _ _ _ _ _ Hc), Hn. reflexivity. }
  split; [exact Hz|]. split.
  { rewrite Hz. intros E. apply path_join_inj in E.
    exact (append_suffix_neq name "." "zip" E). }
  destruct (confined_compressSession faults self w)
    as (_ & _ & _ & packing & Hpk & Hall).
  rewrite Hc in Hpk. cbn [snd] in Hpk.
  destruct (storeRemoteSession_after_compress faults self options w p n zp w1
              Hu Hp Hc) as (w' & Hrun & Htr).
  destruct (save_and_notify_run faults self options name w1 Hn)
    as (r & w2 & Hs & _ & _ & Hts).
  rewrite Hs in Htr. cbn [snd] in Htr.
  exists packing.
  exists (if match r with
             | Ok _ => match options with Some o => emit o | None => false end
             | _ => false
             end
          then [Emit REMOTE_SESSION_SAVED] else []).
  split; [exact Hpk|]. split; [exact Hall|]. split.
  { destruct (match r with Ok _ => _ | _ => _ end); auto. }
  split.
  { rewrite Hrun. cbn [snd]. rewrite Htr, Hts.
    now rewrite <- !app_assoc. }
  intros s Hin. apply in_app_or in Hin as [Hin | Hin].
  - rewrite forallb_forall in Hall. specialize (Hall _ Hin). discriminate Hall.
  - destruct Hin as [[= <-] | Hin]; [reflexivity|].
    apply in_app_or in Hin as [Hin | Hin].
    + destruct (match r with Ok _ => _ | _ => _ end);
        [destruct Hin as [Hin|[]]; discriminate Hin|destruct Hin].
    + destruct Hin as [Hin|[Hin|[]]]; discriminate Hin.
Qed.

Lemma storeRemoteSession_saves_before_cleanup_witness :
  exists packing notified,
    trace (snd (compressSession no_faults bot1_ready live_world)) =
      trace live_world ++ packing /\
    forallb is_packing packing = true /\
    (notified = [] \/ notified = [Emit REMOTE_SESSION_SAVED]) /\
    trace (snd (storeRemoteSession no_faults bot1_ready None live_world)) =
      trace (snd (compressSession no_faults bot1_ready live_world)) ++
      StoreSave ["srv"; "auth"; "RemoteAuth-bot1"] :: notified ++
      [FsUnlink ["srv"; "auth"; "RemoteAuth-bot1.zip"];
       FsRm ["srv"; "auth"; "wwebjs_temp_session_bot1"] 4] /\
    forall s,
      In (StoreSave s)
        (packing ++ StoreSave ["srv"; "auth"; "RemoteAuth-bot1"] :: notified ++
         [FsUnlink ["srv"; "auth"; "RemoteAuth-bot1.zip"];
          FsRm ["srv"; "auth"; "wwebjs_temp_session_bot1"] 4]) ->
      s = ["srv"; "auth"; "RemoteAuth-bot1"].
Proof.
  apply (storeRemoteSession_saves_before_cleanup no_faults bot1_ready None
           live_world ["srv"; "auth"; "RemoteAuth-bot1"] profile
           "RemoteAuth-bot1" ["srv"; "auth"; "RemoteAuth-bot1.zip"]
           (snd (compressSession no_faults bot1_ready live_world)));
    vm_compute; reflexivity.
Defined.

(** C3, as worded, fails: a cycle of the sample session reaches compression,
    copying into the staging directory fails, and the deletion of the
    archive file is not attempted. *)
Lemma no_unlink_when_compression_fails :
  fst (isValidPath (userDataDir bot1_ready) live_world) = Ok true /\
  ~ cleanup_attempted cp_fails bot1_ready live_world.
Proof.
  split; [reflexivity|].
  unfold cleanup_attempted. vm_compute. intros [H _]. discriminate H.
Qed.

(** C3, amended. In every backup cycle in which compression returned an
    archive path, whether the store's save then succeeds or raises, the
    deletion of the archive file and the removal of the staging directory
    are both attempted after the save, and the cycle ends as the save did:
    errors of the two deletions never surface.  When compression itself
    rejects, only the removal of the staging directory is attempted, its
    errors are absorbed too, and the cycle ends with the compression
    error.  (When compression never settles, which is what happens when the
    write stream of the archive cannot be opened, the cycle never settles
    either and makes no further call.) *)
Theorem storeRemoteSession_cleanup :
  forall faults self options w p n name,
    userDataDir self = Some p ->
    fs_get p (disk w) = Some n ->
    sessionName self = Some name ->
    match compressSession faults self w with
    | (Ok zp, w1) =>
        exists r w' notified,
          storeRemoteSession faults self options w = (r, w') /\
          (r = Ok tt \/
           r = Throw (StoreFailure (StoreSave (path_join (dataPath self) name)))) /\
          trace w' =
            trace w1 ++
            StoreSave (path_join (dataPath self) name) :: notified ++
            [FsUnlink zp; FsRm (tempDir self) (rmMaxRetries self)]
    | (Throw e, w1) =>
        exists w',
          storeRemoteSession faults self options w = (Throw e, w') /\
          trace w' = trace w1 ++ [FsRm (tempDir self) (rmMaxRetries self)]
    | (Pending, w1) =>
        storeRemoteSession faults self options w = (Pending, w1)
    end.
Proof.
  intros faults self options w p n name Hu Hp Hn.
  destruct (compressSession faults self w) as [[zp|e|] w1] eqn:Hc.
  - destruct (storeRemoteSession_after_compress faults self options w p n zp w1
                Hu Hp Hc) as (w' & Hrun & Htr).
    destruct (save_and_notify_run faults self options name w1 Hn)
      as (r & w2 & Hs & Hr & _ & Hts).
    rewrite Hs in Htr, Hrun. cbn [fst snd] in Htr, Hrun.
    exists r, w'. eexists. split; [exact Hrun|]. split; [exact Hr|].
    rewrite Htr, Hts, <- app_assoc. reflexivity.
  - exact (storeRemoteSession_compress_failed faults self options w p n e w1
             Hu Hp Hc).
  - unfold storeRemoteSession, bind.
    rewrite Hu, (isValidPath_true _ _ _ Hp). cbn [negb]. now rewrite Hc.
Qed.

Lemma storeRemoteSession_cleanup_witness :
  exists r w' notified,
    storeRemoteSession save_rejected bot1_ready None live_world = (r, w') /\
    (r = Ok tt \/
     r = Throw (StoreFailure (StoreSave ["srv"; "auth"; "RemoteAuth-bot1"]))) /\
    trace w' =
      trace (snd (compressSession save_rejected bot1_ready live_world)) ++
      StoreSave ["srv"; "auth"; "RemoteAuth-bot1"] :: notified ++
      [FsUnlink ["srv"; "auth"; "RemoteAuth-bot1.zip"];
       FsRm ["srv"; "auth"; "wwebjs_temp_session_bot1"] 4].
Proof.
  assert (H : compressSession save_rejected bot1_ready live_world =
              (Ok ["srv"; "auth"; "RemoteAuth-bot1.zip"],
               snd (compressSession save_rejected bot1_ready live_world)))
    by (vm_compute; reflexivity).
  pose proof (storeRemoteSession_cleanup save_rejected bot1_ready None
                live_world ["srv"; "auth"; "RemoteAuth-bot1"] profile
                "RemoteAuth-bot1" eq_refl eq_refl eq_refl) as T.
  rewrite H in T. exact T.
Defined.

(** ** Readiness and the scheduler *)

Section Readiness.

Variable faults : event -> nat.

Lemma store_sessionExists_run s w :
  fails faults (StoreSessionExists s) = false ->
  store_sessionExists faults s w =
    (Ok (match key_of s (remote w) with Some _ => true | None => false end),
     add_trace (StoreSessionExists s) w).
Proof.
  intros Hf. unfold store_sessionExists, bind, log. rewrite Hf.
  cbn [remote add_trace]. now destruct (key_of s (remote w)).
Qed.

Lemma bind_ok {A B} (m : M A) (k : A -> M B) w b w' :
  bind m k w = (Ok b, w') ->
  exists a w1, m w = (Ok a, w1) /\ k a w1 = (Ok b, w').
Proof.
  unfold bind. destruct (m w) as [[a|e|] w1]; [|discriminate|discriminate].
  intros H. now exists a, w1.
Qed.

(** Whatever [afterAuthReady] does before it starts the timer leaves the
    timers alone. *)
Lemma afterAuthReady_ok self w s1 w1 :
  afterAuthReady faults self w = (Ok s1, w1) ->
  timers w1 = timers w ++ [(next_timer w, backupSyncIntervalMs self)] /\
  next_timer w1 = S (next_timer w) /\
  s1 = set_backupSync (next_timer w) self.
Proof.
  unfold afterAuthReady. intros H.
  apply bind_ok in H as (b & wa & H1 & H).
  apply bind_ok in H as (u & wb & H2 & H).
  apply bind_ok in H as (h & wc & H3 & H).
  pose proof (confined_store_sessionExists faults is_query (sessionName self)
                eq_refl w) as (Ht1 & Hn1 & _).
  rewrite H1 in Ht1, Hn1. cbn [snd] in Ht1, Hn1.
  assert (Hg : timers wb = timers wa /\ next_timer wb = next_timer wa).
  { destruct b; cbn [negb] in H2.
    - inversion H2. auto.
    - apply bind_ok in H2 as ([] & wd & Hd & H2).
      inversion Hd. subst wd.
      destruct (confined_storeRemoteSession faults self
                  (Some (mkSaveOptions true)) (add_trace (Delay 60000) wa))
        as (Ht & Hn & _).
      rewrite H2 in Ht, Hn. auto. }
  destruct Hg as (Ht2 & Hn2).
  inversion H3. subst h wc. inversion H. subst s1 w1.
  cbn [timers next_timer add_trace set_timers].
  rewrite Ht2, Ht1, Hn2, Hn1. auto.
Qed.

Lemma afterAuthReady_record self w blob :
  fails faults (StoreSessionExists (sessionName self)) = false ->
  key_of (sessionName self) (remote w) = Some blob ->
  afterAuthReady faults self w =
    (Ok (set_backupSync (next_timer w) self),
     start_timer (backupSyncIntervalMs self)
       (add_trace (StoreSessionExists (sessionName self)) w)).
Proof.
  intros Hf Hk. unfold afterAuthReady, bind.
  rewrite (store_sessionExists_run _ _ Hf), Hk. reflexivity.
Qed.

Lemma afterAuthReady_no_record self w :
  fails faults (StoreSessionExists (sessionName self)) = false ->
  key_of (sessionName self) (remote w) = None ->
  afterAuthReady faults self w =
    match storeRemoteSession faults self (Some (mkSaveOptions true))
            (add_trace (Delay 60000)
               (add_trace (StoreSessionExists (sessionName self)) w)) with
    | (Ok _, w2) =>
        (Ok (set_backupSync (next_timer w2) self),
         start_timer (backupSyncIntervalMs self) w2)
    | (Throw e, w2) => (Throw e, w2)
    | (Pending, w2) => (Pending, w2)
    end.
Proof.
  intros Hf Hk. unfold afterAuthReady, bind.
  rewrite (store_sessionExists_run _ _ Hf), Hk. simpl.
  unfold delay, log.
  now destruct (storeRemoteSession faults self _ _) as [[u|e|] w2].
Qed.

End Readiness.

(** C9, as worded, fails: on a world with no timer, where the store holds a
    record so that no backup is taken, two calls of [afterAuthReady] leave
    two timers active. *)
Lemma second_start_adds_a_timer :
  ~ start_is_idempotent no_faults bot1_ready
      saved_world.
Proof.
  intros H.
  destruct (H (set_backupSync 0 bot1_ready)
              (snd (afterAuthReady no_faults bot1_ready saved_world))
              (set_backupSync 1 bot1_ready)
              (snd (afterAuthReady no_faults (set_backupSync 0 bot1_ready)
                      (snd (afterAuthReady no_faults bot1_ready saved_world)))))
    as (Hlen & _); try (vm_compute; reflexivity).
  vm_compute in Hlen. discriminate Hlen.
Qed.

(** C9, amended. The scheduler-start step of [afterAuthReady] is not
    guarded: every call that completes registers one more recurring timer
    under a fresh handle and stores that handle in [backupSync].  After a
    second call two timers are active, and [destroy], which clears the
    stored handle, cancels the second and leaves the first running. *)
Theorem afterAuthReady_adds_a_timer :
  forall faults self w s1 w1 s2 w2,
    afterAuthReady faults self w = (Ok s1, w1) ->
    afterAuthReady faults s1 w1 = (Ok s2, w2) ->
    timers w1 = timers w ++ [(next_timer w, backupSyncIntervalMs self)] /\
    backupSync s1 = Some (next_timer w) /\
    timers w2 =
      timers w ++ [(next_timer w, backupSyncIntervalMs self);
                   (S (next_timer w), backupSyncIntervalMs self)] /\
    backupSync s2 = Some (S (next_timer w)) /\
    In (next_timer w, backupSyncIntervalMs self) (timers (snd (destroy s2 w2))) /\
    ~ In (S (next_timer w), backupSyncIntervalMs self) (timers (snd (destroy s2 w2))).
Proof.
  intros faults self w s1 w1 s2 w2 H1 H2.
  destruct (afterAuthReady_ok faults self w s1 w1 H1) as (Ht1 & Hn1 & Hs1).
  destruct (afterAuthReady_ok faults s1 w1 s2 w2 H2) as (Ht2 & Hn2 & Hs2).
  assert (Hms : backupSyncIntervalMs s1 = backupSyncIntervalMs self)
    by (subst s1; reflexivity).
  rewrite Hms, Hn1, Ht1, <- app_assoc in Ht2. simpl in Ht2.
  rewrite Hn1 in Hs2.
  split; [exact Ht1|]. split; [subst s1; reflexivity|].
  split; [exact Ht2|]. split; [subst s2; reflexivity|].
  unfold destroy, clearInterval. cbn [snd timers add_trace set_timers].
  subst s2. cbn [backupSync set_backupSync with_backupSync]. rewrite Ht2. split.
  - apply filter_In. split.
    + apply in_or_app. right. now left.
    + cbn [fst]. apply negb_true_iff, Nat.eqb_neq. lia.
  - intros Hin. apply filter_In in Hin. destruct Hin as [_ Hk].
    cbn [fst] in Hk. now rewrite Nat.eqb_refl in Hk.
Qed.

Lemma afterAuthReady_adds_a_timer_witness :
  timers (snd (afterAuthReady no_faults
                 (set_backupSync 0 bot1_ready)
                 (snd (afterAuthReady no_faults bot1_ready
                         saved_world)))) =
  [] ++ [(0%nat, 60000%Z); (1%nat, 60000%Z)].
Proof.
  apply (afterAuthReady_adds_a_timer no_faults bot1_ready saved_world
           (set_backupSync 0 bot1_ready)
           (snd (afterAuthReady no_faults bot1_ready saved_world))
           (set_backupSync 1 bot1_ready));
    vm_compute; reflexivity.
Defined.

Lemma isValidPath_run (p : option path) (w : World) :
  isValidPath p w =
    (Ok match p with
        | Some q => match fs_get q (disk w) with Some _ => true | None => false end
        | None => false
        end, w).
Proof.
  unfold isValidPath, try_catch, fs_access, bind, need, ret, throw.
  destruct p as [q|]; [|reflexivity].
  now destruct (fs_get q (disk w)).
Qed.

(** The calls of a cycle that completes: none when there is no session
    directory, otherwise staging and compression, the save, the
    notification when asked for, and the two deletions. *)
Lemma storeRemoteSession_ok faults self options w w' :
  storeRemoteSession faults self options w = (Ok tt, w') ->
  (session_dir_exists self w = false /\ w' = w) \/
  (session_dir_exists self w = true /\
   exists packing name zp,
     sessionName self = Some name /\
     forallb is_packing packing = true /\
     trace w' =
       trace w ++ packing ++
       StoreSave (path_join (dataPath self) name) ::
       (if match options with Some o => emit o | None => false end
        then [Emit REMOTE_SESSION_SAVED] else []) ++
       [FsUnlink zp; FsRm (tempDir self) (rmMaxRetries self)]).
Proof.
  intros H. unfold session_dir_exists.
  destruct (userDataDir self) as [p|] eqn:Hu.
  2:{ left. unfold storeRemoteSession, bind in H.
      rewrite isValidPath_false in H by (intros q Hq; congruence).
      inversion H. auto. }
  destruct (fs_get p (disk w)) as [n|] eqn:Hp.
  2:{ left. unfold storeRemoteSession, bind in H.
      rewrite isValidPath_false in H by (intros q Hq; congruence).
      inversion H. auto. }
  right. split; [reflexivity|].
  destruct (confined_compressSession faults self w)
    as (_ & _ & _ & packing & Hpk & Hall).
  destruct (compressSession faults self w) as [[zp|e|] w1] eqn:Hc.
  - cbn [snd] in Hpk.
    destruct (storeRemoteSession_after_compress faults self options w p n zp w1
                Hu Hp Hc) as (w2 & Hrun & Htr).
    rewrite Hrun in H. inversion H as [[Hr Hw]]. subst w2.
    destruct (sessionName self) as [name|] eqn:Hn.
    + destruct (save_and_notify_run faults self options name w1 Hn)
        as (r & w3 & Hs & _ & _ & Hts).
      rewrite Hs in Hr, Htr. cbn [fst snd] in Hr, Htr. subst r.
      exists packing, name, zp.
      split; [reflexivity|]. split; [exact Hall|].
      rewrite Htr, Hts, Hpk, <- !app_assoc. reflexivity.
    + unfold save_and_notify, bind, need, throw in Hr. rewrite Hn in Hr.
      discriminate Hr.
  - destruct (storeRemoteSession_compress_failed faults self options w p n e w1
                Hu Hp Hc) as (w2 & Hrun & _).
    rewrite Hrun in H. discriminate H.
  - unfold storeRemoteSession, bind in H.
    rewrite Hu, (isValidPath_true _ _ _ Hp) in H. cbn [negb] in H.
    rewrite Hc in H. discriminate H.
Qed.

Lemma storeRemoteSession_no_dir faults self options w :
  session_dir_exists self w = false ->
  storeRemoteSession faults self options w = (Ok tt, w).
Proof.
  intros H. unfold storeRemoteSession, bind. rewrite isValidPath_run.
  unfold session_dir_exists in H. now rewrite H.
Qed.

(** C4, as worded, fails: with no record in the store and a store that
    rejects the first save, [afterAuthReady] rejects and no timer is
    started. *)
Lemma no_scheduler_when_first_save_rejected :
  key_of (sessionName bot1_ready) (remote live_world) = None /\
  ~ scheduler_started save_rejected bot1_ready live_world.
Proof.
  split; [reflexivity|].
  unfold scheduler_started. vm_compute. intros [h []].
Qed.

(** C4, amended. At a readiness signal for which the store answers:
    when it holds a record, the scheduler is started at once with the
    configured interval; when it holds none, a delay of 60000 ms comes
    first and the first backup cycle only after it.  A cycle that finds no
    session directory makes no call and completes; a cycle that finds one
    and completes has made, after staging and compression, the save,
    directly followed by the notification, and the two deletions.  When the
    cycle completes the scheduler is started with the configured interval
    after it.  When the cycle raises, [afterAuthReady] raises the same
    error and starts no timer.  (When the cycle never settles, neither does
    [afterAuthReady].) *)
Theorem afterAuthReady_first_backup :
  forall faults self w,
    fails faults (StoreSessionExists (sessionName self)) = false ->
    (forall blob,
       key_of (sessionName self) (remote w) = Some blob ->
       afterAuthReady faults self w =
         (Ok (set_backupSync (next_timer w) self),
          start_timer (backupSyncIntervalMs self)
            (add_trace (StoreSessionExists (sessionName self)) w))) /\
    (key_of (sessionName self) (remote w) = None ->
     exists r w2 evs,
       storeRemoteSession faults self (Some (mkSaveOptions true))
         (add_trace (Delay 60000)
            (add_trace (StoreSessionExists (sessionName self)) w)) = (r, w2) /\
       trace w2 =
         trace w ++ StoreSessionExists (sessionName self) :: Delay 60000 :: evs /\
       timers w2 = timers w /\
       (session_dir_exists self w = false -> r = Ok tt /\ evs = []) /\
       (session_dir_exists self w = true ->
        r = Ok tt ->
        exists packing name zp,
          sessionName self = Some name /\
          forallb is_packing packing = true /\
          evs = packing ++
                [StoreSave (path_join (dataPath self) name);
                 Emit REMOTE_SESSION_SAVED; FsUnlink zp;
                 FsRm (tempDir self) (rmMaxRetries self)]) /\
       afterAuthReady faults self w =
         match r with
         | Ok _ =>
             (Ok (set_backupSync (next_timer w) self),
              start_timer (backupSyncIntervalMs self) w2)
         | Throw e => (Throw e, w2)
         | Pending => (Pending, w2)
         end).
Proof.
  intros faults self w Hf. split.
  - intros blob Hk. exact (afterAuthReady_record faults self w blob Hf Hk).
  - intros Hk.
    pose proof (afterAuthReady_no_record faults self w Hf Hk) as Hrun.
    pose proof (confined_storeRemoteSession faults self (Some (mkSaveOptions true))
                  (add_trace (Delay 60000)
                     (add_trace (StoreSessionExists (sessionName self)) w)))
      as (Ht & Hn & _ & evs & He & _).
    set (wd := add_trace (Delay 60000)
                 (add_trace (StoreSessionExists (sessionName self)) w)) in *.
    assert (Hsame : session_dir_exists self wd = session_dir_exists self w)
      by reflexivity.
    destruct (storeRemoteSession faults self _ wd) as [r w2] eqn:Hc.
    cbn [snd] in Ht, Hn, He.
    assert (Htw : trace wd =
                  trace w ++ [StoreSessionExists (sessionName self); Delay 60000]).
    { subst wd. cbn [trace add_trace]. now rewrite <- app_assoc. }
    exists r, w2, evs. split; [reflexivity|]. split.
    { rewrite He, Htw, <- app_assoc. reflexivity. }
    split; [exact Ht|]. split; [|split].
    + intros Hno. rewrite <- Hsame in Hno.
      rewrite (storeRemoteSession_no_dir _ _ _ _ Hno) in Hc.
      inversion Hc. subst r w2. split; [reflexivity|].
      rewrite <- (app_nil_r (trace wd)) in He at 1.
      apply app_inv_head in He. now subst evs.
    + intros Hyes ->. rewrite <- Hsame in Hyes.
      apply storeRemoteSession_ok in Hc. destruct Hc as [[Hno _]|[_ Hc]].
      * rewrite Hno in Hyes. discriminate Hyes.
      * destruct Hc as (packing & name & zp & Hname & Hall & Htr).
        exists packing, name, zp. split; [exact Hname|]. split; [exact Hall|].
        rewrite He in Htr. apply app_inv_head in Htr. exact Htr.
    + destruct r as [[]|e|]; rewrite Hrun; [|reflexivity|reflexivity].
      now rewrite Hn.
Qed.

Lemma afterAuthReady_first_backup_witness :
  exists r w2 evs,
    storeRemoteSession no_faults bot1_ready (Some (mkSaveOptions true))
      (add_trace (Delay 60000)
         (add_trace (StoreSessionExists (Some "RemoteAuth-bot1"))
            live_world)) = (r, w2) /\
    trace w2 =
      [] ++ StoreSessionExists (Some "RemoteAuth-bot1") :: Delay 60000 :: evs /\
    timers w2 = [] /\
    (session_dir_exists bot1_ready live_world = false -> r = Ok tt /\ evs = []) /\
    (session_dir_exists bot1_ready live_world = true ->
     r = Ok tt ->
     exists packing name zp,
       sessionName bot1_ready = Some name /\
       forallb is_packing packing = true /\
       evs = packing ++
             [StoreSave (path_join ["srv"; "auth"] name);
              Emit REMOTE_SESSION_SAVED; FsUnlink zp;
              FsRm ["srv"; "auth"; "wwebjs_temp_session_bot1"] 4]) /\
    afterAuthReady no_faults bot1_ready live_world =
      match r with
      | Ok _ => (Ok (set_backupSync 0 bot1_ready), start_timer 60000 w2)
      | Throw e => (Throw e, w2)
      | Pending => (Pending, w2)
      end.
Proof.
  apply (afterAuthReady_first_backup no_faults bot1_ready live_world);
    vm_compute; reflexivity.
Defined.

(** ** Recovery *)

Section Recovery.

Variable faults : event -> nat.

Lemma store_sessionExists_ok s w b w' :
  store_sessionExists faults s w = (Ok b, w') ->
  b = match key_of s (remote w) with Some _ => true | None => false end /\
  w' = add_trace (StoreSessionExists s) w.
Proof.
  unfold store_sessionExists, bind, log, throw.
  destruct (fails faults (StoreSessionExists s)); [discriminate|].
  cbn [remote add_trace].
  destruct (key_of s (remote w)); intros [= <- <-]; auto.
Qed.

Lemma isValidPath_ok p w b w' :
  isValidPath p w = (Ok b, w') -> w' = w.
Proof. rewrite isValidPath_run. now intros [= _ <-]. Qed.

(** A recovery that completes after fetching a record has deleted the
    archive it fetched. *)
Lemma extractRemoteSession_deletes_archive self w w' blob :
  key_of (sessionName self) (remote w) = Some blob ->
  extractRemoteSession faults self w = (Ok tt, w') ->
  fs_get (path_join (dataPath self) (js_str (sessionName self) ++ ".zip")%string)
    (disk w') = None.
Proof.
  intros Hk H. unfold extractRemoteSession in H.
  apply bind_ok in H as (b & w1 & H1 & H).
  apply isValidPath_ok in H1. subst w1.
  apply bind_ok in H as (b' & w2 & H2 & H).
  apply store_sessionExists_ok in H2 as (Hb & _). rewrite Hk in Hb. subst b'.
  apply bind_ok in H as (u & w3 & _ & H).
  apply bind_ok in H as (u' & w4 & _ & H).
  unfold unCompressSession in H.
  apply bind_ok in H as (u'' & w5 & _ & H).
  exact (fs_unlink_ok faults _ _ _ (path_join_nonempty _ _) H).
Qed.

End Recovery.

(** *** Creating the session directory *)

Lemma fs_mkdirp_fresh (p : path) (d d' : node) :
  p <> [] ->
  fs_get p d = None ->
  fs_mkdirp p d = Some d' ->
  fs_get p d' = Some (Dir []).
Proof.
  revert d d'. induction p as [|k p IH]; intros d d' Hp Hg Hm; [contradiction|].
  destruct d as [| |es]; try discriminate.
  cbn [fs_mkdirp] in Hm. cbn [fs_get] in Hg.
  destruct (fs_mkdirp p _) as [c'|] eqn:Hc; [|discriminate].
  inversion Hm. subst d'. cbn [fs_get]. rewrite alist_get_set_same.
  destruct p as [|k2 p].
  - destruct (alist_get k es) as [c|]; [discriminate|].
    simpl in Hc. now inversion Hc.
  - refine (IH _ _ _ _ Hc); [discriminate|].
    destruct (alist_get k es) as [c|]; [exact Hg|reflexivity].
Qed.

Lemma fs_mkdirp_after_remove (p : path) (d : node) :
  p <> [] ->
  fs_mkdirp p d <> None ->
  fs_mkdirp p (fs_remove p d) <> None.
Proof.
  revert d. induction p as [|k p IH]; intros d Hp Hm; [contradiction|].
  destruct d as [| |es]; try (exfalso; apply Hm; reflexivity).
  destruct p as [|k2 p].
  - simpl. rewrite alist_get_del_same. discriminate.
  - rewrite fs_remove_cons.
    destruct (alist_get k es) as [c|] eqn:Hk; [|exact Hm].
    rewrite fs_mkdirp_cons in Hm |- *. rewrite Hk in Hm.
    rewrite alist_get_set_same.
    assert (Hc : fs_mkdirp (k2 :: p) c <> None).
    { intros E. rewrite E in Hm. now apply Hm. }
    assert (Hne : k2 :: p <> []) by discriminate.
    specialize (IH c Hne Hc).
    destruct (fs_mkdirp (k2 :: p) (fs_remove (k2 :: p) c));
      [cbv iota; discriminate|].
    now apply IH.
Qed.

Section RecoveryRun.

Variable faults : event -> nat.

Lemma fs_rm_run p r w :
  fs_rm faults (Some p) r w =
    if Nat.ltb r (faults (FsRm p r))
    then (Throw (FsFailure (FsRm p r)), add_trace (FsRm p r) w)
    else (Ok tt, set_disk (fs_remove p (disk w)) (add_trace (FsRm p r) w)).
Proof.
  unfold fs_rm, bind, need, log, throw, ret. cbv beta iota.
  now destruct (Nat.ltb r (faults (FsRm p r))).
Qed.

Lemma fs_mkdir_run p w :
  fs_mkdir faults (Some p) w =
    if fails faults (FsMkdir p)
    then (Throw (FsFailure (FsMkdir p)), add_trace (FsMkdir p) w)
    else match fs_mkdirp p (disk w) with
         | Some d => (Ok tt, set_disk d (add_trace (FsMkdir p) w))
         | None => (Throw (FsFailure (FsMkdir p)), add_trace (FsMkdir p) w)
         end.
Proof.
  unfold fs_mkdir, bind, need, log, throw, ret. cbv beta iota.
  now destruct (fails faults (FsMkdir p)).
Qed.

Lemma store_extract_trace s dest w :
  trace (snd (store_extract faults s dest w)) = trace w ++ [StoreExtract s dest].
Proof.
  unfold store_extract, bind, log, throw. cbv beta iota.
  destruct (fails faults (StoreExtract s dest)); [reflexivity|].
  cbn [remote disk add_trace].
  destruct (key_of s (remote w)); [|reflexivity].
  now destruct (fs_put dest n (disk w)).
Qed.

Lemma unzip_extract_trace src dest w :
  trace (snd (unzip_extract faults src (Some dest) w)) =
  trace w ++ [UnzipExtract src dest].
Proof.
  unfold unzip_extract, bind, need, log, ret. cbv beta iota.
  cbn [disk add_trace].
  destruct (fs_get src (disk w)) as [[| es |]|]; try reflexivity.
  destruct (faults (UnzipExtract src dest)); [|reflexivity].
  now destruct (fs_write_all _ (disk w)) as [[|] d].
Qed.

Lemma store_extract_outcome s dest w :
  fst (store_extract faults s dest w) = Ok tt \/
  fst (store_extract faults s dest w) = Throw (StoreFailure (StoreExtract s dest)).
Proof.
  unfold store_extract, bind, log, throw. cbv beta iota.
  destruct (fails faults (StoreExtract s dest)); [now right|].
  cbn [remote disk add_trace].
  destruct (key_of s (remote w)); [|now right].
  destruct (fs_put dest n (disk w)); [now left|now right].
Qed.

Lemma unzip_extract_outcome src dest w :
  fst (unzip_extract faults src (Some dest) w) = Ok tt \/
  fst (unzip_extract faults src (Some dest) w) =
    Throw (ArchiveFailure (UnzipExtract src dest)).
Proof.
  unfold unzip_extract, bind, need, log, ret. cbv beta iota.
  cbn [disk add_trace].
  destruct (fs_get src (disk w)) as [[| es |]|]; try (now right).
  destruct (faults (UnzipExtract src dest)); [|now right].
  destruct (fs_write_all _ (disk w)) as [[|] d]; [now left|now right].
Qed.

Lemma fs_unlink_outcome p w :
  fst (fs_unlink faults p w) = Ok tt \/
  fst (fs_unlink faults p w) = Throw (FsFailure (FsUnlink p)).
Proof.
  unfold fs_unlink, bind, log, throw.
  destruct (fails faults (FsUnlink p)); [now right|]. cbn [disk add_trace].
  destruct (fs_get p (disk w)) as [[| |]|]; auto.
Qed.

(** Fetching the record and unpacking it: the calls made, in order, up to
    the first one that fails. *)
Lemma fetch_and_unpack_run self dir zp w :
  userDataDir self = Some dir ->
  exists r w' rest,
    (store_extract faults (sessionName self) zp ;;; unCompressSession faults self zp) w
      = (r, w') /\
    trace w' = trace w ++ StoreExtract (sessionName self) zp :: rest /\
    ((rest = [] /\
      r = Throw (StoreFailure (StoreExtract (sessionName self) zp))) \/
     (rest = [UnzipExtract zp dir] /\
      r = Throw (ArchiveFailure (UnzipExtract zp dir))) \/
     (rest = [UnzipExtract zp dir; FsUnlink zp] /\
      (r = Ok tt \/ r = Throw (FsFailure (FsUnlink zp))))) /\
    (forall w1,
       store_extract faults (sessionName self) zp w = (Ok tt, w1) -> rest <> []).
Proof.
  intros Hu. unfold bind.
  pose proof (store_extract_trace (sessionName self) zp w) as H1.
  pose proof (store_extract_outcome (sessionName self) zp w) as O1.
  destruct (store_extract faults (sessionName self) zp w) as [[[]|e|] w1];
    cbn [fst snd] in H1, O1.
  2:{ exists (Throw e), w1, []. rewrite H1.
      destruct O1 as [O1|O1]; [discriminate O1|].
      split; [reflexivity|]. split; [reflexivity|].
      split; [left; split; [reflexivity|exact O1]|discriminate]. }
  2:{ destruct O1 as [O1|O1]; discriminate O1. }
  unfold unCompressSession, bind. rewrite Hu.
  pose proof (unzip_extract_trace zp dir w1) as H2.
  pose proof (unzip_extract_outcome zp dir w1) as O2.
  destruct (unzip_extract faults zp (Some dir) w1) as [[[]|e|] w2];
    cbn [fst snd] in H2, O2.
  2:{ exists (Throw e), w2, [UnzipExtract zp dir].
      destruct O2 as [O2|O2]; [discriminate O2|].
      split; [reflexivity|]. split; [rewrite H2, H1, <- app_assoc; reflexivity|].
      split; [right; left; split; [reflexivity|exact O2]|discriminate]. }
  2:{ destruct O2 as [O2|O2]; discriminate O2. }
  pose proof (fs_unlink_trace faults zp w2) as H3.
  pose proof (fs_unlink_outcome zp w2) as O3.
  destruct (fs_unlink faults zp w2) as [r w3]; cbn [fst snd] in H3, O3.
  exists r, w3, [UnzipExtract zp dir; FsUnlink zp].
  split; [reflexivity|]. split; [rewrite H3, H2, H1, <- !app_assoc; reflexivity|].
  split; [right; right; split; [reflexivity|]|discriminate].
  destruct r as [[]|e|]; destruct O3 as [O3|O3]; try discriminate O3; auto.
Qed.

(** The fetch succeeds when the store does not reject it and the data
    directory exists. *)
Lemma store_extract_ok name blob dp zn E w :
  fails faults (StoreExtract (Some name) (path_join dp zn)) = false ->
  alist_get name (remote w) = Some blob ->
  fs_get dp (disk w) = Some (Dir E) ->
  exists w1, store_extract faults (Some name) (path_join dp zn) w = (Ok tt, w1).
Proof.
  intros Hf Hk Hg. unfold store_extract, bind, log, throw. rewrite Hf.
  cbn [key_of remote disk add_trace]. rewrite Hk.
  destruct (fs_put_focus dp [zn] blob (disk w) (Dir E)
              (Dir (alist_set zn blob E)) ltac:(discriminate) Hg eq_refl)
    as (d' & Hput & _).
  unfold path_join. rewrite Hput. eexists. reflexivity.
Qed.

End RecoveryRun.

Section RecoveryBranches.

Variable faults : event -> nat.

Lemma extractRemoteSession_no_record self dir name w :
  userDataDir self = Some dir ->
  sessionName self = Some name ->
  dir <> [] ->
  fails faults (StoreSessionExists (Some name)) = false ->
  alist_get name (remote w) = None ->
  exists r w',
    extractRemoteSession faults self w = (r, w') /\
    trace w' =
      trace w ++ StoreSessionExists (Some name) ::
      match fs_get dir (disk w) with
      | Some _ => [FsRm dir (rmMaxRetries self)]
      | None => []
      end ++ [FsMkdir dir] /\
    ((faults (FsRm dir (rmMaxRetries self)) <= rmMaxRetries self)%nat ->
     fails faults (FsMkdir dir) = false ->
     fs_mkdirp dir (disk w) <> None ->
     r = Ok tt /\ fs_get dir (disk w') = Some (Dir [])).
Proof.
  intros Hu Hn Hd Hf Hk.
  unfold extractRemoteSession, bind.
  rewrite isValidPath_run, Hu, Hn, (store_sessionExists_run faults _ _ Hf).
  cbn [key_of remote add_trace]. rewrite Hk.
  destruct (fs_get dir (disk w)) as [n|] eqn:Hg.
  - rewrite absorb_run by auto with settles. rewrite fs_rm_run.
    destruct (Nat.ltb_spec (rmMaxRetries self) (faults (FsRm dir (rmMaxRetries self))))
      as [Hlt|Hle]; cbn [snd]; rewrite fs_mkdir_run;
      destruct (fails faults (FsMkdir dir)) eqn:Hfm.
    + do 2 eexists. split; [reflexivity|]. split.
      * cbn [trace add_trace]. now rewrite <- !app_assoc.
      * intros Hle. lia.
    + cbn [disk add_trace].
      destruct (fs_mkdirp dir (disk w)) as [d|] eqn:Hm;
        do 2 eexists; (split; [reflexivity|]); (split;
          [cbn [trace add_trace set_disk]; now rewrite <- !app_assoc
          |intros Hle; lia]).
    + do 2 eexists. split; [reflexivity|]. split.
      * cbn [trace add_trace set_disk]. now rewrite <- !app_assoc.
      * intros _ Hf'. discriminate Hf'.
    + cbn [disk add_trace set_disk].
      pose proof (fs_get_remove_same dir (disk w) Hd) as Hgone.
      destruct (fs_mkdirp dir (fs_remove dir (disk w))) as [d|] eqn:Hm;
        do 2 eexists; (split; [reflexivity|]); (split;
          [cbn [trace add_trace set_disk]; now rewrite <- !app_assoc|]).
      * intros _ _ _. split; [reflexivity|].
        cbn [disk set_disk]. exact (fs_mkdirp_fresh dir _ d Hd Hgone Hm).
      * intros _ _ Hcan. exfalso.
        exact (fs_mkdirp_after_remove dir (disk w) Hd Hcan Hm).
  - unfold ret at 1. cbv beta iota. rewrite fs_mkdir_run.
    destruct (fails faults (FsMkdir dir)) eqn:Hfm.
    + do 2 eexists. split; [reflexivity|]. split.
      * cbn [trace add_trace]. now rewrite <- !app_assoc.
      * intros _ Hf'. discriminate Hf'.
    + cbn [disk add_trace].
      destruct (fs_mkdirp dir (disk w)) as [d|] eqn:Hm;
        do 2 eexists; (split; [reflexivity|]); (split;
          [cbn [trace add_trace set_disk]; now rewrite <- !app_assoc|]).
      * intros _ _ _. split; [reflexivity|].
        cbn [disk set_disk]. exact (fs_mkdirp_fresh dir _ d Hd Hg Hm).
      * intros _ _ Hcan. now contradiction Hcan.
Qed.

Lemma extractRemoteSession_record self dir name blob w :
  userDataDir self = Some dir ->
  sessionName self = Some name ->
  dir = path_join (dataPath self) name ->
  fails faults (StoreSessionExists (Some name)) = false ->
  alist_get name (remote w) = Some blob ->
  exists r w' rest,
    extractRemoteSession faults self w = (r, w') /\
    trace w' =
      trace w ++ StoreSessionExists (Some name) ::
      match fs_get dir (disk w) with
      | Some _ => [FsRm dir (rmMaxRetries self)]
      | None => []
      end ++
      StoreExtract (Some name) (path_join (dataPath self) (name ++ ".zip")%string)
      :: rest /\
    ((rest = [] /\
      r = Throw (StoreFailure
                   (StoreExtract (Some name)
                      (path_join (dataPath self) (name ++ ".zip")%string)))) \/
     (rest = [UnzipExtract (path_join (dataPath self) (name ++ ".zip")%string) dir] /\
      r = Throw (ArchiveFailure
                   (UnzipExtract (path_join (dataPath self) (name ++ ".zip")%string)
                      dir))) \/
     (rest = [UnzipExtract (path_join (dataPath self) (name ++ ".zip")%string) dir;
              FsUnlink (path_join (dataPath self) (name ++ ".zip")%string)] /\
      (r = Ok tt \/
       r = Throw (FsFailure
                    (FsUnlink (path_join (dataPath self) (name ++ ".zip")%string)))))) /\
    (fails faults
       (StoreExtract (Some name) (path_join (dataPath self) (name ++ ".zip")%string))
       = false ->
     (exists E, fs_get (dataPath self) (disk w) = Some (Dir E)) ->
     rest <> []) /\
    (r = Ok tt ->
     rest = [UnzipExtract (path_join (dataPath self) (name ++ ".zip")%string) dir;
             FsUnlink (path_join (dataPath self) (name ++ ".zip")%string)] /\
     fs_get (path_join (dataPath self) (name ++ ".zip")%string) (disk w') = None).
Proof.
  intros Hu Hn Hdir Hf Hk.
  assert (Hgone : forall w', extractRemoteSession faults self w = (Ok tt, w') ->
            fs_get (path_join (dataPath self) (name ++ ".zip")%string) (disk w') = None).
  { intros w' H.
    pose proof (extractRemoteSession_deletes_archive faults self w w' blob) as G.
    rewrite Hn in G. exact (G Hk H). }
  revert Hgone.
  unfold extractRemoteSession, bind.
  rewrite isValidPath_run, Hu, Hn, (store_sessionExists_run faults _ _ Hf).
  cbn [key_of remote add_trace js_str]. rewrite Hk.
  set (zn := (name ++ ".zip")%string).
  set (w1 := add_trace (StoreSessionExists (Some name)) w).
  assert (Hrm : exists u w2,
            (if match fs_get dir (disk w) with Some _ => true | None => false end
             then absorb (fs_rm faults (Some dir) (rmMaxRetries self))
             else ret tt) w1 = (Ok u, w2) /\
            trace w2 =
              trace w ++ StoreSessionExists (Some name) ::
              match fs_get dir (disk w) with
              | Some _ => [FsRm dir (rmMaxRetries self)]
              | None => []
              end /\
            remote w2 = remote w /\
            ((exists E, fs_get (dataPath self) (disk w) = Some (Dir E)) ->
             exists E', fs_get (dataPath self) (disk w2) = Some (Dir E'))).
  { destruct (fs_get dir (disk w)).
    - rewrite absorb_run by auto with settles. do 2 eexists. split; [reflexivity|].
      split; [|split].
      + rewrite fs_rm_trace. unfold w1. cbn [trace add_trace].
        now rewrite <- app_assoc.
      + rewrite fs_rm_run. now destruct (Nat.ltb _ _).
      + intros (E & HE). rewrite fs_rm_run.
        destruct (Nat.ltb _ _); cbn [snd disk set_disk add_trace w1].
        * now exists E.
        * subst dir. unfold path_join.
          rewrite (fs_remove_focus (dataPath self) [name] (disk w) (Dir E)
                     ltac:(discriminate) HE).
          cbn [fs_remove]. eexists. reflexivity.
    - exists tt, w1. split; [reflexivity|]. split; [reflexivity|].
      split; [reflexivity|]. intros H. exact H. }
  destruct Hrm as (u & w2 & -> & Ht2 & Hr2 & Hd2).
  pose proof (fetch_and_unpack_run faults self dir (path_join (dataPath self) zn) w2 Hu)
    as (r & w' & rest & Hrun & Ht & Hrest & Hprog).
  rewrite Hn in Hrun, Ht, Hprog, Hrest. unfold bind in Hrun. rewrite Hrun.
  intros Hgone. exists r, w', rest. split; [reflexivity|]. split.
  { rewrite Ht, Ht2, <- app_assoc. reflexivity. }
  split; [exact Hrest|]. split.
  { intros Hfe HE. destruct (Hd2 HE) as (E' & HE').
    rewrite <- Hr2 in Hk.
    destruct (store_extract_ok faults name blob (dataPath self) zn E' w2 Hfe Hk HE')
      as (w3 & Hx).
    exact (Hprog w3 Hx). }
  intros ->. split; [|now apply Hgone].
  destruct Hrest as [[_ H]|[[_ H]|[H _]]]; try discriminate H. exact H.
Qed.

End RecoveryBranches.

Lemma path_eqb_refl (p : path) : path_eqb p p = true.
Proof. unfold path_eqb. now destruct (list_eq_dec string_dec p p). Qed.




(** ** The round trip through staging, archive and extraction *)

(** *** Placing an entry in a subdirectory of the data directory *)

Lemma install_child (sub k : string) (c : node) (E st : entries) :
  alist_get sub E = Some (Dir st) \/ (alist_get sub E = None /\ st = []) ->
  alist_get k st = None ->
  exists E',
    fs_install [sub; k] c (Dir E) = Some (Dir E') /\
    alist_get sub E' = Some (Dir (alist_set k c st)) /\
    forall x, x <> sub -> alist_get x E' = alist_get x E.
Proof.
  intros Hsub Hk. unfold fs_install. cbn [removelast].
  rewrite fs_mkdirp_cons.
  assert (Hc : match alist_get sub E with Some c0 => c0 | None => Dir [] end = Dir st).
  { destruct Hsub as [-> | [-> ->]]; reflexivity. }
  rewrite Hc. cbn [fs_mkdirp].
  cbn [fs_get]. rewrite alist_get_set_same. cbn [fs_get]. rewrite Hk.
  rewrite fs_put_cons, alist_get_set_same. cbn [fs_put].
  eexists. split; [reflexivity|]. split.
  - now rewrite alist_get_set_same.
  - intros x Hx. now rewrite !alist_get_set_other.
Qed.

(** *** The names the class puts in the data directory are distinct *)

Lemma initialized_shape (self : RemoteAuth) :
  initialized self ->
  exists sn t,
    userDataDir self = Some (dataPath self ++ [sn]) /\
    sessionName self = Some sn /\
    tempDir self = dataPath self ++ [t] /\
    requiredDirs self = ["Default"; "IndexedDB"; "Local Storage"] /\
    t <> sn /\ t <> (sn ++ ".zip")%string /\ sn <> (sn ++ ".zip")%string.
Proof.
  intros (deps & cwd & o & self0 & Hc & ->).
  unfold constructor in Hc.
  destruct (negb (fs deps) && negb (unzipper deps) && negb (archiver deps));
    [discriminate|].
  destruct (truthy (opt_clientId o) && negb (idRegex_test (js_str (opt_clientId o))));
    [discriminate|].
  destruct (opt_backupSyncIntervalMs o) as [ms|]; [|discriminate].
  destruct ((ms =? 0)%Z || (ms <? 60000)%Z); [discriminate|].
  destruct (opt_store o) as [st|]; [|discriminate].
  inversion Hc. subst self0. clear Hc.
  eexists. eexists.
  split; [reflexivity|]. split; [reflexivity|]. split; [reflexivity|].
  split; [reflexivity|].
  unfold sessionDirName. cbn [clientId].
  destruct (truthy (opt_clientId o)); cbn.
  - split; [discriminate|]. split; [discriminate|].
    intros [= H]. revert H.
    apply (append_suffix_neq (js_str (opt_clientId o)) "." "zip").
  - repeat split; discriminate.
Qed.

(** *** The steps of the round trip when nothing fails *)

Section Roundtrip.

Variable faults : event -> nat.
Hypothesis quiet_env : forall e, faults e = 0%nat.

Lemma never_fails (e : event) : fails faults e = false.
Proof. unfold fails. now rewrite quiet_env. Qed.

Lemma createWriteStream_step dp zn E w :
  fs_get dp (disk w) = Some (Dir E) ->
  (forall es, alist_get zn E <> Some (Dir es)) ->
  exists w',
    fs_createWriteStream faults (dp ++ [zn]) w = (Ok true, w') /\
    fs_get dp (disk w') = Some (Dir (alist_set zn (File "") E)).
Proof.
  intros Hg Hz. unfold fs_createWriteStream, bind, log, ret.
  rewrite never_fails. cbn [disk add_trace].
  destruct (fs_put_focus dp [zn] (File "") (disk w) (Dir E)
              (Dir (alist_set zn (File "") E)) ltac:(discriminate) Hg eq_refl)
    as (d' & Hput & Hget).
  rewrite fs_get_app, Hg. cbn [fs_get].
  destruct (alist_get zn E) as [[| |es]|] eqn:Hk;
    try (rewrite Hput; eexists; split; [reflexivity|exact Hget]).
  exfalso. exact (Hz es eq_refl).
Qed.

Lemma mkdir_step dp t E w :
  fs_get dp (disk w) = Some (Dir E) ->
  alist_get t E = None ->
  exists w',
    fs_mkdir faults (Some (path_join dp t)) w = (Ok tt, w') /\
    fs_get dp (disk w') = Some (Dir (alist_set t (Dir []) E)).
Proof.
  intros Hg Ht. rewrite fs_mkdir_run, never_fails. cbn [disk add_trace].
  unfold path_join.
  assert (Hm : fs_mkdirp [t] (Dir E) = Some (Dir (alist_set t (Dir []) E))).
  { rewrite fs_mkdirp_cons, Ht. reflexivity. }
  destruct (fs_mkdirp_focus dp [t] (disk w) _ _ Hg Hm) as (d' & -> & Hget).
  eexists. split; [reflexivity|exact Hget].
Qed.

Lemma copy_required_step self dp sn t k n prof st E w :
  userDataDir self = Some (dp ++ [sn]) ->
  tempDir self = dp ++ [t] ->
  fs_get dp (disk w) = Some (Dir E) ->
  alist_get sn E = Some (Dir prof) ->
  alist_get k prof = Some n ->
  alist_get t E = Some (Dir st) ->
  alist_get k st = None ->
  exists w' E',
    copy_required faults self k w = (Ok tt, w') /\
    fs_get dp (disk w') = Some (Dir E') /\
    alist_get t E' = Some (Dir (alist_set k n st)) /\
    forall x, x <> t -> alist_get x E' = alist_get x E.
Proof.
  intros Hu Htmp Hg Hsn Hk Ht Hfree.
  unfold copy_required, bind, need. rewrite Hu, Htmp. unfold ret at 1.
  cbv beta iota zeta. unfold path_join. rewrite <- !app_assoc. cbn [app].
  assert (Hsrc : fs_get (dp ++ [sn; k]) (disk w) = Some n).
  { rewrite fs_get_app, Hg. cbn [fs_get]. now rewrite Hsn, Hk. }
  rewrite (isValidPath_true _ _ _ Hsrc). cbv beta iota.
  unfold fs_cp, bind, log. rewrite never_fails. cbn [disk add_trace].
  rewrite Hsrc.
  destruct (install_child t k n E st (or_introl Ht) Hfree) as (E' & Hi & Ht' & Hoth).
  destruct (fs_install_focus dp [t; k] n (disk w) _ _ ltac:(discriminate) Hg Hi)
    as (d' & -> & Hget).
  exists (set_disk d' (add_trace (FsCp (dp ++ [sn; k]) (dp ++ [t; k])) w)), E'.
  split; [reflexivity|]. split; [exact Hget|]. split; [exact Ht'|exact Hoth].
Qed.

Lemma archive_step dp t zn st E w :
  fs_get dp (disk w) = Some (Dir E) ->
  alist_get t E = Some (Dir st) ->
  exists w',
    archive_directory faults (dp ++ [t]) true (dp ++ [zn]) w = (Ok (dp ++ [zn]), w') /\
    fs_get dp (disk w') = Some (Dir (alist_set zn (Zip st) E)).
Proof.
  intros Hg Ht. unfold archive_directory, bind, log.
  rewrite never_fails. cbn [negb orb disk add_trace].
  rewrite fs_get_app, Hg. cbn [fs_get]. rewrite Ht.
  destruct (fs_put_focus dp [zn] (Zip st) (disk w) (Dir E)
              (Dir (alist_set zn (Zip st) E)) ltac:(discriminate) Hg eq_refl)
    as (d' & -> & Hget).
  eexists. split; [reflexivity|exact Hget].
Qed.

End Roundtrip.

Lemma fs_get_child_inv (p : path) (k : string) (d c : node) :
  fs_get (p ++ [k]) d = Some c ->
  exists E, fs_get p d = Some (Dir E) /\ alist_get k E = Some c.
Proof.
  rewrite fs_get_app.
  destruct (fs_get p d) as [[| |E]|]; try discriminate.
  cbn [fs_get]. destruct (alist_get k E) as [c'|] eqn:Hk; [|discriminate].
  intros [= ->]. now exists E.
Qed.

Lemma bot1_ready_initialized : initialized bot1_ready.
Proof.
  exists (require_optional all_installed), ["home"], bot1_options, bot1.
  split; reflexivity.
Qed.

(** The sample object once [afterAuthReady] has stored a timer handle. *)
Lemma scheduled_initialized (h : nat) : initialized (set_backupSync h bot1_ready).
Proof.
  exists (require_optional all_installed), ["home"], bot1_options, bot1.
  split; reflexivity.
Qed.
(** *** Composing steps that keep a relation *)

Section Keeps.

Variable R : World -> World -> Prop.
Hypothesis R_refl : forall w, R w w.
Hypothesis R_trans : forall w1 w2 w3, R w1 w2 -> R w2 w3 -> R w1 w3.

Lemma keeps_ret {A} (a : A) : keeps R (ret a).
Proof. intros w. apply R_refl. Qed.

Lemma keeps_throw {A} (e : error) : keeps R (@throw A e).
Proof. intros w. apply R_refl. Qed.

Lemma keeps_need {A} (x : option A) : keeps R (need x).
Proof. destruct x; intros w; apply R_refl. Qed.

Lemma keeps_bind {A B} (m : M A) (k : A -> M B) :
  keeps R m -> (forall a, keeps R (k a)) -> keeps R (bind m k).
Proof.
  intros Hm Hk w. unfold bind. specialize (Hm w).
  destruct (m w) as [[a|e|] w1]; cbn [snd] in *; [|exact Hm|exact Hm].
  eapply R_trans; [exact Hm|apply Hk].
Qed.

Lemma keeps_try_catch {A} (body handler : M A) :
  keeps R body -> keeps R handler -> keeps R (try_catch body handler).
Proof.
  intros Hb Hh w. unfold try_catch. specialize (Hb w).
  destruct (body w) as [[a|e|] w1]; cbn [snd] in *; [exact Hb| |exact Hb].
  eapply R_trans; [exact Hb|apply Hh].
Qed.

Lemma keeps_try_finally {A} (body : M A) (cleanup : M unit) :
  keeps R body -> keeps R cleanup -> keeps R (try_finally body cleanup).
Proof.
  intros Hb Hc w. unfold try_finally. specialize (Hb w).
  destruct (body w) as [[a|e|] w1]; cbn [snd] in *; [| |exact Hb];
    specialize (Hc w1); destruct (cleanup w1) as [[u|e'|] w2]; cbn [snd] in *;
    eapply R_trans; eassumption.
Qed.

Lemma keeps_absorb (m : M unit) : keeps R m -> keeps R (absorb m).
Proof. intros Hm. apply keeps_try_catch; [exact Hm|apply keeps_ret]. Qed.

Lemma keeps_for_of {A} (l : list A) (body : A -> M unit) :
  (forall a, keeps R (body a)) -> keeps R (for_of l body).
Proof.
  intros Hb. induction l as [|a l IH]; simpl; [apply keeps_ret|].
  apply keeps_bind; [apply Hb|intros _; exact IH].
Qed.

Lemma keeps_if {A} (b : bool) (m1 m2 : M A) :
  keeps R m1 -> keeps R m2 -> keeps R (if b then m1 else m2).
Proof. now destruct b. Qed.

End Keeps.

(** *** The calls of a cycle, seen from a path below the session directory *)

Section SessionDirectoryKept.

Variable faults : event -> nat.
Variable dp : path.
Variable sn : string.
Variable below : path.

Lemma same_at_refl w : same_at (dp ++ sn :: below) w w.
Proof. reflexivity. Qed.

Lemma same_at_trans w1 w2 w3 : same_at (dp ++ sn :: below) w1 w2 -> same_at (dp ++ sn :: below) w2 w3 -> same_at (dp ++ sn :: below) w1 w3.
Proof. unfold same_at. congruence. Qed.

Lemma keeps_log e : keeps (same_at (dp ++ sn :: below)) (log e).
Proof. intros w. reflexivity. Qed.

Lemma keeps_isValidPath p : keeps (same_at (dp ++ sn :: below)) (isValidPath p).
Proof. intros w. rewrite isValidPath_run. reflexivity. Qed.

Lemma keeps_fs_createWriteStream z :
  sn <> z -> keeps (same_at (dp ++ sn :: below)) (fs_createWriteStream faults (dp ++ [z])).
Proof.
  intros Hz w. unfold same_at, fs_createWriteStream, bind, log, ret.
  destruct (fails faults _); [reflexivity|]. cbn [disk add_trace].
  destruct (fs_get (dp ++ [z]) (disk w)) as [[| |]|];
    try reflexivity;
    (destruct (fs_put (dp ++ [z]) (File "") (disk w)) as [d'|] eqn:E;
     [|reflexivity]);
    cbn [snd disk set_disk]; exact (fs_get_put_diverge dp z sn [] below _ _ _ Hz E).
Qed.

Lemma keeps_fs_mkdir t :
  sn <> t -> keeps (same_at (dp ++ sn :: below)) (fs_mkdir faults (Some (dp ++ [t]))).
Proof.
  intros Ht w. unfold same_at. rewrite fs_mkdir_run.
  destruct (fails faults _); [reflexivity|]. cbn [disk add_trace].
  destruct (fs_mkdirp (dp ++ [t]) (disk w)) as [d'|] eqn:E; [|reflexivity].
  cbn [snd disk set_disk]. exact (fs_get_mkdirp_diverge dp t sn [] below _ _ Ht E).
Qed.

Lemma keeps_fs_cp src t k :
  sn <> t -> keeps (same_at (dp ++ sn :: below)) (fs_cp faults src (dp ++ [t; k])).
Proof.
  intros Ht w. unfold same_at, fs_cp, bind, log, throw.
  destruct (fails faults _); [reflexivity|]. cbn [disk add_trace].
  destruct (fs_get src (disk w)) as [n|]; [|reflexivity].
  destruct (fs_install (dp ++ [t; k]) n (disk w)) as [d'|] eqn:E; [|reflexivity].
  cbn [snd disk set_disk].
  exact (fs_get_install_diverge dp t sn [k] below _ _ _ Ht ltac:(discriminate) E).
Qed.

Lemma keeps_archive_directory src stream z :
  sn <> z -> keeps (same_at (dp ++ sn :: below)) (archive_directory faults src stream (dp ++ [z])).
Proof.
  intros Hz w. unfold same_at, archive_directory, bind, log, throw.
  destruct (negb stream); [reflexivity|].
  destruct (fails faults _); [reflexivity|]. cbn [disk add_trace].
  destruct (fs_get src (disk w)) as [[| |es]|]; try reflexivity.
  destruct (fs_put (dp ++ [z]) (Zip es) (disk w)) as [d'|] eqn:E; [|reflexivity].
  cbn [snd disk set_disk]. exact (fs_get_put_diverge dp z sn [] below _ _ _ Hz E).
Qed.

Lemma keeps_store_save st s :
  keeps (same_at (dp ++ sn :: below)) (store_save faults st s).
Proof.
  intros w. unfold same_at.
  destruct (store_save_run faults st s w) as (r & w' & -> & _ & Hd & _).
  cbn [snd]. now rewrite Hd.
Qed.

Lemma keeps_fs_unlink z :
  sn <> z -> keeps (same_at (dp ++ sn :: below)) (fs_unlink faults (dp ++ [z])).
Proof.
  intros Hz w. unfold same_at, fs_unlink, bind, log, throw.
  destruct (fails faults _); [reflexivity|]. cbn [disk add_trace].
  destruct (fs_get (dp ++ [z]) (disk w)) as [[| |]|]; try reflexivity;
    cbn [snd disk set_disk]; now apply fs_get_remove_diverge.
Qed.

Lemma keeps_fs_rm t r :
  sn <> t -> keeps (same_at (dp ++ sn :: below)) (fs_rm faults (Some (dp ++ [t])) r).
Proof.
  intros Ht w. unfold same_at. rewrite fs_rm_run.
  destruct (Nat.ltb _ _); [reflexivity|].
  cbn [snd disk set_disk add_trace]. now apply fs_get_remove_diverge.
Qed.

Lemma sk_ret {A} (a : A) : keeps (same_at (dp ++ sn :: below)) (ret a).
Proof. exact (keeps_ret _ same_at_refl a). Qed.

Lemma sk_throw {A} (e : error) : keeps (same_at (dp ++ sn :: below)) (@throw A e).
Proof. exact (keeps_throw _ same_at_refl e). Qed.

Lemma sk_need {A} (x : option A) : keeps (same_at (dp ++ sn :: below)) (need x).
Proof. exact (keeps_need _ same_at_refl x). Qed.

Lemma sk_bind {A B} (m : M A) (k : A -> M B) :
  keeps (same_at (dp ++ sn :: below)) m -> (forall a, keeps (same_at (dp ++ sn :: below)) (k a)) ->
  keeps (same_at (dp ++ sn :: below)) (bind m k).
Proof. exact (keeps_bind _ same_at_trans m k). Qed.

Lemma sk_try_finally {A} (body : M A) (cleanup : M unit) :
  keeps (same_at (dp ++ sn :: below)) body -> keeps (same_at (dp ++ sn :: below)) cleanup ->
  keeps (same_at (dp ++ sn :: below)) (try_finally body cleanup).
Proof. exact (keeps_try_finally _ same_at_trans body cleanup). Qed.

Lemma sk_absorb (m : M unit) : keeps (same_at (dp ++ sn :: below)) m -> keeps (same_at (dp ++ sn :: below)) (absorb m).
Proof. exact (keeps_absorb _ same_at_refl same_at_trans m). Qed.

Lemma sk_for_of {A} (l : list A) (body : A -> M unit) :
  (forall a, keeps (same_at (dp ++ sn :: below)) (body a)) -> keeps (same_at (dp ++ sn :: below)) (for_of l body).
Proof. exact (keeps_for_of _ same_at_refl same_at_trans l body). Qed.

Lemma keeps_finally_cleanup self t zp :
  tempDir self = dp ++ [t] ->
  sn <> t ->
  zp = None \/ zp = Some (dp ++ [(sn ++ ".zip")%string]) ->
  keeps (same_at (dp ++ sn :: below)) (finally_cleanup faults self zp).
Proof.
  intros Htmp Hst Hzp.
  assert (Hsz : sn <> (sn ++ ".zip")%string) by apply (append_suffix_neq sn "." "zip").
  unfold finally_cleanup, allSettled.
  apply sk_bind.
  - apply sk_absorb.
    destruct Hzp as [-> | ->]; [apply sk_ret|].
    apply sk_absorb. now apply keeps_fs_unlink.
  - intros _. apply sk_bind; [|intros _; apply sk_ret].
    apply sk_absorb. apply sk_absorb.
    rewrite Htmp. now apply keeps_fs_rm.
Qed.

Lemma keeps_copyByRequiredDirs self t :
  tempDir self = dp ++ [t] ->
  sn <> t ->
  keeps (same_at (dp ++ sn :: below)) (copyByRequiredDirs faults self).
Proof.
  intros Htmp Hst. unfold copyByRequiredDirs. rewrite Htmp.
  apply sk_bind; [now apply keeps_fs_mkdir|intros _].
  apply sk_for_of. intros dir. unfold copy_required.
  rewrite Htmp. unfold path_join. rewrite <- !app_assoc. cbn [app].
  apply sk_bind; [apply sk_need|intros base].
  apply sk_bind; [apply keeps_isValidPath|intros b].
  apply keeps_if; [|apply sk_ret].
  now apply keeps_fs_cp.
Qed.

Lemma keeps_compressSession self t :
  dataPath self = dp ->
  sessionName self = Some sn ->
  userDataDir self = Some (dp ++ [sn]) ->
  tempDir self = dp ++ [t] ->
  sn <> t ->
  keeps (same_at (dp ++ sn :: below)) (compressSession faults self).
Proof.
  intros Hdp Hn Hu Htmp Hst.
  assert (Hsz : sn <> (sn ++ ".zip")%string) by apply (append_suffix_neq sn "." "zip").
  unfold compressSession. rewrite Hdp, Hn. cbn [js_str]. unfold path_join.
  apply sk_bind; [now apply keeps_fs_createWriteStream|intros stream].
  apply sk_bind.
  - unfold copyByRequiredDirs. rewrite Htmp.
    apply sk_bind; [now apply keeps_fs_mkdir|intros _].
    apply sk_for_of. intros dir. unfold copy_required.
    rewrite Hu, Htmp. unfold path_join. rewrite <- !app_assoc. cbn [app].
    apply sk_bind; [apply sk_need|intros base].
    apply sk_bind; [apply keeps_isValidPath|intros b].
    apply keeps_if; [|apply sk_ret].
    now apply keeps_fs_cp.
  - intros _. rewrite Htmp. now apply keeps_archive_directory.
Qed.

(** The whole cycle, for an object whose staging directory and archive are
    siblings of its session directory. *)
Lemma keeps_storeRemoteSession self t options :
  dataPath self = dp ->
  sessionName self = Some sn ->
  userDataDir self = Some (dp ++ [sn]) ->
  tempDir self = dp ++ [t] ->
  sn <> t ->
  keeps (same_at (dp ++ sn :: below)) (storeRemoteSession faults self options).
Proof.
  intros Hdp Hn Hu Htmp Hst.
  unfold storeRemoteSession.
  apply sk_bind; [apply keeps_isValidPath|intros b].
  apply keeps_if; [apply sk_ret|].
  intros w. pose proof (keeps_compressSession self t Hdp Hn Hu Htmp Hst w) as Hc.
  pose proof (compressSession_path faults self w) as Hpath.
  destruct (compressSession faults self w) as [[zp|e|] w1]; cbn [snd] in Hc.
  - eapply same_at_trans; [exact Hc|].
    apply sk_try_finally.
    + unfold save_and_notify.
      apply sk_bind; [apply sk_need|intros session].
      apply sk_bind; [apply keeps_store_save|intros _].
      apply keeps_if; [apply keeps_log|apply sk_ret].
    + apply (keeps_finally_cleanup self t); trivial.
      right. rewrite (Hpath zp w1 eq_refl), Hdp, Hn. reflexivity.
  - eapply same_at_trans; [exact Hc|].
    apply sk_try_finally; [apply sk_throw|].
    apply (keeps_finally_cleanup self t); trivial. now left.
  - exact Hc.
Qed.

(** Extraction into a sibling directory, however far it gets. *)
Lemma keeps_unzip_extract src t :
  sn <> t ->
  keeps (same_at (dp ++ sn :: below)) (unzip_extract faults src (Some (dp ++ [t]))).
Proof.
  intros Ht w. unfold same_at, unzip_extract, bind, need, log, ret.
  cbv beta iota zeta. cbn [disk add_trace].
  destruct (fs_get src (disk w)) as [[| es |]|]; try reflexivity.
  unfold extract_writes.
  destruct (faults (UnzipExtract src (dp ++ [t]))) as [|k].
  - rewrite firstn_map.
    pose proof (fs_write_all_diverge dp t sn below
                  (firstn (flushed w) (files_of (Dir es))) (disk w) Ht) as H.
    destruct (fs_write_all _ (disk w)) as [[|] d]; cbn [snd disk set_disk set_inflight] in *;
      apply H; intros q f Hin; apply In_firstn in Hin;
      exact (files_of_Dir_nonempty es q f Hin).
  - cbn [snd disk set_disk]. rewrite firstn_map.
    apply fs_write_all_diverge; [exact Ht|].
    intros q f Hin. apply In_firstn in Hin.
    exact (files_of_Dir_nonempty es q f Hin).
Qed.

End SessionDirectoryKept.
(** ** What a cycle archives and what recovery restores *)

Lemma staged_of_keys (l : list string) (prof : entries) (k : string) :
  In k (map fst (staged_of l prof)) -> In k l.
Proof.
  induction l as [|a l IH]; simpl; [auto|].
  destruct (alist_get a prof); simpl; tauto.
Qed.

Lemma staged_of_NoDup (l : list string) (prof : entries) :
  NoDup l -> NoDup (map fst (staged_of l prof)).
Proof.
  induction 1 as [|a l Ha Hl IH]; simpl; [constructor|].
  destruct (alist_get a prof); [|exact IH].
  simpl. constructor; [|exact IH].
  intros Hin. apply Ha. exact (staged_of_keys _ _ _ Hin).
Qed.

(** A listed entry is bound in the session directory, to the same node. *)
Lemma staged_of_get (l : list string) (prof : entries) (k : string) (n : node) :
  In (k, n) (staged_of l prof) -> In k l /\ alist_get k prof = Some n.
Proof.
  induction l as [|a l IH]; simpl; [tauto|].
  destruct (alist_get a prof) as [m|] eqn:Ha.
  - intros [[= <- <-] | H]; [auto|]. destruct (IH H). auto.
  - intros H. destruct (IH H). auto.
Qed.

(** *** The local calls leave the store alone *)

Section LocalOnly.

Variable faults : event -> nat.

Lemma same_remote_refl w : same_remote w w.
Proof. reflexivity. Qed.

Lemma same_remote_trans w1 w2 w3 :
  same_remote w1 w2 -> same_remote w2 w3 -> same_remote w1 w3.
Proof. unfold same_remote. congruence. Qed.

Lemma local_isValidPath p : keeps same_remote (isValidPath p).
Proof. intros w. rewrite isValidPath_run. reflexivity. Qed.

Lemma local_fs_createWriteStream p : keeps same_remote (fs_createWriteStream faults p).
Proof.
  intros w. unfold same_remote, fs_createWriteStream, bind, log, ret.
  destruct (fails faults _); [reflexivity|]. cbn [disk add_trace].
  destruct (fs_get p (disk w)) as [[| |]|]; try reflexivity;
    now destruct (fs_put p (File "") (disk w)).
Qed.

Lemma local_fs_mkdir p : keeps same_remote (fs_mkdir faults p).
Proof.
  intros w. destruct p as [p|]; [|reflexivity].
  unfold same_remote. rewrite fs_mkdir_run.
  destruct (fails faults _); [reflexivity|].
  now destruct (fs_mkdirp p (disk w)).
Qed.

Lemma local_fs_cp src dest : keeps same_remote (fs_cp faults src dest).
Proof.
  intros w. unfold same_remote, fs_cp, bind, log, throw.
  destruct (fails faults _); [reflexivity|]. cbn [disk add_trace].
  destruct (fs_get src (disk w)) as [n|]; [|reflexivity].
  now destruct (fs_install dest n (disk w)).
Qed.

Lemma local_archive_directory src stream dest :
  keeps same_remote (archive_directory faults src stream dest).
Proof.
  intros w. unfold same_remote, archive_directory, bind, log, throw.
  destruct (negb stream); [reflexivity|].
  destruct (fails faults _); [reflexivity|]. cbn [disk add_trace].
  destruct (fs_get src (disk w)) as [[| |es]|]; try reflexivity.
  now destruct (fs_put dest (Zip es) (disk w)).
Qed.

Lemma local_fs_unlink p : keeps same_remote (fs_unlink faults p).
Proof.
  intros w. unfold same_remote, fs_unlink, bind, log, throw.
  destruct (fails faults _); [reflexivity|]. cbn [disk add_trace].
  now destruct (fs_get p (disk w)) as [[| |]|].
Qed.

Lemma local_fs_rm p r : keeps same_remote (fs_rm faults p r).
Proof.
  intros w. destruct p as [p|]; [|reflexivity].
  unfold same_remote. rewrite fs_rm_run.
  now destruct (Nat.ltb _ _).
Qed.

Lemma local_unzip_extract src dest : keeps same_remote (unzip_extract faults src dest).
Proof.
  intros w. destruct dest as [dest|]; [|reflexivity].
  unfold same_remote, unzip_extract, bind, need, ret, log. cbv beta iota zeta.
  cbn [disk add_trace].
  destruct (fs_get src (disk w)) as [[| es |]|]; try reflexivity.
  destruct (faults _); [|reflexivity].
  now destruct (fs_write_all _ (disk w)) as [[|] d].
Qed.

Lemma local_compressSession self : keeps same_remote (compressSession faults self).
Proof.
  unfold compressSession.
  apply (keeps_bind _ same_remote_trans); [apply local_fs_createWriteStream|intros stream].
  apply (keeps_bind _ same_remote_trans); [|intros _; apply local_archive_directory].
  unfold copyByRequiredDirs.
  apply (keeps_bind _ same_remote_trans); [apply local_fs_mkdir|intros _].
  apply (keeps_for_of _ same_remote_refl same_remote_trans). intros dir.
  unfold copy_required.
  apply (keeps_bind _ same_remote_trans);
    [apply (keeps_need _ same_remote_refl)|intros base].
  apply (keeps_bind _ same_remote_trans); [apply local_isValidPath|intros b].
  apply keeps_if; [apply local_fs_cp|apply (keeps_ret _ same_remote_refl)].
Qed.

Lemma local_finally_cleanup self zp : keeps same_remote (finally_cleanup faults self zp).
Proof.
  unfold finally_cleanup, allSettled.
  apply (keeps_bind _ same_remote_trans).
  - apply (keeps_absorb _ same_remote_refl same_remote_trans).
    destruct zp; [|apply (keeps_ret _ same_remote_refl)].
    apply (keeps_absorb _ same_remote_refl same_remote_trans), local_fs_unlink.
  - intros _. apply (keeps_bind _ same_remote_trans);
      [|intros _; apply (keeps_ret _ same_remote_refl)].
    do 2 apply (keeps_absorb _ same_remote_refl same_remote_trans).
    apply local_fs_rm.
Qed.

Lemma local_unCompressSession self zp : keeps same_remote (unCompressSession faults self zp).
Proof.
  unfold unCompressSession.
  apply (keeps_bind _ same_remote_trans); [apply local_unzip_extract|intros _].
  apply local_fs_unlink.
Qed.

End LocalOnly.

Section Staging.

Variable faults : event -> nat.
Hypothesis quiet_env : forall e, faults e = 0%nat.

(** A required subdirectory that does not exist is skipped. *)
Lemma copy_required_missing self base k w :
  userDataDir self = Some base ->
  fs_get (path_join base k) (disk w) = None ->
  copy_required faults self k w = (Ok tt, w).
Proof.
  intros Hu Hg. unfold copy_required, bind, need. rewrite Hu.
  unfold ret at 1. cbv beta iota zeta.
  rewrite isValidPath_run, Hg. reflexivity.
Qed.

Lemma stage_loop self dp sn t prof :
  userDataDir self = Some (dp ++ [sn]) ->
  tempDir self = dp ++ [t] ->
  t <> sn ->
  forall l st E w,
    NoDup l ->
    (forall k, In k l -> alist_get k st = None) ->
    fs_get dp (disk w) = Some (Dir E) ->
    alist_get sn E = Some (Dir prof) ->
    alist_get t E = Some (Dir st) ->
    exists w' E',
      for_of l (copy_required faults self) w = (Ok tt, w') /\
      fs_get dp (disk w') = Some (Dir E') /\
      alist_get t E' = Some (Dir (st ++ staged_of l prof)) /\
      forall x, x <> t -> alist_get x E' = alist_get x E.
Proof.
  intros Hu Htmp Hts l.
  induction l as [|k l IH]; intros st E w Hnd Hfree Hg Hsn Ht.
  - exists w, E. cbn. rewrite app_nil_r. auto.
  - inversion Hnd as [|? ? Hk Hnd']. subst.
    cbn [for_of staged_of]. unfold bind.
    destruct (alist_get k prof) as [n|] eqn:Hkp.
    + destruct (copy_required_step faults quiet_env self dp sn t k n prof st E w
                  Hu Htmp Hg Hsn Hkp Ht (Hfree k (or_introl eq_refl)))
        as (w1 & E1 & Hrun & Hg1 & Ht1 & Ho1).
      rewrite Hrun.
      destruct (IH (alist_set k n st) E1 w1 Hnd') as (w' & E' & Hrun' & Hg' & Ht' & Ho').
      * intros k' Hk'. rewrite alist_get_set_other.
        -- apply Hfree. now right.
        -- intros ->. contradiction.
      * exact Hg1.
      * rewrite Ho1 by congruence. exact Hsn.
      * exact Ht1.
      * exists w', E'. split; [exact Hrun'|]. split; [exact Hg'|]. split.
        -- rewrite Ht'. rewrite (alist_set_fresh k n st (Hfree k (or_introl eq_refl))).
           now rewrite <- app_assoc.
        -- intros x Hx. now rewrite Ho', Ho1.
    + rewrite (copy_required_missing self (dp ++ [sn]) k w Hu).
      * apply IH; trivial. intros k' Hk'. apply Hfree. now right.
      * unfold path_join. rewrite <- app_assoc, fs_get_app, Hg. cbn.
        now rewrite Hsn, Hkp.
Qed.

(** Staging and compression of whatever required subdirectories exist. *)
Lemma compressSession_listing self sn t prof E w :
  userDataDir self = Some (dataPath self ++ [sn]) ->
  sessionName self = Some sn ->
  tempDir self = dataPath self ++ [t] ->
  NoDup (requiredDirs self) ->
  t <> sn -> t <> (sn ++ ".zip")%string ->
  fs_get (dataPath self) (disk w) = Some (Dir E) ->
  alist_get sn E = Some (Dir prof) ->
  alist_get t E = None ->
  (forall es, alist_get (sn ++ ".zip")%string E <> Some (Dir es)) ->
  exists w1 E1,
    compressSession faults self w =
      (Ok (dataPath self ++ [(sn ++ ".zip")%string]), w1) /\
    fs_get (dataPath self) (disk w1) = Some (Dir E1) /\
    alist_get (sn ++ ".zip")%string E1 =
      Some (Zip (staged_of (requiredDirs self) prof)) /\
    alist_get t E1 = Some (Dir (staged_of (requiredDirs self) prof)) /\
    alist_get sn E1 = Some (Dir prof) /\
    remote w1 = remote w.
Proof.
  intros Hu Hn Htmp Hreq Hts Htz Hg Hsn Ht Hz.
  assert (Hst : sn <> t) by congruence.
  assert (Hsz : sn <> (sn ++ ".zip")%string)
    by apply (append_suffix_neq sn "." "zip").
  pose proof (local_compressSession faults self w) as Hrem.
  destruct (compressSession faults self w) as [r w1] eqn:Hrun.
  cbn [snd] in Hrem.
  unfold compressSession, bind in Hrun. rewrite Hn in Hrun.
  cbn [js_str] in Hrun. unfold path_join in Hrun.
  destruct (createWriteStream_step faults quiet_env (dataPath self) _ E w Hg Hz)
    as (wa & Ha & Hga).
  rewrite Ha in Hrun.
  unfold copyByRequiredDirs, bind in Hrun. rewrite Htmp in Hrun.
  destruct (mkdir_step faults quiet_env (dataPath self) t _ wa Hga) as (wb & Hb & Hgb).
  { now rewrite alist_get_set_other. }
  unfold path_join in Hb. rewrite Hb in Hrun.
  destruct (stage_loop self (dataPath self) sn t prof Hu Htmp Hts
              (requiredDirs self) [] _ wb Hreq (fun _ _ => eq_refl) Hgb)
    as (wc & Ec & Hc & Hgc & Htc & Hoc).
  { rewrite alist_get_set_other by exact Hst.
    rewrite alist_get_set_other by exact Hsz. exact Hsn. }
  { apply alist_get_set_same. }
  rewrite Hc in Hrun. cbn [app] in Htc.
  destruct (archive_step faults quiet_env (dataPath self) t (sn ++ ".zip")%string
              _ Ec wc Hgc Htc) as (wf & Hf & Hgf).
  rewrite Hf in Hrun. inversion Hrun. subst r w1.
  exists wf. eexists. split; [reflexivity|]. split; [exact Hgf|].
  split; [now rewrite alist_get_set_same|].
  split; [rewrite alist_get_set_other by congruence; exact Htc|].
  split; [|exact Hrem].
  rewrite alist_get_set_other by exact Hsz. rewrite Hoc by exact Hst.
  rewrite alist_get_set_other by exact Hst.
  rewrite alist_get_set_other by exact Hsz. exact Hsn.
Qed.

End Staging.
(** ** What becomes of the archive file *)

Section ArchiveFile.

Variable faults : event -> nat.

Lemma store_sessionExists_outcome s w :
  (exists b, fst (store_sessionExists faults s w) = Ok b) \/
  fst (store_sessionExists faults s w) =
    Throw (StoreFailure (StoreSessionExists s)).
Proof.
  unfold store_sessionExists, bind, log, throw.
  destruct (fails faults (StoreSessionExists s)); [now right|].
  cbn [remote add_trace]. left.
  destruct (key_of s (remote w)); eexists; reflexivity.
Qed.

Lemma local_store_sessionExists s w :
  remote (snd (store_sessionExists faults s w)) = remote w.
Proof.
  unfold store_sessionExists, bind, log, throw.
  destruct (fails faults (StoreSessionExists s)); [reflexivity|].
  cbn [remote add_trace]. now destruct (key_of s (remote w)).
Qed.

Lemma fs_mkdir_outcome p w :
  fst (fs_mkdir faults (Some p) w) = Ok tt \/
  fst (fs_mkdir faults (Some p) w) = Throw (FsFailure (FsMkdir p)).
Proof.
  rewrite fs_mkdir_run.
  destruct (fails faults (FsMkdir p)); [now right|].
  destruct (fs_mkdirp p (disk w)); [now left|now right].
Qed.

Lemma store_extract_fetched s dest w w' :
  store_extract faults s dest w = (Ok tt, w') ->
  exists blob,
    key_of s (remote w) = Some blob /\ fs_get dest (disk w') = Some blob.
Proof.
  unfold store_extract, bind, log, throw.
  destruct (fails faults (StoreExtract s dest)); [discriminate|].
  cbn [remote disk add_trace].
  destruct (key_of s (remote w)) as [blob|]; [|discriminate].
  destruct (fs_put dest blob (disk w)) as [d|] eqn:Hput; [|discriminate].
  intros [= <-]. exists blob. split; [reflexivity|].
  exact (fs_get_put_same _ _ _ _ Hput).
Qed.

(** A deletion that fails leaves the disk alone. *)
Lemma fs_unlink_failed p e w w' :
  fs_unlink faults p w = (Throw e, w') -> disk w' = disk w.
Proof.
  unfold fs_unlink, bind, log, throw.
  destruct (fails faults (FsUnlink p)); [now intros [= _ <-]|].
  cbn [disk add_trace].
  destruct (fs_get p (disk w)) as [[| |]|]; try discriminate;
    now intros [= _ <-].
Qed.

(** A compression that rejects has not written the archive. *)
Lemma archive_directory_failed src stream dest e w w' :
  archive_directory faults src stream dest w = (Throw e, w') -> disk w' = disk w.
Proof.
  unfold archive_directory, bind, log, throw.
  destruct (negb stream); [discriminate|].
  destruct (fails faults _); [now intros [= _ <-]|]. cbn [disk add_trace].
  destruct (fs_get src (disk w)) as [[| |es]|]; try (now intros [= _ <-]).
  destruct (fs_put dest (Zip es) (disk w)); [discriminate|now intros [= _ <-]].
Qed.

Lemma fs_createWriteStream_opened p w w' :
  fs_createWriteStream faults p w = (Ok true, w') ->
  fs_get p (disk w') = Some (File "").
Proof.
  unfold fs_createWriteStream, bind, log, ret.
  destruct (fails faults (FsCreateWriteStream p)); [discriminate|].
  cbn [disk add_trace].
  destruct (fs_get p (disk w)) as [[| |]|]; try discriminate;
    (destruct (fs_put p (File "") (disk w)) as [d|] eqn:Hput; [|discriminate]);
    intros [= <-]; exact (fs_get_put_same _ _ _ _ Hput).
Qed.

(** A recovery that fails at the decompression or at the deletion leaves
    the archive it fetched. *)
Lemma extractRemoteSession_leaves_archive self name blob e w w' :
  userDataDir self = Some (path_join (dataPath self) name) ->
  sessionName self = Some name ->
  key_of (Some name) (remote w) = Some blob ->
  extractRemoteSession faults self w = (Throw e, w') ->
  e = ArchiveFailure
        (UnzipExtract (path_join (dataPath self) (name ++ ".zip")%string)
           (path_join (dataPath self) name)) \/
  e = FsFailure (FsUnlink (path_join (dataPath self) (name ++ ".zip")%string)) ->
  fs_get (path_join (dataPath self) (name ++ ".zip")%string) (disk w') = Some blob.
Proof.
  intros Hu Hn Hk H He.
  assert (Hzn : (name ++ ".zip")%string <> name).
  { intros E. symmetry in E. exact (append_suffix_neq name "." "zip" E). }
  unfold extractRemoteSession, bind in H.
  rewrite isValidPath_run, Hu, Hn in H. cbn [js_str] in H.
  pose proof (store_sessionExists_outcome (Some name) w) as Oq.
  pose proof (local_store_sessionExists (Some name) w) as Rq.
  destruct (store_sessionExists faults (Some name) w) as [[b|e0|] w1];
    cbn [fst snd] in Oq, Rq.
  2:{ inversion H. subst. destruct Oq as [[b Oq]|Oq]; [discriminate Oq|].
      inversion Oq. subst. destruct He as [He|He]; discriminate He. }
  2:{ discriminate H. }
  set (rm := if match fs_get (path_join (dataPath self) name) (disk w) with
                | Some _ => true | None => false end
             then absorb (fs_rm faults (Some (path_join (dataPath self) name))
                            (rmMaxRetries self))
             else ret tt) in H.
  assert (Hrm : exists w2, rm w1 = (Ok tt, w2) /\ remote w2 = remote w1).
  { subst rm. destruct (fs_get _ (disk w)).
    - rewrite absorb_run by auto with settles. eexists. split; [reflexivity|].
      apply (local_fs_rm faults).
    - exists w1. split; reflexivity. }
  destruct Hrm as (w2 & Hrm & Rrm). rewrite Hrm in H.
  destruct b.
  2:{ pose proof (fs_mkdir_outcome (path_join (dataPath self) name) w2) as Om.
      rewrite H in Om. cbn [fst] in Om.
      destruct Om as [Om|Om]; [discriminate Om|]. inversion Om. subst.
      destruct He as [He|He]; discriminate He. }
  pose proof (store_extract_outcome faults (Some name)
                (path_join (dataPath self) (name ++ ".zip")%string) w2) as Ox.
  destruct (store_extract faults (Some name) _ w2) as [[[]|e0|] w3] eqn:Hx;
    cbn [fst] in Ox.
  2:{ inversion H. subst. destruct Ox as [Ox|Ox]; [discriminate Ox|].
      inversion Ox. subst. destruct He as [He|He]; discriminate He. }
  2:{ discriminate H. }
  apply store_extract_fetched in Hx as (blob' & Hk' & Hg3).
  rewrite Rrm, Rq in Hk'. rewrite Hk in Hk'. inversion Hk'. subst blob'.
  unfold unCompressSession, bind in H. rewrite Hu in H.
  pose proof (keeps_unzip_extract faults (dataPath self) (name ++ ".zip")%string []
                (path_join (dataPath self) (name ++ ".zip")%string) name Hzn w3)
    as Kz.
  unfold same_at, path_join in Kz, Hg3, H |- *.
  destruct (unzip_extract faults _ _ w3) as [[[]|e0|] w4]; cbn [snd] in Kz.
  - destruct (fs_unlink faults _ w4) as [[[]|e1|] w5] eqn:Hul;
      [discriminate H| |discriminate H].
    inversion H. subst.
    rewrite (fs_unlink_failed _ _ _ _ Hul), Kz. exact Hg3.
  - inversion H. subst. rewrite Kz. exact Hg3.
  - discriminate H.
Qed.

(** A cycle whose compression rejects after it has opened the write stream
    of the archive leaves the file that the stream created. *)
Lemma storeRemoteSession_leaves_archive self options sn t e w w0 w1 :
  userDataDir self = Some (dataPath self ++ [sn]) ->
  sessionName self = Some sn ->
  tempDir self = dataPath self ++ [t] ->
  t <> (sn ++ ".zip")%string ->
  session_dir_exists self w = true ->
  fs_createWriteStream faults (dataPath self ++ [(sn ++ ".zip")%string]) w
    = (Ok true, w0) ->
  compressSession faults self w = (Throw e, w1) ->
  fst (storeRemoteSession faults self options w) = Throw e /\
  fs_get (dataPath self ++ [(sn ++ ".zip")%string])
    (disk (snd (storeRemoteSession faults self options w))) = Some (File "").
Proof.
  intros Hu Hn Htmp Htz Hdir Hcws Hc.
  assert (Hzt : (sn ++ ".zip")%string <> t) by congruence.
  pose proof (fs_createWriteStream_opened _ _ _ Hcws) as Hg0.
  assert (Hg1 : fs_get (dataPath self ++ [(sn ++ ".zip")%string]) (disk w1) =
                Some (File "")).
  { unfold compressSession, bind in Hc. rewrite Hn in Hc. cbn [js_str] in Hc.
    unfold path_join in Hc. rewrite Hcws in Hc.
    pose proof (keeps_copyByRequiredDirs faults (dataPath self)
                  (sn ++ ".zip")%string [] self t Htmp Hzt w0) as Kc.
    unfold same_at in Kc.
    destruct (copyByRequiredDirs faults self w0) as [[[]|e0|] w2];
      cbn [snd] in Kc.
    - rewrite (archive_directory_failed _ _ _ _ _ _ Hc), Kc. exact Hg0.
    - inversion Hc. subst. rewrite Kc. exact Hg0.
    - discriminate Hc. }
  unfold storeRemoteSession, bind. rewrite isValidPath_run.
  unfold session_dir_exists in Hdir. rewrite Hdir. cbn [negb]. rewrite Hc.
  unfold try_finally, throw.
  pose proof (keeps_finally_cleanup faults (dataPath self) (sn ++ ".zip")%string []
                self t None Htmp Hzt (or_introl eq_refl) w1) as Kf.
  unfold same_at in Kf.
  destruct (finally_cleanup_none faults self w1) as (w' & Hf & _).
  assert (Hw : w' = snd (finally_cleanup faults self None w1)) by (now rewrite Hf).
  rewrite Hf. cbn [fst snd]. split; [reflexivity|].
  rewrite Hw. etransitivity; [exact Kf|exact Hg1].
Qed.

End ArchiveFile.

(** C7, as worded, fails: when the record fetched during recovery is not a
    readable archive, decompression rejects, recovery stops there and the
    fetched file stays on disk. *)
Lemma archive_left_when_recovery_fails :
  ~ archive_gone_after_recovery no_faults bot1_ready corrupt_world.
Proof.
  unfold archive_gone_after_recovery. vm_compute. discriminate.
Qed.

(** C7, amended. The archive is deleted by the operation that created it
    when that operation gets as far as its deletion step, and only then.
    In a backup cycle whose compression returned the archive, the archive
    is gone after the cycle whether the save succeeded or raised, provided
    the deletion itself does not fail (its failure is absorbed).  In a
    recovery that fetches a record and completes, the fetched archive is
    gone; in particular it is deleted after a successful decompression.  A
    recovery that ends with the error of the decompression, or with the
    error of the deletion, leaves the fetched archive on disk.  A backup
    cycle whose compression rejects after the write stream of the archive
    was opened ends with the error of the compression and leaves the file
    of that stream on disk. *)
Theorem archive_deleted_after_use :
  forall faults self w,
    (forall options p n zp w1,
       userDataDir self = Some p ->
       fs_get p (disk w) = Some n ->
       compressSession faults self w = (Ok zp, w1) ->
       fails faults (FsUnlink zp) = false ->
       fs_get zp (disk (snd (storeRemoteSession faults self options w))) = None) /\
    (forall blob w',
       key_of (sessionName self) (remote w) = Some blob ->
       extractRemoteSession faults self w = (Ok tt, w') ->
       fs_get (path_join (dataPath self) (js_str (sessionName self) ++ ".zip")%string)
         (disk w') = None) /\
    (forall name blob e w',
       userDataDir self = Some (path_join (dataPath self) name) ->
       sessionName self = Some name ->
       key_of (Some name) (remote w) = Some blob ->
       extractRemoteSession faults self w = (Throw e, w') ->
       e = ArchiveFailure
             (UnzipExtract (path_join (dataPath self) (name ++ ".zip")%string)
                (path_join (dataPath self) name)) \/
       e = FsFailure (FsUnlink (path_join (dataPath self) (name ++ ".zip")%string)) ->
       fs_get (path_join (dataPath self) (name ++ ".zip")%string) (disk w')
         = Some blob) /\
    (forall options e w0 w1,
       initialized self ->
       session_dir_exists self w = true ->
       fs_createWriteStream faults
         (path_join (dataPath self) (js_str (sessionName self) ++ ".zip")%string) w
         = (Ok true, w0) ->
       compressSession faults self w = (Throw e, w1) ->
       fst (storeRemoteSession faults self options w) = Throw e /\
       exists data,
         fs_get (path_join (dataPath self) (js_str (sessionName self) ++ ".zip")%string)
           (disk (snd (storeRemoteSession faults self options w)))
           = Some (File data)).
Proof.
  intros faults self w. split; [|split; [|split]].
  - intros options p n zp w1 Hu Hp Hc Hf.
    destruct (compressSession_ok faults self w zp w1 Hc) as (Hz & es & Hg).
    assert (Hne : zp <> []) by (rewrite Hz; apply path_join_nonempty).
    unfold storeRemoteSession, bind.
    rewrite Hu, (isValidPath_true _ _ _ Hp). simpl. rewrite Hc.
    rewrite try_finally_world by apply settles_save_and_notify.
    apply (finally_cleanup_deletes faults self zp es); trivial.
    now rewrite save_and_notify_disk.
  - intros blob w' Hk H.
    exact (extractRemoteSession_deletes_archive faults self w w' blob Hk H).
  - intros name blob e w' Hu Hn Hk H He.
    exact (extractRemoteSession_leaves_archive faults self name blob e w w'
             Hu Hn Hk H He).
  - intros options e w0 w1 Hinit Hdir Hcws Hc.
    destruct (initialized_shape self Hinit)
      as (sn & t & Hu & Hn & Ht & _ & _ & Htz & _).
    rewrite Hn in Hcws |- *. cbn [js_str] in Hcws |- *.
    unfold path_join in Hcws |- *.
    destruct (storeRemoteSession_leaves_archive faults self options sn t e w w0 w1
                Hu Hn Ht Htz Hdir Hcws Hc) as (Hr & Hg).
    split; [exact Hr|]. exists "". exact Hg.
Qed.

Lemma archive_deleted_after_use_witness :
  fs_get ["srv"; "auth"; "RemoteAuth-bot1.zip"]
    (disk (snd (storeRemoteSession save_rejected bot1_ready None live_world))) = None /\
  fs_get ["srv"; "auth"; "RemoteAuth-bot1.zip"]
    (disk (snd (extractRemoteSession no_faults bot1_ready saved_world))) = None /\
  fs_get ["srv"; "auth"; "RemoteAuth-bot1.zip"]
    (disk (snd (extractRemoteSession no_faults bot1_ready corrupt_world)))
    = Some (File "garbage") /\
  (fst (storeRemoteSession cp_fails bot1_ready None live_world)
     = Throw (FsFailure (FsCp ["srv"; "auth"; "RemoteAuth-bot1"; "Default"]
                           ["srv"; "auth"; "wwebjs_temp_session_bot1"; "Default"])) /\
   exists data,
     fs_get ["srv"; "auth"; "RemoteAuth-bot1.zip"]
       (disk (snd (storeRemoteSession cp_fails bot1_ready None live_world)))
       = Some (File data)).
Proof.
  split; [|split; [|split]].
  - apply (proj1 (archive_deleted_after_use save_rejected bot1_ready live_world)
             None ["srv"; "auth"; "RemoteAuth-bot1"] profile
             ["srv"; "auth"; "RemoteAuth-bot1.zip"]
             (snd (compressSession save_rejected bot1_ready live_world)));
      vm_compute; reflexivity.
  - apply (proj1 (proj2 (archive_deleted_after_use no_faults bot1_ready saved_world))
             (Zip [])); vm_compute; reflexivity.
  - apply (proj1 (proj2 (proj2
                    (archive_deleted_after_use no_faults bot1_ready corrupt_world)))
             "RemoteAuth-bot1" (File "garbage")
             (ArchiveFailure
                (UnzipExtract ["srv"; "auth"; "RemoteAuth-bot1.zip"]
                   ["srv"; "auth"; "RemoteAuth-bot1"]))).
    + reflexivity.
    + reflexivity.
    + reflexivity.
    + vm_compute. reflexivity.
    + left. reflexivity.
  - apply (proj2 (proj2 (proj2
                    (archive_deleted_after_use cp_fails bot1_ready live_world)))
             None
             (FsFailure (FsCp ["srv"; "auth"; "RemoteAuth-bot1"; "Default"]
                           ["srv"; "auth"; "wwebjs_temp_session_bot1"; "Default"]))
             (snd (fs_createWriteStream cp_fails
                     ["srv"; "auth"; "RemoteAuth-bot1.zip"] live_world))
             (snd (compressSession cp_fails bot1_ready live_world))).
    + exact bot1_ready_initialized.
    + reflexivity.
    + vm_compute. reflexivity.
    + vm_compute. reflexivity.
Defined.

(** ** Extraction, up to its last write *)

Section Extraction.

Variable faults : event -> nat.

(** Decompression of an archive into an absent or empty session
    directory: the promise resolves, the archive is deleted, and once the
    writes in flight are done the session directory holds what extraction
    recreates of the archive. *)
Lemma unCompressSession_settled self sn es E w :
  userDataDir self = Some (dataPath self ++ [sn]) ->
  sn <> (sn ++ ".zip")%string ->
  faults (UnzipExtract (dataPath self ++ [(sn ++ ".zip")%string])
            (dataPath self ++ [sn])) = 0%nat ->
  fails faults (FsUnlink (dataPath self ++ [(sn ++ ".zip")%string])) = false ->
  well_named (Dir es) = true ->
  inflight w = [] ->
  fs_get (dataPath self) (disk w) = Some (Dir E) ->
  alist_get (sn ++ ".zip")%string E = Some (Zip es) ->
  alist_get sn E = None \/ alist_get sn E = Some (Dir []) ->
  exists w' E',
    unCompressSession faults self (dataPath self ++ [(sn ++ ".zip")%string]) w
      = (Ok tt, w') /\
    fs_get (dataPath self) (disk (settle w')) = Some (Dir E') /\
    alist_get sn E' =
      match extracted (Dir es) with
      | Some n => Some n
      | None => alist_get sn E
      end /\
    alist_get (sn ++ ".zip")%string E' = None /\
    (forall x, x <> sn -> x <> (sn ++ ".zip")%string ->
               alist_get x E' = alist_get x E) /\
    remote (settle w') = remote w.
Proof.
  intros Hu Hsz Hfz Hful Hwf Hinf Hg Hz Hsub.
  set (zn := (sn ++ ".zip")%string) in *.
  set (files := files_of (Dir es)).
  set (p := flushed w).
  assert (Hzs : zn <> sn) by congruence.
  assert (Hne : forall q f, In (q, f) files -> q <> [])
    by exact (files_of_Dir_nonempty es).
  pose proof (fs_write_all_files (Dir es) Hwf es eq_refl [] (fun _ _ => eq_refl))
    as Hall.
  cbn [app] in Hall. fold files in Hall.
  rewrite <- (firstn_skipn p files) in Hall.
  apply fs_write_all_split in Hall as (c1 & H1 & H2).
  assert (Hc0 : match alist_get sn E with Some c => c | None => Dir [] end = Dir [])
    by (destruct Hsub as [-> | ->]; reflexivity).
  (* the files written until [finish] *)
  destruct (fs_write_all_entry sn (firstn p files) E c1) as (E3 & W3 & S3 & O3).
  { intros q f Hin. apply In_firstn in Hin. exact (Hne q f Hin). }
  { rewrite Hc0. exact H1. }
  destruct (fs_write_all_focus _ (dataPath self) (disk w) (Dir E) (Dir E3)
              (under_nonempty sn (firstn p files)) Hg W3) as (d3 & Wd3 & G3).
  rewrite under_under in Wd3.
  (* the deletion of the archive *)
  pose proof (fs_remove_focus (dataPath self) [zn] d3 (Dir E3)
                ltac:(discriminate) G3) as G4.
  cbn [fs_remove] in G4.
  (* the files written after that *)
  assert (Hc1 : match alist_get sn (alist_del zn E3) with
                | Some c => c | None => Dir [] end = c1).
  { rewrite alist_get_del_other by congruence. rewrite S3.
    destruct (firstn p files); [|reflexivity].
    cbn in H1. inversion H1. exact Hc0. }
  destruct (fs_write_all_entry sn (skipn p files) (alist_del zn E3)
              (Dir (extracted_entries es))) as (E5 & W5 & S5 & O5).
  { intros q f Hin. apply In_skipn in Hin. exact (Hne q f Hin). }
  { rewrite Hc1. exact H2. }
  clear Hc1.
  destruct (fs_write_all_focus _ (dataPath self)
              (fs_remove (dataPath self ++ [zn]) d3) (Dir (alist_del zn E3)) (Dir E5)
              (under_nonempty sn (skipn p files)) G4 W5) as (d5 & Wd5 & G5).
  rewrite under_under in Wd5.
  (* the run *)
  destruct (unCompressSession faults self (dataPath self ++ [zn]) w)
    as [r w'] eqn:Hrun.
  unfold unCompressSession, bind, unzip_extract, need in Hrun.
  rewrite Hu in Hrun.
  unfold ret at 1, bind, log in Hrun. cbv beta iota zeta in Hrun.
  cbn [disk add_trace flushed inflight] in Hrun.
  rewrite fs_get_app, Hg in Hrun. cbn [fs_get] in Hrun.
  rewrite Hz, Hfz in Hrun. unfold extract_writes in Hrun.
  fold files in Hrun. fold p in Hrun.
  rewrite firstn_map, skipn_map, Wd3, Hinf in Hrun. cbn [app] in Hrun.
  unfold fs_unlink, bind, log in Hrun. rewrite Hful in Hrun.
  cbn [disk add_trace set_disk set_inflight] in Hrun.
  rewrite fs_get_app, G3 in Hrun. cbn [fs_get] in Hrun.
  rewrite O3, Hz in Hrun by exact Hzs.
  inversion Hrun. subst r w'. clear Hrun.
  eexists. exists E5. split; [reflexivity|].
  unfold settle.
  cbn [disk inflight remote set_disk set_inflight add_trace].
  rewrite Wd5. cbn [snd].
  split; [exact G5|]. split; [|split; [|split; [|reflexivity]]].
  - rewrite S5.
    assert (Hfiles : firstn p files ++ skipn p files = files)
      by apply firstn_skipn.
    destruct (skipn p files) as [|x l] eqn:Hsk.
    + cbn in H2. assert (Hc : c1 = Dir (extracted_entries es)) by congruence.
      rewrite alist_get_del_other by congruence. rewrite S3, Hc.
      rewrite app_nil_r in Hfiles.
      destruct (firstn p files) as [|y l'] eqn:Hfi.
      * rewrite (proj2 (extracted_none_iff (Dir es))); [reflexivity|].
        symmetry. exact Hfiles.
      * rewrite extracted_some; [reflexivity|].
        fold files. rewrite <- Hfiles. discriminate.
    + rewrite extracted_some; [reflexivity|].
      fold files. rewrite <- Hfiles. intros Hnil.
      apply app_eq_nil in Hnil as (_ & Hnil). discriminate Hnil.
  - rewrite O5 by exact Hzs. apply alist_get_del_same.
  - intros x Hxs Hxz. rewrite O5 by exact Hxs.
    rewrite alist_get_del_other by exact Hxz. now apply O3.
Qed.

End Extraction.




(** ** The scenarios of the specification, run on the sample session *)

(** Scenario B: the store holds an archive; recovery removes the stale
    directory, fetches, unpacks and deletes the archive.  In the sample
    world extraction signals the end before it has written a file: when
    recovery returns there is no session directory yet, and once the writes
    are done it holds the file of the archive; the two required
    subdirectories that are empty in the archive are not recreated. *)
Example recovery_restores_record :
  let w := world_of live_disk
             [("RemoteAuth-bot1",
               Zip [("Default", Dir [("Cookies", File "new")]);
                    ("IndexedDB", Dir []);
                    ("Local Storage", Dir [])])] in
  let w' := snd (beforeBrowserInitialized no_faults bot1 w) in
  fst (beforeBrowserInitialized no_faults bot1 w) = Ok bot1_ready /\
  trace w' =
    [StoreSessionExists (Some "RemoteAuth-bot1");
     FsRm ["srv"; "auth"; "RemoteAuth-bot1"] 4;
     StoreExtract (Some "RemoteAuth-bot1") ["srv"; "auth"; "RemoteAuth-bot1.zip"];
     UnzipExtract ["srv"; "auth"; "RemoteAuth-bot1.zip"]
       ["srv"; "auth"; "RemoteAuth-bot1"];
     FsUnlink ["srv"; "auth"; "RemoteAuth-bot1.zip"]] /\
  disk w' = Dir [("srv", Dir [("auth", Dir [])])] /\
  disk (settle w') =
    Dir [("srv",
          Dir [("auth",
                Dir [("RemoteAuth-bot1",
                      Dir [("Default", Dir [("Cookies", File "new")])])])])].
Proof. vm_compute. repeat split. Qed.

(** Scenario D: on disconnect the record is deleted, the session directory,
    whose removal fails twice and then succeeds within the four retries, is
    removed, and no error is raised. *)
Example disconnect_with_busy_directory :
  let w := world_of live_disk [("RemoteAuth-bot1", Zip [])] in
  disconnect rm_busy_twice bot1_ready w =
    (Ok tt,
     mkWorld bare_disk [] [] 0 None
       [StoreSessionExists (Some "RemoteAuth-bot1");
        StoreDelete (Some "RemoteAuth-bot1");
        FsRm ["srv"; "auth"; "RemoteAuth-bot1"] 4;
        ClearInterval None] 0 []).
Proof. vm_compute. reflexivity. Qed.

(** * Further properties of the class *)

(** ** Construction *)

(** X1. The constructor accepts a set of options exactly when the three
    optional modules are installed, the identifier is absent, empty or
    matches [idRegex], the backup interval is a number of at least 60000 and
    a store is supplied. *)
Theorem constructor_ok_iff :
  forall installed cwd o,
    (exists self, constructor (require_optional installed) cwd o = Ok self) <->
    (installed "fs-extra" = true /\
     installed "unzipper" = true /\
     installed "archiver" = true) /\
    (truthy (opt_clientId o) = false \/
     idRegex_test (js_str (opt_clientId o)) = true) /\
    (exists ms, opt_backupSyncIntervalMs o = Some ms /\ (60000 <= ms)%Z) /\
    opt_store o <> None.
Proof.
  intros installed cwd o. unfold constructor, require_optional. split.
  - intros (self & H).
    destruct (installed "fs-extra"), (installed "unzipper"), (installed "archiver");
      try discriminate H.
    cbn [fs unzipper archiver negb andb] in H.
    destruct (truthy (opt_clientId o)) eqn:Ht;
      [destruct (idRegex_test (js_str (opt_clientId o))) eqn:Hr;
       [|discriminate H]|];
      cbn [negb andb] in H;
      (destruct (opt_backupSyncIntervalMs o) as [ms|]; [|discriminate H]);
      (destruct (Z.eqb_spec ms 0); [discriminate H|]);
      (destruct (Z.ltb_spec ms 60000); [discriminate H|]);
      cbn [orb] in H;
      (destruct (opt_store o); [|discriminate H]);
      (repeat split; auto; [exists ms; auto|discriminate]).
  - intros ((-> & -> & ->) & Hid & (ms & -> & Hms) & Hst).
    cbn [fs unzipper archiver negb andb].
    assert (Hc : truthy (opt_clientId o) &&
                 negb (idRegex_test (js_str (opt_clientId o))) = false).
    { destruct Hid as [-> | ->]; [reflexivity|]. apply andb_false_r. }
    rewrite Hc.
    destruct (Z.eqb_spec ms 0); [lia|].
    destruct (Z.ltb_spec ms 60000); [lia|]. cbn [orb].
    destruct (opt_store o); [|contradiction]. eexists. reflexivity.
Qed.

(** X2. With the modules installed and an acceptable identifier, a missing
    backup interval or one below 60000 is refused with the interval error
    whether or not a store is supplied; a missing store is reported only
    once the interval is valid. *)
Theorem constructor_interval_then_store :
  forall cwd o,
    truthy (opt_clientId o) = false \/
    idRegex_test (js_str (opt_clientId o)) = true ->
    (opt_backupSyncIntervalMs o = None \/
     (exists ms, opt_backupSyncIntervalMs o = Some ms /\ (ms < 60000)%Z) ->
     constructor (mkDeps true true true) cwd o = Throw InvalidBackupSyncIntervalMs) /\
    (forall ms,
       opt_backupSyncIntervalMs o = Some ms -> (60000 <= ms)%Z ->
       opt_store o = None ->
       constructor (mkDeps true true true) cwd o = Throw StoreRequired).
Proof.
  intros cwd o Hid. unfold constructor. cbn [fs unzipper archiver negb andb].
  assert (Hc : truthy (opt_clientId o) &&
               negb (idRegex_test (js_str (opt_clientId o))) = false).
  { destruct Hid as [-> | ->]; [reflexivity|]. apply andb_false_r. }
  rewrite Hc. split.
  - intros [-> | (ms & -> & Hlt)]; [reflexivity|].
    destruct (Z.ltb_spec ms 60000); [|lia]. now rewrite orb_true_r.
  - intros ms -> Hle ->.
    destruct (Z.eqb_spec ms 0); [lia|].
    destruct (Z.ltb_spec ms 60000); [lia|]. reflexivity.
Qed.

Lemma constructor_interval_then_store_witness :
  constructor (mkDeps true true true) ["home"]
    (mkOptions (Some "bot1") None None (Some 59999%Z) None) =
    Throw InvalidBackupSyncIntervalMs /\
  constructor (mkDeps true true true) ["home"]
    (mkOptions (Some "bot1") None None (Some 60000%Z) None) = Throw StoreRequired.
Proof.
  split.
  - apply (proj1 (constructor_interval_then_store ["home"]
                    (mkOptions (Some "bot1") None None (Some 59999%Z) None)
                    (or_intror eq_refl))).
    right. exists 59999%Z. split; [reflexivity|lia].
  - apply (proj2 (constructor_interval_then_store ["home"]
                    (mkOptions (Some "bot1") None None (Some 60000%Z) None)
                    (or_intror eq_refl)) 60000%Z eq_refl); [lia|reflexivity].
Defined.

(** *** Instances with different identifiers *)

Lemma append_length (a b : string) :
  String.length (a ++ b)%string = (String.length a + String.length b)%nat.
Proof. induction a as [|c a IH]; simpl; [reflexivity|now rewrite IH]. Qed.

Lemma append_cancel_r (a b s : string) :
  (a ++ s)%string = (b ++ s)%string -> a = b.
Proof.
  revert b. induction a as [|c a IH]; intros [|c' b] H; simpl in H.
  - reflexivity.
  - apply (f_equal String.length) in H. simpl in H.
    rewrite append_length in H. lia.
  - apply (f_equal String.length) in H. simpl in H.
    rewrite append_length in H. lia.
  - injection H as -> H. f_equal. now apply IH.
Qed.

Lemma all_chars_app (f : ascii -> bool) (a b : string) :
  all_chars f (a ++ b)%string = all_chars f a && all_chars f b.
Proof.
  induction a as [|c a IH]; simpl; [reflexivity|].
  now rewrite IH, andb_assoc.
Qed.

Lemma idRegex_test_all (s : string) :
  idRegex_test s = true -> all_chars id_class s = true.
Proof. destruct s; [discriminate|exact (fun H => H)]. Qed.

(** An accepted identifier does not end in [.zip]. *)
Lemma valid_id_not_zip (a b : string) :
  idRegex_test a = true -> a <> (b ++ ".zip")%string.
Proof.
  intros Ha ->. apply idRegex_test_all in Ha.
  rewrite all_chars_app in Ha. apply andb_true_iff in Ha as [_ Ha].
  discriminate Ha.
Qed.

(** What the constructor stores. *)
Lemma constructor_inv deps cwd o self :
  constructor deps cwd o = Ok self ->
  clientId self = opt_clientId o /\
  tempDir self =
    path_join (dataPath self) ("wwebjs_temp_session_" ++ js_str (opt_clientId o))%string /\
  (truthy (opt_clientId o) = true ->
   idRegex_test (js_str (opt_clientId o)) = true).
Proof.
  unfold constructor.
  destruct (negb (fs deps) && negb (unzipper deps) && negb (archiver deps));
    [discriminate|].
  destruct (truthy (opt_clientId o)) eqn:Ht.
  - destruct (idRegex_test (js_str (opt_clientId o))) eqn:Hr; [|discriminate].
    cbn [negb andb].
    destruct (opt_backupSyncIntervalMs o) as [ms|]; [|discriminate].
    destruct ((ms =? 0)%Z || (ms <? 60000)%Z); [discriminate|].
    destruct (opt_store o); [|discriminate].
    intros [= <-]. cbn. auto.
  - cbn [andb].
    destruct (opt_backupSyncIntervalMs o) as [ms|]; [|discriminate].
    destruct ((ms =? 0)%Z || (ms <? 60000)%Z); [discriminate|].
    destruct (opt_store o); [|discriminate].
    intros [= <-]. cbn. repeat split. discriminate.
Qed.

(** X3. Two instances built over the same data directory with different
    non-empty identifiers share none of their paths: the session directory,
    the staging directory and the archive of one are all different from
    those of the other. *)
Theorem distinct_clientIds_share_no_path :
  forall deps1 deps2 cwd1 cwd2 o1 o2 s1 s2 a b,
    constructor deps1 cwd1 o1 = Ok s1 ->
    constructor deps2 cwd2 o2 = Ok s2 ->
    dataPath s1 = dataPath s2 ->
    opt_clientId o1 = Some a -> a <> "" ->
    opt_clientId o2 = Some b -> b <> "" ->
    a <> b ->
    forall p, In p (owned_paths s1) -> ~ In p (owned_paths s2).
Proof.
  intros deps1 deps2 cwd1 cwd2 o1 o2 s1 s2 a b H1 H2 Hdp Ha Hae Hb Hbe Hab.
  destruct (constructor_inv _ _ _ _ H1) as (Hc1 & Ht1 & Hv1).
  destruct (constructor_inv _ _ _ _ H2) as (Hc2 & Ht2 & Hv2).
  rewrite Ha in Hc1, Ht1, Hv1. rewrite Hb in Hc2, Ht2, Hv2.
  assert (Hta : truthy (Some a) = true).
  { simpl. destruct (String.eqb_spec a ""); [contradiction|reflexivity]. }
  assert (Htb : truthy (Some b) = true).
  { simpl. destruct (String.eqb_spec b ""); [contradiction|reflexivity]. }
  specialize (Hv1 Hta). specialize (Hv2 Htb). cbn [js_str] in *.
  unfold owned_paths, sessionDirName. rewrite Hc1, Hc2, Hta, Htb, Ht1, Ht2.
  cbn [js_str]. rewrite <- Hdp.
  intros p [<- | [<- | [<- | []]]] [H | [H | [H | []]]];
    apply path_join_inj in H; cbn in H; try discriminate H;
    injection H as H.
  - now apply Hab.
  - symmetry in H. revert H. now apply valid_id_not_zip.
  - now apply Hab.
  - revert H. now apply valid_id_not_zip.
  - apply append_cancel_r in H. now apply Hab.
Qed.

Lemma distinct_clientIds_share_no_path_witness :
  ~ In ["srv"; "auth"; "RemoteAuth-bot1.zip"]
      (owned_paths
         (mkRemoteAuth RemoteStore (Some "bot2") 60000 ["srv"; "auth"]
            ["srv"; "auth"; "wwebjs_temp_session_bot2"]
            ["Default"; "IndexedDB"; "Local Storage"] 4 None None None)).
Proof.
  apply (distinct_clientIds_share_no_path
           (mkDeps true true true) (mkDeps true true true) ["home"] ["home"]
           bot1_options
           (mkOptions (Some "bot2") (Some ["srv"; "auth"]) (Some RemoteStore)
              (Some 60000%Z) None)
           bot1 _ "bot1" "bot2"); try reflexivity; try discriminate.
  right. right. left. reflexivity.
Defined.

(** ** Before the browser starts *)

Lemma path_eqb_neq (p q : path) : p <> q -> path_eqb p q = false.
Proof. unfold path_eqb. now destruct (list_eq_dec string_dec p q). Qed.

(** X4. When the hosting client was configured with a [userDataDir] other
    than the session directory of the strategy, [beforeBrowserInitialized]
    throws the incompatibility error before anything else happens: no call
    is made and the world is left as it was. *)
Theorem beforeBrowserInitialized_rejects_userDataDir :
  forall faults self w p,
    puppeteer_userDataDir w = Some p ->
    p <> path_join (dataPath self) (sessionDirName self) ->
    beforeBrowserInitialized faults self w = (Throw IncompatibleUserDataDir, w).
Proof.
  intros faults self w p Hp Hne. unfold beforeBrowserInitialized.
  cbv zeta. rewrite Hp, (path_eqb_neq _ _ Hne). reflexivity.
Qed.

Lemma beforeBrowserInitialized_rejects_userDataDir_witness :
  beforeBrowserInitialized no_faults bot1
    (set_puppeteer (Some ["tmp"; "profile"]) live_world) =
  (Throw IncompatibleUserDataDir, set_puppeteer (Some ["tmp"; "profile"]) live_world).
Proof.
  apply (beforeBrowserInitialized_rejects_userDataDir no_faults bot1
           (set_puppeteer (Some ["tmp"; "profile"]) live_world) ["tmp"; "profile"]).
  - reflexivity.
  - discriminate.
Defined.


Lemma store_sessionExists_rejected faults s w :
  fails faults (StoreSessionExists s) = true ->
  store_sessionExists faults s w =
    (Throw (StoreFailure (StoreSessionExists s)), add_trace (StoreSessionExists s) w).
Proof.
  intros Hf. unfold store_sessionExists, bind, log, throw. now rewrite Hf.
Qed.

(** X6. When the store rejects the existence query during recovery, the
    error is passed on and nothing else has happened: the stale session
    directory, which is only removed after the query, is still in place, and
    nothing was fetched or created. *)
Theorem recovery_stops_at_rejected_query :
  forall faults self w,
    fails faults (StoreSessionExists (sessionName self)) = true ->
    extractRemoteSession faults self w =
      (Throw (StoreFailure (StoreSessionExists (sessionName self))),
       add_trace (StoreSessionExists (sessionName self)) w).
Proof.
  intros faults self w Hf. unfold extractRemoteSession, bind.
  rewrite isValidPath_run, (store_sessionExists_rejected _ _ _ Hf). reflexivity.
Qed.

Lemma recovery_stops_at_rejected_query_witness :
  disk (snd (extractRemoteSession query_rejected bot1_ready live_world)) = live_disk.
Proof.
  rewrite (recovery_stops_at_rejected_query query_rejected bot1_ready live_world eq_refl).
  reflexivity.
Defined.

(** ** Readiness *)

(** X7. When the store rejects the existence query at readiness,
    [afterAuthReady] passes the error on: it waits for no delay, takes no
    backup and starts no timer. *)
Theorem afterAuthReady_stops_at_rejected_query :
  forall faults self w,
    fails faults (StoreSessionExists (sessionName self)) = true ->
    afterAuthReady faults self w =
      (Throw (StoreFailure (StoreSessionExists (sessionName self))),
       add_trace (StoreSessionExists (sessionName self)) w).
Proof.
  intros faults self w Hf. unfold afterAuthReady, bind.
  now rewrite (store_sessionExists_rejected _ _ _ Hf).
Qed.

Lemma afterAuthReady_stops_at_rejected_query_witness :
  timers (snd (afterAuthReady query_rejected bot1_ready live_world)) = [].
Proof.
  rewrite (afterAuthReady_stops_at_rejected_query query_rejected bot1_ready
             live_world eq_refl).
  reflexivity.
Defined.

(** ** Teardown *)

Lemma filter_idem {A} (f : A -> bool) (l : list A) :
  filter f (filter f l) = filter f l.
Proof.
  induction l as [|a l IH]; simpl; [reflexivity|].
  destruct (f a) eqn:E; simpl; [rewrite E|]; now rewrite ?IH.
Qed.

(** X8. [destroy] only stops the scheduler: it makes one [clearInterval]
    call on the stored handle, leaves the disk and the store as they are,
    cancels the timer with that handle and no other, and doing it again
    changes no timer. *)
Theorem destroy_only_stops_scheduler :
  forall self w,
    fst (destroy self w) = Ok tt /\
    disk (snd (destroy self w)) = disk w /\
    remote (snd (destroy self w)) = remote w /\
    trace (snd (destroy self w)) = trace w ++ [ClearInterval (backupSync self)] /\
    (forall t, In t (timers (snd (destroy self w))) <->
               In t (timers w) /\ backupSync self <> Some (fst t)) /\
    timers (snd (destroy self (snd (destroy self w)))) = timers (snd (destroy self w)).
Proof.
  intros self w. unfold destroy, clearInterval.
  cbn [fst snd disk remote trace timers next_timer add_trace set_timers].
  split; [reflexivity|]. split; [reflexivity|]. split; [reflexivity|].
  split; [reflexivity|]. split.
  - intros t. rewrite filter_In. split.
    + intros [Hin Hk]. split; [exact Hin|].
      destruct (backupSync self) as [h|]; [|discriminate].
      intros [= ->]. now rewrite Nat.eqb_refl in Hk.
    + intros [Hin Hne]. split; [exact Hin|].
      destruct (backupSync self) as [h|]; [|reflexivity].
      apply negb_true_iff, Nat.eqb_neq. intros E. apply Hne. now rewrite E.
  - apply filter_idem.
Qed.

Section Disconnect.

Variable faults : event -> nat.

Lemma store_delete_run s w :
  fails faults (StoreDelete s) = false ->
  exists w',
    store_delete faults s w = (Ok tt, w') /\
    key_of s (remote w') = None /\
    disk w' = disk w /\ timers w' = timers w /\ next_timer w' = next_timer w /\
    trace w' = trace w ++ [StoreDelete s].
Proof.
  intros Hf. unfold store_delete, bind, log, throw. rewrite Hf.
  destruct s as [x|]; eexists; (split; [reflexivity|]); cbn; repeat split.
  apply alist_get_del_same.
Qed.

(** What [deleteRemoteSession] leaves behind when the store cooperates. *)
Lemma deleteRemoteSession_run self w :
  fails faults (StoreSessionExists (sessionName self)) = false ->
  fails faults (StoreDelete (sessionName self)) = false ->
  exists w',
    deleteRemoteSession faults self w = (Ok tt, w') /\
    key_of (sessionName self) (remote w') = None /\
    disk w' = disk w /\ timers w' = timers w /\
    trace w' =
      trace w ++ StoreSessionExists (sessionName self) ::
      match key_of (sessionName self) (remote w) with
      | Some _ => [StoreDelete (sessionName self)]
      | None => []
      end.
Proof.
  intros Hq Hd. unfold deleteRemoteSession, bind.
  rewrite (store_sessionExists_run faults _ _ Hq).
  destruct (key_of (sessionName self) (remote w)) eqn:Hk.
  - destruct (store_delete_run (sessionName self)
                (add_trace (StoreSessionExists (sessionName self)) w) Hd)
      as (w' & -> & Hgone & Hdisk & Htim & _ & Htr).
    exists w'. split; [reflexivity|]. repeat split; trivial.
    rewrite Htr. cbn. now rewrite <- app_assoc.
  - eexists. split; [reflexivity|]. cbn. repeat split; trivial.
Qed.

End Disconnect.

(** X9. When the store answers the query and does not reject the delete,
    [disconnect] completes whatever the removal of the session directory
    does: afterwards the store holds no record of the session and no timer
    with the stored handle is active.  The calls are, in order, the query,
    the delete if there was a record, the removal if the directory existed,
    and [clearInterval].  When the removal stays within its retries the
    session directory is gone. *)
Theorem disconnect_releases_everything :
  forall faults self w dir,
    userDataDir self = Some dir ->
    dir <> [] ->
    fails faults (StoreSessionExists (sessionName self)) = false ->
    fails faults (StoreDelete (sessionName self)) = false ->
    exists w',
      disconnect faults self w = (Ok tt, w') /\
      key_of (sessionName self) (remote w') = None /\
      (forall t, In t (timers w') -> backupSync self <> Some (fst t)) /\
      trace w' =
        trace w ++ StoreSessionExists (sessionName self) ::
        match key_of (sessionName self) (remote w) with
        | Some _ => [StoreDelete (sessionName self)]
        | None => []
        end ++
        match fs_get dir (disk w) with
        | Some _ => [FsRm dir (rmMaxRetries self)]
        | None => []
        end ++ [ClearInterval (backupSync self)] /\
      ((faults (FsRm dir (rmMaxRetries self)) <= rmMaxRetries self)%nat ->
       fs_get dir (disk w') = None).
Proof.
  intros faults self w dir Hu Hne Hq Hd.
  destruct (deleteRemoteSession_run faults self w Hq Hd)
    as (w1 & Hrun & Hgone & Hdisk & _ & Htr).
  unfold disconnect, bind. rewrite Hrun, isValidPath_run, Hu, Hdisk.
  destruct (fs_get dir (disk w)) as [n|] eqn:Hg.
  - rewrite absorb_run by auto with settles. unfold clearInterval.
    eexists. split; [reflexivity|].
    cbn [remote add_trace set_timers trace timers disk].
    assert (Hrem : remote (snd (fs_rm faults (Some dir) (rmMaxRetries self) w1))
                   = remote w1).
    { rewrite fs_rm_run. now destruct (Nat.ltb _ _). }
    split; [now rewrite Hrem|]. split.
    { intros t Hin. apply filter_In in Hin as [_ Hk].
      destruct (backupSync self) as [h|]; [|discriminate].
      intros [= ->]. now rewrite Nat.eqb_refl in Hk. }
    split.
    { rewrite fs_rm_trace, Htr, <- !app_assoc. reflexivity. }
    intros Hle. rewrite fs_rm_run.
    destruct (Nat.ltb_spec (rmMaxRetries self) (faults (FsRm dir (rmMaxRetries self))));
      [lia|].
    cbn [snd disk set_disk]. now apply fs_get_remove_same.
  - unfold ret at 1. cbv beta iota. unfold clearInterval.
    eexists. split; [reflexivity|].
    cbn [remote add_trace set_timers trace timers disk].
    split; [exact Hgone|]. split.
    { intros t Hin. apply filter_In in Hin as [_ Hk].
      destruct (backupSync self) as [h|]; [|discriminate].
      intros [= ->]. now rewrite Nat.eqb_refl in Hk. }
    split.
    { rewrite Htr, <- !app_assoc. reflexivity. }
    intros _. now rewrite Hdisk.
Qed.

Lemma disconnect_releases_everything_witness :
  exists w',
    disconnect rm_busy_twice bot1_ready
      (world_of live_disk [("RemoteAuth-bot1", Zip [])]) = (Ok tt, w') /\
    remote w' = [] /\
    fs_get ["srv"; "auth"; "RemoteAuth-bot1"] (disk w') = None.
Proof.
  destruct (disconnect_releases_everything rm_busy_twice bot1_ready
              (world_of live_disk [("RemoteAuth-bot1", Zip [])])
              ["srv"; "auth"; "RemoteAuth-bot1"] eq_refl)
    as (w' & Hrun & _ & _ & _ & Hgone);
    [discriminate|reflexivity|reflexivity|].
  exists w'. split; [exact Hrun|]. split.
  - assert (E : disconnect rm_busy_twice bot1_ready
                  (world_of live_disk [("RemoteAuth-bot1", Zip [])]) =
                (Ok tt, snd (disconnect rm_busy_twice bot1_ready
                               (world_of live_disk [("RemoteAuth-bot1", Zip [])]))))
      by (vm_compute; reflexivity).
    rewrite E in Hrun. inversion Hrun. vm_compute. reflexivity.
  - apply Hgone. vm_compute. lia.
Defined.

(** X10. When the store holds a record and rejects its deletion,
    [disconnect] passes the error on right after the delete call: the
    session directory is not removed and the timer is not cleared. *)
Theorem disconnect_aborts_on_rejected_delete :
  forall faults self w blob,
    fails faults (StoreSessionExists (sessionName self)) = false ->
    key_of (sessionName self) (remote w) = Some blob ->
    fails faults (StoreDelete (sessionName self)) = true ->
    disconnect faults self w =
      (Throw (StoreFailure (StoreDelete (sessionName self))),
       add_trace (StoreDelete (sessionName self))
         (add_trace (StoreSessionExists (sessionName self)) w)).
Proof.
  intros faults self w blob Hq Hk Hd.
  unfold disconnect, deleteRemoteSession, bind.
  rewrite (store_sessionExists_run faults _ _ Hq), Hk.
  unfold store_delete, bind, log, throw. now rewrite Hd.
Qed.

Lemma disconnect_aborts_on_rejected_delete_witness :
  disk (snd (disconnect delete_rejected (set_backupSync 0 bot1_ready)
               (start_timer 60000 (world_of live_disk [("RemoteAuth-bot1", Zip [])]))))
    = live_disk /\
  timers (snd (disconnect delete_rejected (set_backupSync 0 bot1_ready)
                 (start_timer 60000 (world_of live_disk [("RemoteAuth-bot1", Zip [])]))))
    = [(0%nat, 60000%Z)].
Proof.
  rewrite (disconnect_aborts_on_rejected_delete delete_rejected
             (set_backupSync 0 bot1_ready)
             (start_timer 60000 (world_of live_disk [("RemoteAuth-bot1", Zip [])]))
             (Zip []) eq_refl eq_refl eq_refl).
  split; reflexivity.
Defined.

(** ** A backup cycle leaves the session directory alone *)


(** X11. A backup cycle never changes the session directory, be it the
    first cycle or one started by the scheduler: whatever fails during the
    cycle, every path at or below the session directory holds after the
    cycle what it held before. *)
Theorem backup_leaves_session_directory :
  forall faults self options w dir below,
    initialized self ->
    userDataDir self = Some dir ->
    fs_get (dir ++ below) (disk (snd (storeRemoteSession faults self options w))) =
    fs_get (dir ++ below) (disk w).
Proof.
  intros faults self options w dir below Hinit Hu.
  destruct (initialized_shape self Hinit)
    as (sn & t & Hu' & Hn & Ht & _ & Hts & _ & _).
  rewrite Hu' in Hu. inversion Hu. subst dir.
  rewrite <- app_assoc. cbn [app].
  apply (keeps_storeRemoteSession faults (dataPath self) sn below self t options
           eq_refl Hn Hu' Ht).
  congruence.
Qed.

Lemma backup_leaves_session_directory_witness :
  fs_get (["srv"; "auth"; "RemoteAuth-bot1"] ++ ["Default"])
    (disk (snd (storeRemoteSession cp_fails (set_backupSync 0 bot1_ready) None
                  (start_timer 60000 live_world)))) =
  fs_get (["srv"; "auth"; "RemoteAuth-bot1"] ++ ["Default"])
    (disk (start_timer 60000 live_world)).
Proof.
  apply (backup_leaves_session_directory cp_fails (set_backupSync 0 bot1_ready) None
           (start_timer 60000 live_world) ["srv"; "auth"; "RemoteAuth-bot1"]
           ["Default"]).
  - exact (scheduled_initialized 0).
  - reflexivity.
Defined.

(** X12. A backup cycle makes no other calls than those of staging,
    compression, the store's save, the notification and the two deletions:
    it never queries the store, fetches or deletes a record, and it changes
    neither the timers nor the options of the hosting client. *)
Theorem backup_makes_only_cycle_calls :
  forall faults self options w,
    timers (snd (storeRemoteSession faults self options w)) = timers w /\
    puppeteer_userDataDir (snd (storeRemoteSession faults self options w)) =
      puppeteer_userDataDir w /\
    exists calls,
      trace (snd (storeRemoteSession faults self options w)) = trace w ++ calls /\
      forall e, In e calls ->
        match e with
        | FsCreateWriteStream _ | FsMkdir _ | FsCp _ _ | ArchiveDirectory _ _
        | StoreSave _ | Emit _ | FsUnlink _ | FsRm _ _ => True
        | _ => False
        end.
Proof.
  intros faults self options w.
  destruct (confined_storeRemoteSession faults self options w)
    as (Ht & _ & Hp & calls & Hc & Hall).
  split; [exact Ht|]. split; [exact Hp|].
  exists calls. split; [exact Hc|].
  intros e He. rewrite forallb_forall in Hall. specialize (Hall e He).
  destruct e; try exact I; discriminate Hall.
Qed.

(** X13. Recovery makes no other calls than the store's existence query and
    fetch, the removal and creation of the session directory, the
    extraction and the deletion of the archive: it never saves or deletes a
    record, and it changes neither the timers nor the options of the
    hosting client. *)
Theorem recovery_makes_only_recovery_calls :
  forall faults self w,
    timers (snd (extractRemoteSession faults self w)) = timers w /\
    puppeteer_userDataDir (snd (extractRemoteSession faults self w)) =
      puppeteer_userDataDir w /\
    exists calls,
      trace (snd (extractRemoteSession faults self w)) = trace w ++ calls /\
      forall e, In e calls ->
        match e with
        | StoreSessionExists _ | StoreExtract _ _ | FsRm _ _ | FsMkdir _
        | UnzipExtract _ _ | FsUnlink _ => True
        | _ => False
        end.
Proof.
  intros faults self w.
  destruct (confined_extractRemoteSession faults self w)
    as (Ht & _ & Hp & calls & Hc & Hall).
  split; [exact Ht|]. split; [exact Hp|].
  exists calls. split; [exact Hc|].
  intros e He. rewrite forallb_forall in Hall. specialize (Hall e He).
  destruct e; try exact I; discriminate Hall.
Qed.

(** X14. [isValidPath] never throws and changes nothing: it answers [true]
    exactly when something exists at the path, and [false] for a path that
    is [undefined]. *)
Theorem isValidPath_answers :
  forall p w,
    exists b,
      isValidPath p w = (Ok b, w) /\
      (b = true <-> exists q n, p = Some q /\ fs_get q (disk w) = Some n).
Proof.
  intros p w. rewrite isValidPath_run. eexists. split; [reflexivity|].
  destruct p as [q|].
  - destruct (fs_get q (disk w)) as [n|] eqn:Hg; split.
    + intros _. now exists q, n.
    + reflexivity.
    + discriminate.
    + intros (q' & n & [= <-] & Hn). congruence.
  - split; [discriminate|]. intros (q' & n & H & _). discriminate H.
Qed.

(** *** Directory listings that name each entry once *)

Lemma distinct_names_NoDup (l : list string) :
  NoDup l -> distinct_names l = true.
Proof.
  induction 1 as [|k l Hk Hl IH]; [reflexivity|].
  cbn [distinct_names]. rewrite IH, andb_true_r. apply negb_true_iff.
  apply not_true_is_false. intros Hex.
  apply existsb_exists in Hex as (x & Hin & Hx).
  apply String.eqb_eq in Hx. now subst x.
Qed.

Lemma well_named_Dir (es : entries) :
  distinct_names (map fst es) = true ->
  (forall k c, In (k, c) es -> well_named c = true) ->
  well_named (Dir es) = true.
Proof.
  intros Hd Hall. cbn [well_named]. rewrite Hd. cbn [andb].
  induction es as [|[k c] es IH]; [reflexivity|].
  rewrite (Hall k c (or_introl eq_refl)). cbn [andb].
  cbn [map fst distinct_names] in Hd. apply andb_true_iff in Hd as (_ & Hd).
  apply IH; [exact Hd|]. intros k' c' Hin. apply (Hall k' c'). now right.
Qed.

(** What is staged of a well-named session directory is well named. *)
Lemma well_named_staged (l : list string) (prof : entries) :
  NoDup l -> well_named (Dir prof) = true ->
  well_named (Dir (staged_of l prof)) = true.
Proof.
  intros Hl Hwf. apply well_named_Dir.
  - apply distinct_names_NoDup, staged_of_NoDup, Hl.
  - intros k c Hin. apply staged_of_get in Hin as (_ & Hk).
    exact (well_named_entry k c prof Hwf Hk).
Qed.

Section Restoring.

Variable faults : event -> nat.
Hypothesis quiet_env : forall e, faults e = 0%nat.

Lemma quiet_fails (e : event) : fails faults e = false.
Proof. unfold fails. now rewrite quiet_env. Qed.

(** Recovery of a record on a disk that has the data directory. *)
Lemma recovery_unpacks self sn es E w :
  userDataDir self = Some (dataPath self ++ [sn]) ->
  sessionName self = Some sn ->
  sn <> (sn ++ ".zip")%string ->
  well_named (Dir es) = true ->
  inflight w = [] ->
  alist_get sn (remote w) = Some (Zip es) ->
  fs_get (dataPath self) (disk w) = Some (Dir E) ->
  exists w' E',
    extractRemoteSession faults self w = (Ok tt, w') /\
    fs_get (dataPath self) (disk (settle w')) = Some (Dir E') /\
    alist_get sn E' = extracted (Dir es) /\
    alist_get (sn ++ ".zip")%string E' = None /\
    (forall x, x <> sn -> x <> (sn ++ ".zip")%string ->
               alist_get x E' = alist_get x E) /\
    remote (settle w') = remote w.
Proof.
  intros Hu Hn Hsz Hwf Hinf Hk Hg.
  unfold extractRemoteSession, bind.
  rewrite isValidPath_run, Hu, Hn, (store_sessionExists_run faults _ _ (quiet_fails _)).
  cbn [key_of remote add_trace js_str]. rewrite Hk.
  set (w1 := add_trace (StoreSessionExists (Some sn)) w).
  assert (Hrm : exists w2 E2,
            (if match fs_get (dataPath self ++ [sn]) (disk w) with
                | Some _ => true | None => false end
             then absorb (fs_rm faults (Some (dataPath self ++ [sn])) (rmMaxRetries self))
             else ret tt) w1 = (Ok tt, w2) /\
            fs_get (dataPath self) (disk w2) = Some (Dir E2) /\
            alist_get sn E2 = None /\
            (forall x, x <> sn -> alist_get x E2 = alist_get x E) /\
            inflight w2 = [] /\
            remote w2 = remote w).
  { destruct (fs_get (dataPath self ++ [sn]) (disk w)) as [n|] eqn:Hd.
    - rewrite absorb_run by auto with settles. rewrite fs_rm_run.
      replace (Nat.ltb _ _) with false
        by (symmetry; apply Nat.ltb_ge; rewrite quiet_env; lia).
      cbn [snd]. eexists. exists (alist_del sn E).
      split; [reflexivity|]. subst w1.
      cbn [disk set_disk add_trace remote inflight].
      split; [|split; [apply alist_get_del_same|split; [|split; [exact Hinf|reflexivity]]]].
      + rewrite (fs_remove_focus (dataPath self) [sn] (disk w) (Dir E)
                   ltac:(discriminate) Hg).
        reflexivity.
      + intros x Hx. now apply alist_get_del_other.
    - exists w1, E. split; [reflexivity|]. split; [exact Hg|].
      split; [|split; [reflexivity|split; [exact Hinf|reflexivity]]].
      rewrite fs_get_app, Hg in Hd. cbn [fs_get] in Hd.
      now destruct (alist_get sn E). }
  destruct Hrm as (w2 & E2 & Hrm & Hg2 & Hs2 & Ho2 & Hi2 & Hr2). rewrite Hrm.
  unfold store_extract, bind, log, throw.
  rewrite quiet_fails. cbn [key_of remote disk add_trace]. rewrite Hr2, Hk.
  destruct (fs_put_focus (dataPath self) [(sn ++ ".zip")%string] (Zip es) (disk w2)
              (Dir E2) (Dir (alist_set (sn ++ ".zip")%string (Zip es) E2))
              ltac:(discriminate) Hg2 eq_refl) as (d' & Hput & Hg3).
  unfold path_join. rewrite Hput.
  destruct (unCompressSession_settled faults self sn es _
              (set_disk d' (add_trace
                 (StoreExtract (Some sn) (dataPath self ++ [(sn ++ ".zip")%string])) w2))
              Hu Hsz (quiet_env _) (quiet_fails _) Hwf Hi2 Hg3)
    as (w' & E' & Hrun & Hg' & Hs' & Hz' & Ho' & Hr').
  { apply alist_get_set_same. }
  { left. rewrite alist_get_set_other by exact Hsz. exact Hs2. }
  exists w', E'. split; [exact Hrun|]. split; [exact Hg'|].
  split.
  { rewrite Hs'. rewrite alist_get_set_other by exact Hsz. rewrite Hs2.
    now destruct (extracted (Dir es)). }
  split; [exact Hz'|]. split.
  { intros x Hxs Hxz. rewrite Ho' by assumption.
    rewrite alist_get_set_other by congruence. now apply Ho2. }
  rewrite Hr'. cbn [remote set_disk add_trace]. exact Hr2.
Qed.

(** *** A cycle in which nothing fails *)

Lemma store_save_ok st dp sn es w :
  fs_get (dp ++ [(sn ++ ".zip")%string]) (disk w) = Some (Zip es) ->
  exists w',
    store_save faults st (path_join dp sn) w = (Ok tt, w') /\
    disk w' = disk w /\
    remote w' = alist_set (record_name st (path_join dp sn)) (Zip es) (remote w).
Proof.
  intros Hz. unfold store_save, bind, log. rewrite quiet_fails.
  cbv beta iota zeta. cbn [disk add_trace].
  unfold path_join. rewrite last_last, removelast_last, Hz.
  eexists. split; [reflexivity|]. split; reflexivity.
Qed.

Lemma finally_cleanup_total self zp w :
  finally_cleanup faults self zp w = (Ok tt, snd (finally_cleanup faults self zp w)).
Proof.
  unfold finally_cleanup, allSettled, bind.
  destruct zp; rewrite !absorb_run by auto with settles; reflexivity.
Qed.

Lemma finally_cleanup_disk self zp es w :
  fs_get zp (disk w) = Some (Zip es) ->
  disk (snd (finally_cleanup faults self (Some zp) w)) =
  fs_remove (tempDir self) (fs_remove zp (disk w)).
Proof.
  intros Hz. unfold finally_cleanup, allSettled, bind.
  rewrite !absorb_run by auto with settles. cbn [snd]. unfold ret. cbn [snd].
  rewrite fs_rm_run.
  replace (Nat.ltb _ _) with false
    by (symmetry; apply Nat.ltb_ge; rewrite quiet_env; lia).
  cbn [snd disk set_disk add_trace].
  unfold fs_unlink, bind, log. rewrite quiet_fails.
  cbn [disk add_trace]. now rewrite Hz.
Qed.

Lemma cycle_succeeds self sn t prof E options w :
  userDataDir self = Some (dataPath self ++ [sn]) ->
  sessionName self = Some sn ->
  tempDir self = dataPath self ++ [t] ->
  NoDup (requiredDirs self) ->
  t <> sn -> t <> (sn ++ ".zip")%string ->
  fs_get (dataPath self) (disk w) = Some (Dir E) ->
  alist_get sn E = Some (Dir prof) ->
  alist_get t E = None ->
  (forall es, alist_get (sn ++ ".zip")%string E <> Some (Dir es)) ->
  exists w' E',
    storeRemoteSession faults self options w = (Ok tt, w') /\
    remote w' = alist_set (record_name (store self) (dataPath self ++ [sn]))
                  (Zip (staged_of (requiredDirs self) prof)) (remote w) /\
    fs_get (dataPath self) (disk w') = Some (Dir E') /\
    alist_get sn E' = Some (Dir prof) /\
    alist_get t E' = None /\
    alist_get (sn ++ ".zip")%string E' = None.
Proof.
  intros Hu Hn Htmp Hreq Hts Htz Hg Hsn Ht Hz.
  assert (Hsz : sn <> (sn ++ ".zip")%string)
    by apply (append_suffix_neq sn "." "zip").
  destruct (compressSession_listing faults quiet_env self sn t prof E w
              Hu Hn Htmp Hreq Hts Htz Hg Hsn Ht Hz)
    as (w1 & E1 & Hc & Hg1 & Hz1 & Ht1 & Hs1 & Hr1).
  assert (Hp : fs_get (dataPath self ++ [sn]) (disk w) = Some (Dir prof)).
  { rewrite fs_get_app, Hg. cbn [fs_get]. now rewrite Hsn. }
  assert (Hzip1 : fs_get (dataPath self ++ [(sn ++ ".zip")%string]) (disk w1) =
                  Some (Zip (staged_of (requiredDirs self) prof))).
  { rewrite fs_get_app, Hg1. cbn [fs_get]. now rewrite Hz1. }
  destruct (store_save_ok (store self) (dataPath self) sn _ w1 Hzip1)
    as (w2 & Hsave & Hd2 & Hr2).
  unfold path_join in Hr2.
  assert (Hbody : exists w2',
            save_and_notify faults self options w1 = (Ok tt, w2') /\
            disk w2' = disk w1 /\
            remote w2' = alist_set (record_name (store self) (dataPath self ++ [sn]))
                           (Zip (staged_of (requiredDirs self) prof)) (remote w)).
  { unfold save_and_notify, bind, need. rewrite Hn. unfold ret at 1.
    rewrite Hsave.
    destruct (match options with Some o => emit o | None => false end).
    - eexists. split; [reflexivity|]. cbn. now rewrite Hd2, Hr2, Hr1.
    - eexists. split; [reflexivity|]. now rewrite Hd2, Hr2, Hr1. }
  destruct Hbody as (w2' & Hbody & Hd2' & Hr2').
  unfold storeRemoteSession, bind.
  rewrite isValidPath_run, Hu, Hp. cbn [negb]. rewrite Hc.
  unfold try_finally. rewrite Hbody.
  rewrite finally_cleanup_total.
  eexists. exists (alist_del t (alist_del (sn ++ ".zip")%string E1)).
  split; [reflexivity|].
  split; [rewrite (local_finally_cleanup faults self _ w2'); exact Hr2'|].
  rewrite (finally_cleanup_disk self _ _ w2') by (rewrite Hd2'; exact Hzip1).
  rewrite Htmp, Hd2'.
  split.
  - rewrite (fs_remove_focus (dataPath self) [t] _
               (Dir (alist_del (sn ++ ".zip")%string E1)) ltac:(discriminate)).
    + reflexivity.
    + rewrite (fs_remove_focus (dataPath self) [(sn ++ ".zip")%string] _ (Dir E1)
                 ltac:(discriminate) Hg1).
      reflexivity.
  - split.
    + rewrite !alist_get_del_other by congruence. exact Hs1.
    + split; [apply alist_get_del_same|].
      rewrite alist_get_del_other by congruence. apply alist_get_del_same.
Qed.

End Restoring.

Lemma required_NoDup : NoDup ["Default"; "IndexedDB"; "Local Storage"]%string.
Proof.
  repeat constructor; simpl; intros H;
    repeat (destruct H as [H|H]; [discriminate H|]); exact H.
Qed.

(** The listing of the data directory, seen from an initialised object. *)
Lemma data_directory_listing self dir prof (d : node) t sn :
  userDataDir self = Some (dataPath self ++ [sn]) ->
  tempDir self = dataPath self ++ [t] ->
  sessionName self = Some sn ->
  userDataDir self = Some dir ->
  fs_get dir d = Some (Dir prof) ->
  fs_get (tempDir self) d = None ->
  (forall es,
     fs_get (path_join (dataPath self) (js_str (sessionName self) ++ ".zip")%string) d
       <> Some (Dir es)) ->
  dir = dataPath self ++ [sn] /\
  exists E,
    fs_get (dataPath self) d = Some (Dir E) /\
    alist_get sn E = Some (Dir prof) /\
    alist_get t E = None /\
    forall es, alist_get (sn ++ ".zip")%string E <> Some (Dir es).
Proof.
  intros Hu' Ht Hn Hu Hp Htmp Hzip.
  rewrite Hu' in Hu. inversion Hu. subst dir. clear Hu.
  split; [reflexivity|].
  rewrite Hn in Hzip. cbn [js_str] in Hzip. unfold path_join in Hzip.
  apply fs_get_child_inv in Hp as (E & Hg & Hsn).
  exists E. split; [exact Hg|]. split; [exact Hsn|]. split.
  - rewrite Ht, fs_get_app, Hg in Htmp. cbn [fs_get] in Htmp.
    now destruct (alist_get t E).
  - intros es He. apply (Hzip es). rewrite fs_get_app, Hg. cbn [fs_get].
    now rewrite He.
Qed.

(** X15. When nothing fails, the session directory exists, no staging
    directory is left over from an earlier cycle and the archive path is not
    occupied by a directory, compression returns the archive path and the
    archive lists exactly the required subdirectories that exist in the
    session directory, in the order Default, IndexedDB, Local Storage, each
    with the contents it has there; a required subdirectory that does not
    exist is skipped and does not make the compression fail.  The session
    directory and the store are left as they were. *)
Theorem compressSession_archives_what_exists :
  forall faults self w dir prof,
    (forall e, faults e = 0%nat) ->
    initialized self ->
    userDataDir self = Some dir ->
    fs_get dir (disk w) = Some (Dir prof) ->
    fs_get (tempDir self) (disk w) = None ->
    (forall es,
       fs_get (path_join (dataPath self) (js_str (sessionName self) ++ ".zip")%string)
         (disk w) <> Some (Dir es)) ->
    exists zp w1,
      compressSession faults self w = (Ok zp, w1) /\
      fs_get zp (disk w1) =
        Some (Zip (staged_of ["Default"; "IndexedDB"; "Local Storage"] prof)) /\
      fs_get dir (disk w1) = Some (Dir prof) /\
      remote w1 = remote w.
Proof.
  intros faults self w dir prof Hquiet Hinit Hu Hp Htmp Hzip.
  destruct (initialized_shape self Hinit)
    as (sn & t & Hu' & Hn & Ht & Hreq & Hts & Htz & Hsz).
  destruct (data_directory_listing self dir prof (disk w) t sn Hu' Ht Hn Hu Hp Htmp Hzip)
    as (-> & E & Hg & Hsn & Hfree & Hz).
  assert (Hnd : NoDup (requiredDirs self)) by (rewrite Hreq; exact required_NoDup).
  destruct (compressSession_listing faults Hquiet self sn t prof E w
              Hu' Hn Ht Hnd Hts Htz Hg Hsn Hfree Hz)
    as (w1 & E1 & Hc & Hg1 & Hz1 & Ht1 & Hs1 & Hr1).
  rewrite Hreq in Hz1.
  exists (dataPath self ++ [(sn ++ ".zip")%string]), w1.
  split; [exact Hc|]. split.
  - rewrite fs_get_app, Hg1. cbn [fs_get]. now rewrite Hz1.
  - split; [|exact Hr1]. rewrite fs_get_app, Hg1. cbn [fs_get]. now rewrite Hs1.
Qed.

Lemma compressSession_archives_what_exists_witness :
  exists zp w1,
    compressSession no_faults (set_backupSync 0 bot1_ready) young_world = (Ok zp, w1) /\
    fs_get zp (disk w1) =
      Some (Zip (staged_of ["Default"; "IndexedDB"; "Local Storage"]
                   [("Cache", Dir [("data_0", File "x")]);
                    ("Default", Dir [("Cookies", File "c")])])) /\
    fs_get ["srv"; "auth"; "RemoteAuth-bot1"] (disk w1) =
      Some (Dir [("Cache", Dir [("data_0", File "x")]);
                 ("Default", Dir [("Cookies", File "c")])]) /\
    remote w1 = remote young_world.
Proof.
  apply (compressSession_archives_what_exists no_faults (set_backupSync 0 bot1_ready)
           young_world ["srv"; "auth"; "RemoteAuth-bot1"]).
  - reflexivity.
  - exact (scheduled_initialized 0).
  - reflexivity.
  - reflexivity.
  - reflexivity.
  - intros es. vm_compute. discriminate.
Defined.

(** X16. A backup cycle in which nothing fails, started when the session
    directory exists, no staging directory is left over from an earlier
    cycle and the archive path is not occupied by a directory, returns
    normally; it files in the store the archive of the required
    subdirectories that exist, under the name that the store gives to the
    session path [dataPath/sessionName] it is handed; it leaves every other
    record of the store as it was, leaves the session directory as it was,
    and leaves neither the staging directory nor the archive on disk. *)
Theorem backup_cycle_when_nothing_fails :
  forall faults self options w dir prof,
    (forall e, faults e = 0%nat) ->
    initialized self ->
    userDataDir self = Some dir ->
    fs_get dir (disk w) = Some (Dir prof) ->
    fs_get (tempDir self) (disk w) = None ->
    (forall es,
       fs_get (path_join (dataPath self) (js_str (sessionName self) ++ ".zip")%string)
         (disk w) <> Some (Dir es)) ->
    exists w',
      storeRemoteSession faults self options w = (Ok tt, w') /\
      alist_get (record_name (store self) dir) (remote w') =
        Some (Zip (staged_of ["Default"; "IndexedDB"; "Local Storage"] prof)) /\
      (forall name, name <> record_name (store self) dir ->
         alist_get name (remote w') = alist_get name (remote w)) /\
      fs_get dir (disk w') = Some (Dir prof) /\
      fs_get (tempDir self) (disk w') = None /\
      fs_get (path_join (dataPath self) (js_str (sessionName self) ++ ".zip")%string)
        (disk w') = None.
Proof.
  intros faults self options w dir prof Hquiet Hinit Hu Hp Htmp Hzip.
  destruct (initialized_shape self Hinit)
    as (sn & t & Hu' & Hn & Ht & Hreq & Hts & Htz & Hsz).
  destruct (data_directory_listing self dir prof (disk w) t sn Hu' Ht Hn Hu Hp Htmp Hzip)
    as (-> & E & Hg & Hsn & Hfree & Hz).
  assert (Hnd : NoDup (requiredDirs self)) by (rewrite Hreq; exact required_NoDup).
  destruct (cycle_succeeds faults Hquiet self sn t prof E options w
              Hu' Hn Ht Hnd Hts Htz Hg Hsn Hfree Hz)
    as (w' & E' & Hrun & Hr & Hg' & Hs' & Ht' & Hz').
  rewrite Hreq in Hr.
  exists w'. split; [exact Hrun|].
  rewrite Hn, Ht. cbn [js_str]. unfold path_join.
  rewrite !fs_get_app, Hg'. cbn [fs_get]. rewrite Hs', Ht', Hz', Hr.
  split; [apply alist_get_set_same|].
  split; [|auto].
  intros name Hname. now apply alist_get_set_other.
Qed.

Lemma backup_cycle_when_nothing_fails_witness :
  exists w',
    storeRemoteSession no_faults (set_backupSync 0 bot1_ready) None young_world
      = (Ok tt, w') /\
    alist_get "RemoteAuth-bot1" (remote w') =
      Some (Zip (staged_of ["Default"; "IndexedDB"; "Local Storage"]
                   [("Cache", Dir [("data_0", File "x")]);
                    ("Default", Dir [("Cookies", File "c")])])) /\
    (forall name, name <> "RemoteAuth-bot1"%string ->
       alist_get name (remote w') = alist_get name (remote young_world)) /\
    fs_get ["srv"; "auth"; "RemoteAuth-bot1"] (disk w') =
      Some (Dir [("Cache", Dir [("data_0", File "x")]);
                 ("Default", Dir [("Cookies", File "c")])]) /\
    fs_get ["srv"; "auth"; "wwebjs_temp_session_bot1"] (disk w') = None /\
    fs_get ["srv"; "auth"; "RemoteAuth-bot1.zip"] (disk w') = None.
Proof.
  apply (backup_cycle_when_nothing_fails no_faults (set_backupSync 0 bot1_ready) None
           young_world ["srv"; "auth"; "RemoteAuth-bot1"]).
  - reflexivity.
  - exact (scheduled_initialized 0).
  - reflexivity.
  - reflexivity.
  - reflexivity.
  - intros es. vm_compute. discriminate.
Defined.

(** X17. Recovery of a stored archive none of whose directories lists a
    name twice, when nothing fails, the data directory exists and no earlier
    extraction is still writing: recovery returns normally, and once the
    extraction has written its last file (however many were still to be
    written when recovery returned) whatever the session directory held
    before is gone and the session directory holds exactly the files of the
    archive, each at its path with its contents; directories of the archive
    that hold no file are not recreated, and when the archive holds no file
    at all there is no session directory.  The downloaded archive is gone
    from the disk, and the store is unchanged. *)
Theorem recovery_replaces_session_directory :
  forall faults self w dir es E,
    (forall e, faults e = 0%nat) ->
    initialized self ->
    userDataDir self = Some dir ->
    well_named (Dir es) = true ->
    inflight w = [] ->
    key_of (sessionName self) (remote w) = Some (Zip es) ->
    fs_get (dataPath self) (disk w) = Some (Dir E) ->
    exists w',
      extractRemoteSession faults self w = (Ok tt, w') /\
      fs_get dir (disk (settle w')) = extracted (Dir es) /\
      fs_get (path_join (dataPath self) (js_str (sessionName self) ++ ".zip")%string)
        (disk (settle w')) = None /\
      remote (settle w') = remote w.
Proof.
  intros faults self w dir es E Hquiet Hinit Hu Hwf Hinf Hk Hg.
  destruct (initialized_shape self Hinit)
    as (sn & t & Hu' & Hn & Ht & Hreq & Hts & Htz & Hsz).
  rewrite Hu' in Hu. inversion Hu. subst dir. clear Hu.
  rewrite Hn in Hk. cbn [key_of] in Hk.
  destruct (recovery_unpacks faults Hquiet self sn es E w Hu' Hn Hsz Hwf Hinf Hk Hg)
    as (w' & E' & Hrun & Hg' & Hs' & Hz' & _ & Hr').
  exists w'. split; [exact Hrun|].
  rewrite Hn. cbn [js_str]. unfold path_join.
  rewrite !fs_get_app, Hg'. cbn [fs_get]. rewrite Hs', Hz'.
  split; [now destruct (extracted (Dir es))|auto].
Qed.

Lemma recovery_replaces_session_directory_witness :
  exists w',
    extractRemoteSession no_faults bot1_ready
      (world_of stale_disk
         [("RemoteAuth-bot1",
           Zip [("Default", Dir [("Cookies", File "new")]); ("IndexedDB", Dir [])])]) =
      (Ok tt, w') /\
    fs_get ["srv"; "auth"; "RemoteAuth-bot1"] (disk (settle w')) =
      Some (Dir [("Default", Dir [("Cookies", File "new")])]) /\
    fs_get ["srv"; "auth"; "RemoteAuth-bot1.zip"] (disk (settle w')) = None /\
    remote (settle w') =
      [("RemoteAuth-bot1",
        Zip [("Default", Dir [("Cookies", File "new")]); ("IndexedDB", Dir [])])].
Proof.
  apply (recovery_replaces_session_directory no_faults bot1_ready
           (world_of stale_disk
              [("RemoteAuth-bot1",
                Zip [("Default", Dir [("Cookies", File "new")]); ("IndexedDB", Dir [])])])
           ["srv"; "auth"; "RemoteAuth-bot1"]
           [("Default", Dir [("Cookies", File "new")]); ("IndexedDB", Dir [])]
           [("RemoteAuth-bot1", profile);
            ("wwebjs_temp_session_bot1", Dir [("stale", File "old")])]).
  - reflexivity.
  - exact bot1_ready_initialized.
  - reflexivity.
  - reflexivity.
  - reflexivity.
  - reflexivity.
  - reflexivity.
Defined.

(** X18. Backup followed by recovery, when nothing fails and the store
    files the archive it is handed under the session name, which is the
    name recovery asks for.  The backup starts on a session directory no
    directory of which lists a name twice, with no staging directory left
    over and the archive path not occupied by a directory; recovery runs on
    any disk that has the data directory, with the store as the backup
    cycle left it and no earlier extraction still writing.  Recovery then
    returns normally, and once the extraction has written its last file the
    session directory holds exactly the files of the required
    subdirectories of the backed-up session directory, each at its path
    with the contents it had at the time of the backup; everything else of
    the backed-up session directory is lost, directories that held no file
    are not recreated, and when the required subdirectories held no file at
    all there is no session directory. *)
Theorem backup_then_recovery :
  forall faults self options w dir prof w2 E2,
    (forall e, faults e = 0%nat) ->
    initialized self ->
    sessionName self = Some (record_name (store self) dir) ->
    userDataDir self = Some dir ->
    fs_get dir (disk w) = Some (Dir prof) ->
    well_named (Dir prof) = true ->
    fs_get (tempDir self) (disk w) = None ->
    (forall es,
       fs_get (path_join (dataPath self) (js_str (sessionName self) ++ ".zip")%string)
         (disk w) <> Some (Dir es)) ->
    remote w2 = remote (snd (storeRemoteSession faults self options w)) ->
    inflight w2 = [] ->
    fs_get (dataPath self) (disk w2) = Some (Dir E2) ->
    exists w3,
      extractRemoteSession faults self w2 = (Ok tt, w3) /\
      fs_get dir (disk (settle w3)) =
        extracted (Dir (staged_of ["Default"; "IndexedDB"; "Local Storage"] prof)).
Proof.
  intros faults self options w dir prof w2 E2
         Hquiet Hinit Hname Hu Hp Hwf Htmp Hzip Hr2 Hinf Hg2.
  destruct (initialized_shape self Hinit)
    as (sn & t & Hu' & Hn & Ht & Hreq & Hts & Htz & Hsz).
  destruct (data_directory_listing self dir prof (disk w) t sn Hu' Ht Hn Hu Hp Htmp Hzip)
    as (-> & E & Hg & Hsn & Hfree & Hz).
  assert (Hnd : NoDup (requiredDirs self)) by (rewrite Hreq; exact required_NoDup).
  destruct (cycle_succeeds faults Hquiet self sn t prof E options w
              Hu' Hn Ht Hnd Hts Htz Hg Hsn Hfree Hz)
    as (w' & E' & Hrun & Hr & _).
  rewrite Hrun in Hr2. cbn [snd] in Hr2.
  rewrite Hn in Hname. injection Hname as Hname. rewrite <- Hname in Hr.
  destruct (recovery_unpacks faults Hquiet self sn
              (staged_of (requiredDirs self) prof) E2 w2 Hu' Hn Hsz)
    as (w3 & E3 & Hrun3 & Hg3 & Hs3 & _).
  - now apply well_named_staged.
  - exact Hinf.
  - rewrite Hr2, Hr. apply alist_get_set_same.
  - exact Hg2.
  - exists w3. split; [exact Hrun3|].
    rewrite fs_get_app, Hg3. cbn [fs_get]. rewrite Hs3, Hreq.
    apply option_node_eta.
Qed.

Lemma backup_then_recovery_witness :
  exists w3,
    extractRemoteSession no_faults bot1_ready
      (world_of bare_disk
         (remote (snd (storeRemoteSession no_faults bot1_ready None live_world)))) =
      (Ok tt, w3) /\
    fs_get ["srv"; "auth"; "RemoteAuth-bot1"] (disk (settle w3)) =
      Some (Dir [("Default", Dir [("Cookies", File "c")]);
                 ("IndexedDB", Dir [("db", File "i")]);
                 ("Local Storage", Dir [("leveldb", File "l")])]).
Proof.
  apply (backup_then_recovery no_faults bot1_ready None live_world
           ["srv"; "auth"; "RemoteAuth-bot1"]
           [("Default", Dir [("Cookies", File "c")]);
            ("Cache", Dir [("data_0", File "x")]);
            ("IndexedDB", Dir [("db", File "i")]);
            ("Local Storage", Dir [("leveldb", File "l")])]
           (world_of bare_disk
              (remote (snd (storeRemoteSession no_faults bot1_ready None live_world))))
           []).
  - reflexivity.
  - exact bot1_ready_initialized.
  - reflexivity.
  - reflexivity.
  - reflexivity.
  - reflexivity.
  - reflexivity.
  - intros es. vm_compute. discriminate.
  - vm_compute. reflexivity.
  - reflexivity.
  - vm_compute. reflexivity.
Defined.

(** ** The scheduled backups *)

Lemma confined_silent_cycle faults self :
  confined is_silent_cycle (storeRemoteSession faults self None).
Proof.
  assert (Hp : forall e, is_packing e = true -> is_silent_cycle e = true).
  { unfold is_silent_cycle. now intros e ->. }
  assert (Hc : forall e, is_cleanup e = true -> is_silent_cycle e = true).
  { unfold is_silent_cycle. intros e ->. now rewrite orb_true_r. }
  apply confined_bind; [apply confined_isValidPath|intros b].
  apply confined_if; [apply confined_ret|].
  intros w.
  pose proof (confined_compressSession faults self w) as Hcs.
  destruct (compressSession faults self w) as [[zp|e|] w1]; simpl in Hcs.
  - eapply grows_trans; [eapply grows_weaken; [exact Hp|exact Hcs]|].
    apply confined_try_finally.
    + apply confined_bind; [apply confined_need|intros session].
      apply confined_bind; [now apply confined_store_save|intros _].
      apply confined_ret.
    + eapply confined_weaken; [exact Hc|apply confined_finally_cleanup].
  - eapply grows_trans; [eapply grows_weaken; [exact Hp|exact Hcs]|].
    apply confined_try_finally; [apply confined_throw|].
    eapply confined_weaken; [exact Hc|apply confined_finally_cleanup].
  - eapply grows_weaken; [exact Hp|exact Hcs].
Qed.

(** X19. A firing of the interval callback never notifies the client: it
    calls [storeRemoteSession] without options, so whatever the cycle does
    and wherever it fails, the calls it makes are those of staging,
    compression, the store's save and the two deletions, and none of them is
    the [REMOTE_SESSION_SAVED] notification; the timers are left as they
    are. *)
Theorem scheduled_backup_never_notifies :
  forall faults self handle w,
    exists evs,
      trace (snd (tick faults self handle w)) = trace w ++ evs /\
      forallb is_silent_cycle evs = true /\
      ~ In (Emit REMOTE_SESSION_SAVED) evs /\
      timers (snd (tick faults self handle w)) = timers w.
Proof.
  intros faults self handle w. unfold tick.
  destruct (existsb _ (timers w)).
  - destruct (confined_silent_cycle faults self w) as (Ht & _ & _ & evs & He & Hf).
    exists evs. split; [exact He|]. split; [exact Hf|]. split; [|exact Ht].
    intros Hin. rewrite forallb_forall in Hf. specialize (Hf _ Hin). discriminate Hf.
  - exists []. cbn [snd]. rewrite app_nil_r. auto.
Qed.

(** X20. After [destroy], a firing of the timer whose handle the object
    holds does nothing: no backup cycle is started and the world is left as
    it is. *)
Theorem no_backup_after_destroy :
  forall faults self handle w,
    backupSync self = Some handle ->
    tick faults self handle (snd (destroy self w)) = (Ok tt, snd (destroy self w)).
Proof.
  intros faults self handle w Hb. unfold tick, destroy, clearInterval.
  cbn [snd timers add_trace set_timers]. rewrite Hb.
  replace (existsb _ _) with false; [reflexivity|].
  symmetry. apply not_true_is_false. intros Hex.
  apply existsb_exists in Hex as (t & Hin & Ht).
  apply filter_In in Hin as (_ & Hk). rewrite Ht in Hk. discriminate Hk.
Qed.

Lemma no_backup_after_destroy_witness :
  tick no_faults (set_backupSync 0 bot1_ready) 0
    (snd (destroy (set_backupSync 0 bot1_ready)
            (start_timer 60000 live_world))) =
  (Ok tt, snd (destroy (set_backupSync 0 bot1_ready) (start_timer 60000 live_world))).
Proof.
  apply (no_backup_after_destroy no_faults (set_backupSync 0 bot1_ready) 0
           (start_timer 60000 live_world)).
  reflexivity.
Defined.

(** ** Recovery when the stale directory cannot be removed *)

Lemma alist_set_same_value (k : string) (v : node) (l : entries) :
  alist_get k l = Some v -> alist_set k v l = l.
Proof.
  induction l as [|[k' v'] l IH]; simpl; [discriminate|].
  destruct (String.eqb_spec k k') as [->|Hne].
  - now intros [= ->].
  - intros H. now rewrite IH.
Qed.

Lemma fs_mkdirp_existing (p : path) :
  forall d es, fs_get p d = Some (Dir es) -> fs_mkdirp p d = Some d.
Proof.
  induction p as [|k p IH]; intros d es Hg.
  - simpl in Hg. inversion Hg. reflexivity.
  - simpl in Hg. destruct d as [| |es0]; try discriminate.
    destruct (alist_get k es0) as [c|] eqn:Hk; [|discriminate].
    rewrite fs_mkdirp_cons, Hk, (IH c es Hg).
    now rewrite (alist_set_same_value k c es0 Hk).
Qed.

(** X21. When the store holds no record and the removal of the existing
    session directory keeps failing beyond the configured retries, recovery
    still returns normally: the failure of the removal is swallowed, the
    directory is found to exist when it is created, and the disk is left
    exactly as it was, with the stale session in place. *)
Theorem recovery_keeps_directory_it_cannot_remove :
  forall faults self w dir es,
    userDataDir self = Some dir ->
    fails faults (StoreSessionExists (sessionName self)) = false ->
    key_of (sessionName self) (remote w) = None ->
    fs_get dir (disk w) = Some (Dir es) ->
    (rmMaxRetries self < faults (FsRm dir (rmMaxRetries self)))%nat ->
    fails faults (FsMkdir dir) = false ->
    exists w',
      extractRemoteSession faults self w = (Ok tt, w') /\
      disk w' = disk w /\
      remote w' = remote w /\
      trace w' =
        trace w ++ [StoreSessionExists (sessionName self);
                    FsRm dir (rmMaxRetries self); FsMkdir dir].
Proof.
  intros faults self w dir es Hu Hq Hk Hg Hrm Hmk.
  unfold extractRemoteSession, bind.
  rewrite isValidPath_run, Hu, (store_sessionExists_run faults _ _ Hq), Hk, Hg.
  rewrite absorb_run by auto with settles. rewrite fs_rm_run.
  apply Nat.ltb_lt in Hrm. rewrite Hrm. cbn [snd].
  rewrite fs_mkdir_run, Hmk. cbn [disk add_trace].
  rewrite (fs_mkdirp_existing dir (disk w) es Hg).
  eexists. split; [reflexivity|].
  destruct w. cbn. rewrite <- !app_assoc. auto.
Qed.

Lemma recovery_keeps_directory_it_cannot_remove_witness :
  exists w',
    extractRemoteSession rm_always_busy bot1_ready live_world = (Ok tt, w') /\
    disk w' = disk live_world /\
    remote w' = remote live_world /\
    trace w' =
      trace live_world ++
      [StoreSessionExists (sessionName bot1_ready);
       FsRm ["srv"; "auth"; "RemoteAuth-bot1"] (rmMaxRetries bot1_ready);
       FsMkdir ["srv"; "auth"; "RemoteAuth-bot1"]].
Proof.
  apply (recovery_keeps_directory_it_cannot_remove rm_always_busy bot1_ready
           live_world ["srv"; "auth"; "RemoteAuth-bot1"]
           [("Default", Dir [("Cookies", File "c")]);
            ("Cache", Dir [("data_0", File "x")]);
            ("IndexedDB", Dir [("db", File "i")]);
            ("Local Storage", Dir [("leveldb", File "l")])]).
  - reflexivity.
  - reflexivity.
  - reflexivity.
  - reflexivity.
  - vm_compute. lia.
  - reflexivity.
Defined.

(** ** A write stream that cannot be opened *)

(** X22. When the write stream of the archive cannot be opened and staging
    succeeds, the promise of the compression is never settled, because the
    stream has reported its error before [compressSession] listens to it:
    the backup cycle never settles either.  After the staging calls it makes
    the call that starts the archiver and no call after it: nothing is
    saved, and the [finally] block, which would remove the staging
    directory, does not run. *)
Theorem backup_never_settles_without_stream :
  forall faults self options w p n w0 w1,
    userDataDir self = Some p ->
    fs_get p (disk w) = Some n ->
    fs_createWriteStream faults
      (path_join (dataPath self) (js_str (sessionName self) ++ ".zip")%string) w
      = (Ok false, w0) ->
    copyByRequiredDirs faults self w0 = (Ok tt, w1) ->
    storeRemoteSession faults self options w =
      (Pending,
       add_trace
         (ArchiveDirectory (tempDir self)
            (path_join (dataPath self) (js_str (sessionName self) ++ ".zip")%string))
         w1).
Proof.
  intros faults self options w p n w0 w1 Hu Hp Hs Hc.
  unfold storeRemoteSession, bind.
  rewrite isValidPath_run, Hu, Hp. cbn [negb].
  unfold compressSession, bind. rewrite Hs, Hc.
  reflexivity.
Qed.

Lemma backup_never_settles_without_stream_witness :
  storeRemoteSession stream_fails bot1_ready None live_world =
    (Pending,
     add_trace
       (ArchiveDirectory ["srv"; "auth"; "wwebjs_temp_session_bot1"]
          ["srv"; "auth"; "RemoteAuth-bot1.zip"])
       (snd (copyByRequiredDirs stream_fails bot1_ready
               (add_trace (FsCreateWriteStream ["srv"; "auth"; "RemoteAuth-bot1.zip"])
                  live_world)))).
Proof.
  apply (backup_never_settles_without_stream stream_fails bot1_ready None live_world
           ["srv"; "auth"; "RemoteAuth-bot1"] profile
           (add_trace (FsCreateWriteStream ["srv"; "auth"; "RemoteAuth-bot1.zip"])
              live_world)
           (snd (copyByRequiredDirs stream_fails bot1_ready
                   (add_trace (FsCreateWriteStream ["srv"; "auth"; "RemoteAuth-bot1.zip"])
                      live_world)))).
  - reflexivity.
  - reflexivity.
  - reflexivity.
  - vm_compute. reflexivity.
Defined.
